(** * MovementAnalysis: temporal segmentation and interval merging

    A shallow embedding of the movement-analysis program
    ([general_functions.h], [datarow.h], [cell.h], [user.h],
    [csv_parser.h], [main.cpp]) together with the properties its
    specification states about it, and further properties of the code.

    Conventions of the embedding.
    - C++ [int] variables that count or index in-memory vectors are integers
      of [Z]; the one [int] that is computed from a caller-supplied
      parameter by multiplication ([stayTime]) keeps its 32-bit wrap-around.
    - [time_t] is [Z], and [difftime] of two [time_t] values is their exact
      integer difference.
    - A [double] is a binary64 float of the kernel ([float]).
    - A call that ends the process ([exit(0)]), an out-of-range access
      ([at] throwing, [operator[]] past the end), and an integer division by
      zero are results of their own, see [failure].
    - Where C++ leaves the order of evaluation of two operands open, the
      model evaluates them left to right.
    - The files the program writes are left out; what is computed for them
      is kept. *)

From Stdlib Require Import ZArith Lia.
From Stdlib Require Import Floats.PrimFloat Numbers.Cyclic.Int63.Uint63.
From stdpp Require Import gmap strings list sorting.

Set Warnings "-inexact-float".
Local Open Scope Z_scope.

(** ** Results of fallible code *)

Inductive failure : Type :=
| ExitCalled      (* the code printed a diagnostic and called exit(0) *)
| OutOfRange      (* a vector was read outside [0, size) *)
| DivideByZero    (* integer division by zero *)
| OutOfFuel.      (* the bound given to a [while] loop of the model ran out *)

Inductive outcome (A : Type) : Type :=
| Ret (a : A)
| Fail (f : failure).

Arguments Ret {A} a.
Arguments Fail {A} f.

Definition bind {A B : Type} (m : outcome A) (k : A -> outcome B) : outcome B :=
  match m with
  | Ret a => k a
  | Fail f => Fail f
  end.

Notation "x <- m ;; k" := (bind m (fun x => k))
  (at level 100, m at next level, right associativity).

(** [v.size()] and the two ways the code reads [v[i]]; both fail the same way
    in the model when [i] is outside the vector. *)
Definition size {A : Type} (v : list A) : Z := Z.of_nat (length v).

Definition vec_at {A : Type} (v : list A) (i : Z) : outcome A :=
  if i <? 0 then Fail OutOfRange
  else match v !! Z.to_nat i with
       | Some x => Ret x
       | None => Fail OutOfRange
       end.

(** ** The C library's calendar time

    [struct tm] and [mktime] belong to the C library, not to the program:
    they are an interface here.  [mktime] answers -1 when the date cannot be
    converted. *)

Class Clock : Type := {
  tm : Type;
  mktime : tm -> Z
}.

(** ** general_functions.h *)

Section GeneralFunctions.
Context `{Clock}.

Definition TIMEPAIR : Type := tm * tm.

Definition getTimeValue (datetime : tm) : outcome Z :=
  let t := mktime datetime in
  if t =? -1 then Fail ExitCalled else Ret t.

(** Which vector [target] points to. *)
Inductive target_of : Type := V1 | V2.

Record merge_vars : Type := MergeVars {
  merged : list TIMEPAIR;
  target : target_of;
  idx1 : Z;
  idx2 : Z;
  idxTarget : Z
}.

(** Lines 28-46 of [merge]: choose where the next interval comes from. *)
Definition merge_select (v1 v2 : list TIMEPAIR) (s : merge_vars) : outcome merge_vars :=
  if (idx1 s <? size v1) && (idx2 s <? size v2) then
    a <- vec_at v1 (idx1 s) ;;
    b <- vec_at v2 (idx2 s) ;;
    ta <- getTimeValue a.1 ;;
    tb <- getTimeValue b.1 ;;
    if ta <? tb
    then Ret (MergeVars (merged s) V1 (idx1 s + 1) (idx2 s) (idx1 s))
    else Ret (MergeVars (merged s) V2 (idx1 s) (idx2 s + 1) (idx2 s))
  else if idx1 s =? size v1 then
    Ret (MergeVars (merged s) V2 (idx1 s + 1) (idx2 s + 1) (idx2 s))
  else if idx2 s =? size v2 then
    Ret (MergeVars (merged s) V1 (idx1 s + 1) (idx2 s + 1) (idx1 s))
  else Ret s.

(** Lines 48-53 of [merge]: the interval [x] under consideration is appended
    when [merged] is empty or ends strictly before [x] starts; otherwise the
    end of the last interval of [merged] is raised to the end of [x] when that
    is later. *)
Definition consider (merged : list TIMEPAIR) (x : TIMEPAIR) : outcome (list TIMEPAIR) :=
  match last merged with
  | None => Ret (merged ++ [x])
  | Some back =>
      tb <- getTimeValue back.2 ;;
      tx <- getTimeValue x.1 ;;
      if tb <? tx then Ret (merged ++ [x])
      else
        tb' <- getTimeValue back.2 ;;
        te <- getTimeValue x.2 ;;
        if tb' <? te then Ret (removelast merged ++ [(back.1, x.2)])
        else Ret merged
  end.

Definition deref (v1 v2 : list TIMEPAIR) (t : target_of) : list TIMEPAIR :=
  match t with V1 => v1 | V2 => v2 end.

(** The [while] loop of [merge]; [fuel] bounds the number of iterations. *)
Fixpoint merge_loop (fuel : nat) (v1 v2 : list TIMEPAIR) (s : merge_vars)
  : outcome merge_vars :=
  if (idx1 s <=? size v1) && (idx2 s <=? size v2) then
    match fuel with
    | O => Fail OutOfFuel
    | S fuel' =>
        s' <- merge_select v1 v2 s ;;
        x <- vec_at (deref v1 v2 (target s')) (idxTarget s') ;;
        m <- consider (merged s') x ;;
        merge_loop fuel' v1 v2
          (MergeVars m (target s') (idx1 s') (idx2 s') (idxTarget s'))
    end
  else Ret s.

(** Lines 56-57: what is left of either vector is inserted as it is. *)
Definition merge_tails (v1 v2 : list TIMEPAIR) (s : merge_vars) : list TIMEPAIR :=
  let m1 := if idx1 s <? size v1
            then merged s ++ drop (Z.to_nat (idx1 s)) v1 else merged s in
  if idx2 s <? size v2 then m1 ++ drop (Z.to_nat (idx2 s)) v2 else m1.

Definition merge (v1 v2 : list TIMEPAIR) : outcome (list TIMEPAIR) :=
  s <- merge_loop (length v1 + length v2 + 2) v1 v2 (MergeVars [] V1 0 0 0) ;;
  Ret (merge_tails v1 v2 s).

End GeneralFunctions.

(** ** datarow.h *)

Module DataRow.
Section WithClock.
Context `{Clock}.

Record t : Type := mk {
  datetime_ : tm;
  lon_ : float;
  lat_ : float;
  tag_ : string;
  areaId_ : Z
}.

Definition new (datetime : tm) (lon lat : float) (tag : string) : t :=
  mk datetime lon lat tag 0.

Definition getLon (d : t) : float := lon_ d.
Definition getLat (d : t) : float := lat_ d.
Definition getDateTime (d : t) : tm := datetime_ d.
Definition getTag (d : t) : string := tag_ d.
Definition setAreaID (d : t) (id : Z) : t :=
  mk (datetime_ d) (lon_ d) (lat_ d) (tag_ d) id.
Definition getAreaID (d : t) : Z := areaId_ d.

Definition compareByTime (a b : t) : outcome bool :=
  ta <- getTimeValue (getDateTime a) ;;
  tb <- getTimeValue (getDateTime b) ;;
  Ret (ta - tb <? 0).

End WithClock.
End DataRow.

(** [for (int i = from; ...; i++)] running its body [n] times. *)
Fixpoint for_loop {S : Type} (body : Z -> S -> outcome S) (i : Z) (n : nat) (s : S)
  : outcome S :=
  match n with
  | O => Ret s
  | S n' => s' <- body i s ;; for_loop body (i + 1) n' s'
  end.

(** [createJsonFile] reads row [i] of its list for [low <= i < high]; the model keeps
    the coordinates it writes. *)
Definition createJsonFile `{Clock} (rows : list DataRow.t) (low high : Z)
  : outcome (list (float * float)%type) :=
  for_loop
    (fun i coords =>
       d <- vec_at rows i ;;
       Ret (coords ++ [(DataRow.getLon d, DataRow.getLat d)]))
    low (Z.to_nat (high - low)) [].

(** ** cell.h *)

Module Cell.
Section WithClock.
Context `{Clock}.

Record t : Type := mk {
  tag_ : string;
  rowList_ : list DataRow.t
}.

Definition new (r : DataRow.t) (tag : string) : t := mk tag [r].
Definition addDataRow (c : t) (d : DataRow.t) : t := mk (tag_ c) (rowList_ c ++ [d]).
Definition numConnections (c : t) : Z := size (rowList_ c).
Definition getName (c : t) : string := tag_ c.
Definition getRowList (c : t) : list DataRow.t := rowList_ c.

Definition isWithinInterval (c : t) (i j interval : Z) : outcome bool :=
  if (i <? 0) || (j <? 0) || (size (rowList_ c) <=? i) || (size (rowList_ c) <=? j)
  then Fail ExitCalled
  else if interval <? 0 then Fail ExitCalled
  else
    rj <- vec_at (rowList_ c) j ;;
    tj <- getTimeValue (DataRow.getDateTime rj) ;;
    ri <- vec_at (rowList_ c) i ;;
    ti <- getTimeValue (DataRow.getDateTime ri) ;;
    Ret (tj - ti <=? interval).

(** The variables of [getTimeSegments]; of [segment] only [first] lives across
    iterations, [second] is assigned just before every [push_back]. *)
Record segment_vars : Type := SegVars {
  segmentList : list TIMEPAIR;
  segment_first : tm;
  low : Z;
  high : Z
}.

Definition segment_step (c : t) (interval : Z) (i : Z) (s : segment_vars)
  : outcome segment_vars :=
  within <- isWithinInterval c (low s) i interval ;;
  if negb within then
    rh <- vec_at (rowList_ c) (high s) ;;
    ri <- vec_at (rowList_ c) i ;;
    Ret (SegVars (segmentList s ++ [(segment_first s, DataRow.getDateTime rh)])
                 (DataRow.getDateTime ri) i i)
  else Ret (SegVars (segmentList s) (segment_first s) (low s) i).

Definition getTimeSegments (c : t) (interval : Z) : outcome (list TIMEPAIR) :=
  r0 <- vec_at (rowList_ c) 0 ;;
  s <- for_loop (segment_step c interval) 0 (length (rowList_ c))
         (SegVars [] (DataRow.getDateTime r0) 0 0) ;;
  rh <- vec_at (rowList_ c) (high s) ;;
  Ret (segmentList s ++ [(segment_first s, DataRow.getDateTime rh)]).

End WithClock.
End Cell.

(** ** user.h *)

Definition PAIR : Type := (string * Z)%type.

Definition compareBySecondValue (a b : PAIR) : bool := a.2 <? b.2.

(** [std::priority_queue<PAIR, std::vector<PAIR>, compareBySecondValue>]: the
    queue is the collection of what was pushed; [top] is an element that the
    comparison puts below no other one, [pop] removes it.  Among elements of
    equal count the one pushed first is served first. *)
Module PriorityQueue.

Definition t : Type := list PAIR.

Definition push (q : t) (x : PAIR) : t := q ++ [x].

Fixpoint select (q : t) : option (PAIR * t) :=
  match q with
  | [] => None
  | x :: q' =>
      match select q' with
      | None => Some (x, [])
      | Some (m, rest) =>
          if compareBySecondValue x m then Some (m, x :: rest) else Some (x, q')
      end
  end.

Definition top (q : t) : option PAIR := fst <$> select q.

Definition pop (q : t) : t :=
  match select q with
  | Some (_, rest) => rest
  | None => q
  end.

(** [top] then [pop], repeated until the queue is empty. *)
Fixpoint pop_all (fuel : nat) (q : t) : list PAIR :=
  match fuel with
  | O => []
  | S fuel' =>
      match top q with
      | None => []
      | Some x => x :: pop_all fuel' (pop q)
      end
  end.

Definition popped (q : t) : list PAIR := pop_all (length q) q.

End PriorityQueue.

(** The value an [int] takes when a wider integer is stored in it. *)
Definition to_int (z : Z) : Z := (z + 2 ^ 31) mod 2 ^ 32 - 2 ^ 31.

(** The [double] that [difftime] returns for a difference of [z] seconds. *)
Definition double_of_Z (z : Z) : float :=
  if z <? 0 then PrimFloat.opp (PrimFloat.of_uint63 (Uint63.of_Z (- z)))
  else PrimFloat.of_uint63 (Uint63.of_Z z).

Definition movingSpeed : float := 0.0125%float.
Definition upscalingFactor : float := 1.1%float.
Definition minInterval : Z := 600.

Fixpoint foldM {A S : Type} (f : S -> A -> outcome S) (l : list A) (s : S)
  : outcome S :=
  match l with
  | [] => Ret s
  | x :: l' => s' <- f s x ;; foldM f l' s'
  end.

Module User.
Section WithClock.
Context `{Clock}.

(** [haversine_formula.h] is a third-party header; its one function is a
    parameter of the model. *)
Variable distanceEarth : float -> float -> float -> float -> float.

Record t : Type := mk {
  rowList_ : list DataRow.t;
  cellMap_ : gmap string Z;
  cellList_ : list Cell.t;
  cellQueue_ : PriorityQueue.t
}.

(** [std::sort] with [compareByTime], as an insertion sort: the comparison
    is the program's and may end the process. *)
Fixpoint sort_insert (x : DataRow.t) (l : list DataRow.t) : outcome (list DataRow.t) :=
  match l with
  | [] => Ret [x]
  | y :: l' =>
      before <- DataRow.compareByTime x y ;;
      if before then Ret (x :: y :: l')
      else r <- sort_insert x l' ;; Ret (y :: r)
  end.

Fixpoint sort (l : list DataRow.t) : outcome (list DataRow.t) :=
  match l with
  | [] => Ret []
  | x :: l' => s <- sort l' ;; sort_insert x s
  end.

(** The body of the reading loop of [readFile], for one parsed record. *)
Definition addRow (u : t) (d : DataRow.t) : outcome t :=
  let rows := rowList_ u ++ [d] in
  match cellMap_ u !! DataRow.getTag d with
  | Some idx =>
      c <- vec_at (cellList_ u) idx ;;
      Ret (mk rows (cellMap_ u)
              (<[Z.to_nat idx := Cell.addDataRow c d]> (cellList_ u))
              (cellQueue_ u))
  | None =>
      let cells := cellList_ u ++ [Cell.new d (DataRow.getTag d)] in
      Ret (mk rows (<[DataRow.getTag d := size cells - 1]> (cellMap_ u))
              cells (cellQueue_ u))
  end.

(** The body of the loop over [cellList_] that ends [readFile]. *)
Definition rankAndSort (acc : list Cell.t * PriorityQueue.t) (c : Cell.t)
  : outcome (list Cell.t * PriorityQueue.t) :=
  let q := PriorityQueue.push acc.2 (Cell.getName c, Cell.numConnections c) in
  sorted <- sort (Cell.getRowList c) ;;
  Ret (acc.1 ++ [Cell.mk (Cell.tag_ c) sorted], q).

(** [readFile], from the records the CSV reader delivers. *)
Definition readFile (records : list DataRow.t) : outcome t :=
  u <- foldM addRow records (mk [] ∅ [] []) ;;
  cq <- foldM rankAndSort (cellList_ u) ([], cellQueue_ u) ;;
  rows <- sort (rowList_ u) ;;
  Ret (mk rows (cellMap_ u) cq.1 cq.2).

(** The variables of [findResidentialAreaByTopKCells] that describe the
    areas found so far. *)
Record areas : Type := Areas {
  areaMap : gmap string Z;
  areaID : Z;
  areaList : list (list TIMEPAIR)
}.

(** Lines 120-129: the loop over the existing areas, [n] iterations left,
    with its [break]. The boolean is [merged]. *)
Fixpoint tryAreas (n : nat) (i : Z) (currSegList : list TIMEPAIR)
    (cellTag : string) (st : areas) : outcome (bool * areas) :=
  match n with
  | O => Ret (false, st)
  | S n' =>
      a <- vec_at (areaList st) i ;;
      mergedSegList <- merge currSegList a ;;
      if size mergedSegList <? size currSegList + size a then
        Ret (true, Areas (<[cellTag := i + 1]> (areaMap st)) (areaID st)
                         (<[Z.to_nat i := mergedSegList]> (areaList st)))
      else tryAreas n' (i + 1) currSegList cellTag st
  end.

(** Lines 119-134: what is done with a cell whose stay time qualifies. *)
Definition assignArea (currSegList : list TIMEPAIR) (cellTag : string) (st : areas)
  : outcome areas :=
  r <- tryAreas (length (areaList st)) 0 currSegList cellTag st ;;
  if r.1 then Ret r.2
  else Ret (Areas (<[cellTag := areaID r.2]> (areaMap r.2)) (areaID r.2 + 1)
                  (areaList r.2 ++ [currSegList])).

Definition stayTimeOf (currSegList : list TIMEPAIR) (interval : Z) : Z :=
  to_int (size currSegList * interval).

(** [cellMap_[cellTag]]: the position stored for the tag, and 0, stored on
    the spot, when there is none. *)
Definition cellIndex (u : t) (cellTag : string) : Z :=
  default 0 (cellMap_ u !! cellTag).

Definition subscripted (u : t) (cellTag : string) : t :=
  mk (rowList_ u) (<[cellTag := cellIndex u cellTag]> (cellMap_ u))
     (cellList_ u) (cellQueue_ u).

(** [cellQueue_.pop()]. *)
Definition popQueue (u : t) : t :=
  mk (rowList_ u) (cellMap_ u) (cellList_ u) (PriorityQueue.pop (cellQueue_ u)).

(** The [while] loop of [findResidentialAreaByTopKCells]. *)
Fixpoint topKLoop (fuel : nat) (interval : Z) (u : t) (st : areas)
  : outcome (t * areas) :=
  match PriorityQueue.top (cellQueue_ u) with
  | None => Ret (u, st)
  | Some (cellTag, num) =>
      match fuel with
      | O => Fail OutOfFuel
      | S fuel' =>
          let idx := cellIndex u cellTag in
          let u1 := subscripted u cellTag in
          c <- vec_at (cellList_ u1) idx ;;
          currSegList <- Cell.getTimeSegments c interval ;;
          if interval =? 0 then Fail DivideByZero
          else if num <? 3600 ÷ interval then Ret (u1, st)
          else
            let stayTime := stayTimeOf currSegList interval in
            st' <- (if 3600 <? stayTime
                    then assignArea currSegList cellTag st
                    else Ret st) ;;
            topKLoop fuel' interval (popQueue u1) st'
      end
  end.

(** Lines 142-146: the area of its cell is written onto every row. *)
Definition labelRows (m : gmap string Z) (rows : list DataRow.t) : list DataRow.t :=
  map (fun r => match m !! DataRow.getTag r with
                | Some id => DataRow.setAreaID r id
                | None => r
                end) rows.

(** [findResidentialAreaByTopKCells] up to the files it writes: the user
    with its rows labelled, and the areas found. *)
Definition findResidentialAreaByTopKCells (u : t) (interval : Z)
  : outcome (t * areas) :=
  r <- topKLoop (length (cellQueue_ u)) interval u (Areas ∅ 1 []) ;;
  Ret (mk (labelRows (areaMap r.2) (rowList_ r.1)) (cellMap_ r.1)
          (cellList_ r.1) (cellQueue_ r.1), r.2).

(** The variables of [findResidentialAreaBySpeed]; [files] are the calls of
    [createJsonFile] made so far: the number in the file name, the two
    date-times in it, and the coordinates written. *)
Record speed_vars : Type := SpeedVars {
  mapID : Z;
  low : Z;
  high : Z;
  files : list (Z * tm * tm * list (float * float))
}.

(** Lines 184-190 and 197-203: a segment is written out when it lasts
    longer than [minInterval]. *)
Definition emitSegment (rows : list DataRow.t) (s : speed_vars) : outcome speed_vars :=
  rh <- vec_at rows (high s - 1) ;;
  th <- getTimeValue (DataRow.getDateTime rh) ;;
  rl <- vec_at rows (low s) ;;
  tl <- getTimeValue (DataRow.getDateTime rl) ;;
  let stayInterval := th - tl in
  if minInterval <? stayInterval then
    rl' <- vec_at rows (low s) ;;
    rh' <- vec_at rows (high s - 1) ;;
    coords <- createJsonFile rows (low s) (high s) ;;
    Ret (SpeedVars (mapID s + 1) (low s) (high s)
           (files s ++ [(mapID s, DataRow.getDateTime rl', DataRow.getDateTime rh', coords)]))
  else Ret s.

(** The body of the scan loop, lines 170-192. *)
Definition speedStep (rows : list DataRow.t) (i : Z) (s0 : speed_vars)
  : outcome speed_vars :=
  let s := SpeedVars (mapID s0) (low s0) i (files s0) in
  rp <- vec_at rows (i - 1) ;;
  ri <- vec_at rows i ;;
  let currShift := distanceEarth (DataRow.getLat rp) (DataRow.getLon rp)
                                 (DataRow.getLat ri) (DataRow.getLon ri) in
  ti <- getTimeValue (DataRow.getDateTime ri) ;;
  tp <- getTimeValue (DataRow.getDateTime rp) ;;
  let timeDiff := ti - tp in
  if timeDiff <? 0 then Fail ExitCalled
  else if PrimFloat.eqb currShift 0%float || (timeDiff =? 0) then Ret s
  else
    let speed := (currShift * upscalingFactor / double_of_Z timeDiff)%float in
    if PrimFloat.ltb movingSpeed speed then
      s' <- emitSegment rows s ;;
      Ret (SpeedVars (mapID s') i (high s') (files s'))
    else Ret s.

Definition findResidentialAreaBySpeed (u : t) : outcome speed_vars :=
  let rows := rowList_ u in
  s <- for_loop (speedStep rows) 1 (length rows - 1) (SpeedVars 1 0 0 []) ;;
  emitSegment rows (SpeedVars (mapID s) (low s) (high s + 1) (files s)).

End WithClock.
End User.

(** A clock whose calendar times are already seconds since the epoch; used to
    run the definitions on concrete times. *)
Definition epoch_clock : Clock := {| tm := Z; mktime := fun t => t |}.

Definition row_at (time : Z) (tag : string) : @DataRow.t epoch_clock :=
  @DataRow.new epoch_clock time 0%float 0%float tag.

(** ** csv_parser.h *)

Module CSVRow.

(** The separator of the fields, a tabulator. *)
Definition tab : Ascii.ascii := Ascii.ascii_of_nat 9.

(** [std::getline(lineStream, cell, '\t')] on a stream that still holds
    [s]: the characters before the first tabulator, and what is left in the
    stream once that tabulator has been taken out; everything and nothing
    when there is no tabulator. *)
Fixpoint getline (s : string) : string * string :=
  match s with
  | EmptyString => (EmptyString, EmptyString)
  | String ch s' =>
      if Ascii.eqb ch tab then (EmptyString, s')
      else let r := getline s' in (String ch r.1, r.2)
  end.

(** The [while] loop of [readNextRow]: [std::getline] fails, and ends the
    loop, when the stream holds nothing any more. *)
Fixpoint readCells (fuel : nat) (lineStream : string) (m_data : list string)
  : outcome (list string) :=
  match lineStream with
  | EmptyString => Ret m_data
  | String _ _ =>
      match fuel with
      | O => Fail OutOfFuel
      | S fuel' =>
          let r := getline lineStream in
          readCells fuel' r.2 (m_data ++ [r.1])
      end
  end.

(** [readNextRow], from the line that the first [std::getline] delivers. *)
Definition readNextRow (line : string) : outcome (list string) :=
  readCells (String.length line) line [].

(** [operator[]] and [size]. *)
Definition at_index (m_data : list string) (index : Z) : outcome string :=
  vec_at m_data index.

Definition size (m_data : list string) : Z := Z.of_nat (length m_data).

End CSVRow.

(** ** datarow.h: averageLatLon *)

(** The variables of the loop of [averageLatLon]. *)
Record average_vars : Type := AverageVars {
  sumLon : float;
  sumLat : float;
  count : Z
}.

Definition average_step `{Clock} (areaID : Z) (s : average_vars) (d : DataRow.t)
  : average_vars :=
  if DataRow.getAreaID d =? areaID
  then AverageVars (sumLon s + DataRow.getLon d)%float
                   (sumLat s + DataRow.getLat d)%float
                   (count s + 1)
  else s.

(** [averageLatLon]: the two entries of [midpoints], latitude first. *)
Definition averageLatLon `{Clock} (rows : list DataRow.t) (areaID : Z)
  : (float * float)%type :=
  let s := fold_left (average_step areaID) rows (AverageVars 0%float 0%float 0) in
  ((sumLat s / double_of_Z (count s))%float, (sumLon s / double_of_Z (count s))%float).

(** ** user.h: the remaining methods of User, and main.cpp *)

Module UserMethods.
Section WithClock.
Context `{Clock}.

Variable distanceEarth : float -> float -> float -> float -> float.

Definition isValid (u : User.t) (cell : string) : outcome unit :=
  match User.cellMap_ u !! cell with
  | None => Fail ExitCalled
  | Some _ => Ret tt
  end.

Definition numConnections (u : User.t) (cell : string) : outcome Z :=
  _ <- isValid u cell ;;
  c <- vec_at (User.cellList_ u) (User.cellIndex u cell) ;;
  Ret (Cell.numConnections c).

Definition getTimeSegments (u : User.t) (cell : string) (interval : Z)
  : outcome (list TIMEPAIR) :=
  _ <- isValid u cell ;;
  c <- vec_at (User.cellList_ u) (User.cellIndex u cell) ;;
  Cell.getTimeSegments c interval.

(** The body of the loop of [calculateSpeedOfEachTime]; [lines] are the
    lines written to the file so far, a time and a speed each. *)
Definition speedLine (rows : list DataRow.t) (i : Z) (lines : list (tm * float))
  : outcome (list (tm * float)) :=
  rp <- vec_at rows (i - 1) ;;
  ri <- vec_at rows i ;;
  let currShift := distanceEarth (DataRow.getLat rp) (DataRow.getLon rp)
                                 (DataRow.getLat ri) (DataRow.getLon ri) in
  ti <- getTimeValue (DataRow.getDateTime ri) ;;
  tp <- getTimeValue (DataRow.getDateTime rp) ;;
  let timeDiff := ti - tp in
  if timeDiff <? 0 then Fail ExitCalled
  else if timeDiff =? 0 then Ret lines
  else
    let speed := (3600 * currShift / double_of_Z timeDiff)%float in
    Ret (lines ++ [(DataRow.getDateTime ri, speed)]).

Definition calculateSpeedOfEachTime (u : User.t) : outcome (list (tm * float)) :=
  let rows := User.rowList_ u in
  for_loop (speedLine rows) 1 (length rows - 1) [].

(** [main], from the records of the file: the interval is 180 seconds. *)
Definition main (records : list DataRow.t) : outcome Z :=
  u <- User.readFile records ;;
  r <- User.findResidentialAreaByTopKCells u 180 ;;
  _ <- calculateSpeedOfEachTime r.1 ;;
  Ret 0.

End WithClock.
End UserMethods.

(** * Vocabulary of the properties *)

Section Intervals.
Context `{Clock}.

(** The date could be converted. *)
Definition convertible (t : tm) : Prop := mktime t <> -1.

(** [a] and [b] share a point of time, be it only an end point. *)
Definition overlap_or_touch (a b : TIMEPAIR) : Prop :=
  mktime a.1 <= mktime b.2 /\ mktime b.1 <= mktime a.2.

Definition starts_before (a b : TIMEPAIR) : Prop := mktime a.1 < mktime b.1.

Definition well_formed (a : TIMEPAIR) : Prop :=
  convertible a.1 /\ convertible a.2 /\ mktime a.1 <= mktime a.2.

(** A list of intervals that is sorted ascending by start and in which no
    two intervals overlap or touch. *)
Definition separated (l : list TIMEPAIR) : Prop :=
  Forall well_formed l /\ Sorted starts_before l /\
  forall i j a b, (i < j)%nat -> l !! i = Some a -> l !! j = Some b ->
                  ~ overlap_or_touch a b.

End Intervals.

Section Segmentation.
Context `{Clock}.

Definition timestamps (rows : list DataRow.t) : list tm :=
  map DataRow.getDateTime rows.

(** Every event has a date that could be converted. *)
Definition all_convertible (rows : list DataRow.t) : Prop :=
  Forall (fun r => convertible (DataRow.getDateTime r)) rows.

(** Events in ascending order of the time [mktime] gives them. *)
Definition sorted_by_time (rows : list DataRow.t) : Prop :=
  Sorted Z.le (map mktime (timestamps rows)).

(** The time [z] lies in the interval [p], ends included. *)
Definition holds (z : Z) (p : TIMEPAIR) : bool :=
  (mktime p.1 <=? z) && (z <=? mktime p.2).

(** The intervals of [segs] in which [z] lies. *)
Definition holders (z : Z) (segs : list TIMEPAIR) : list TIMEPAIR :=
  List.filter (holds z) segs.

(** The segmentation as the specification words it.  The interval in
    progress was opened at [start] and [prev] is the last event put in it; the
    next event stays in it iff it is at most [gapThreshold] later than
    [start]; if not, the interval is closed at [prev] and a new one is opened
    at that event; the last interval is closed at the last event. *)
Fixpoint segment_from (gapThreshold : Z) (start prev : tm) (rest : list tm)
  : list TIMEPAIR :=
  match rest with
  | [] => [(start, prev)]
  | t :: rest' =>
      if mktime t - mktime start <=? gapThreshold
      then segment_from gapThreshold start t rest'
      else (start, prev) :: segment_from gapThreshold t t rest'
  end.

Definition segment_spec (gapThreshold : Z) (events : list tm) : list TIMEPAIR :=
  match events with
  | [] => []
  | t :: rest => segment_from gapThreshold t t rest
  end.

End Segmentation.

Section UserInvariant.
Context `{Clock}.

Definition by_count_descending (a b : PAIR) : Prop := b.2 <= a.2.

(** The entry [readFile] pushes on the queue for a cell. *)
Definition ranking_entry (c : Cell.t) : PAIR :=
  (Cell.getName c, Cell.numConnections c).

(** What holds of the cells of a user while and after the file is read:
    no cell is without rows, and [cellMap_] only holds positions of
    [cellList_]. *)
Definition cells_ok (u : User.t) : Prop :=
  Forall (fun c => Cell.rowList_ c <> []) (User.cellList_ u) /\
  forall (tag : string) (idx : Z),
    User.cellMap_ u !! tag = Some idx -> 0 <= idx < size (User.cellList_ u).

(** The same cell with its rows in another order. *)
Definition reordered (c c' : Cell.t) : Prop :=
  Cell.tag_ c' = Cell.tag_ c /\ Permutation (Cell.rowList_ c') (Cell.rowList_ c).

End UserInvariant.

Section AreaVocabulary.
Context `{Clock}.

(** Merging the cell's intervals with the area's gives fewer intervals than
    the two lists have together. *)
Definition accepts (currSegList a m : list TIMEPAIR) : Prop :=
  merge currSegList a = Ret m /\ size m < size currSegList + size a.

Definition rejects (currSegList a : list TIMEPAIR) : Prop :=
  exists m, merge currSegList a = Ret m /\ size currSegList + size a <= size m.

(** The identifiers handed out so far are 1, 2, ... up to the number of
    areas, the next one is one more, and no cell is bound to another one. *)
Definition ids_sequential (st : User.areas) : Prop :=
  User.areaID st = size (User.areaList st) + 1 /\
  map_Forall (fun _ id => 1 <= id <= size (User.areaList st)) (User.areaMap st).

End AreaVocabulary.

(** * Concrete inputs *)

(** Five events of one cell within 160 seconds.  With a threshold of 100
    the event at 80 is the last one within reach of the event at 0, although
    each event is only 40 after the one before it. *)
Definition cell_A : @Cell.t epoch_clock :=
  Cell.mk "A" [row_at 0 "A"; row_at 40 "A"; row_at 80 "A"; row_at 120 "A";
               row_at 160 "A"].

Definition spans (l : list (Z * Z)) : list (@TIMEPAIR epoch_clock) := l.

(** What [getTimeSegments] makes of [cell_A] with a threshold of 100. *)
Definition cell_A_segments : list (@TIMEPAIR epoch_clock) :=
  spans [(0, 80); (120, 160)].

(** A user with cell A (five events within 180 s) and cell B (one event). *)
Definition two_cells : list (@DataRow.t epoch_clock) :=
  [row_at 0 "A"; row_at 40 "A"; row_at 500 "B"; row_at 80 "A"; row_at 120 "A";
   row_at 160 "A"].

Definition two_cells_user : @User.t epoch_clock :=
  match @User.readFile epoch_clock two_cells with
  | Ret u => u
  | Fail _ => User.mk [] ∅ [] []
  end.

(** Cells A and B are seen at the same three times, more than half an hour
    apart; cell C at three other times. *)
Definition three_cells : list (@DataRow.t epoch_clock) :=
  [row_at 0 "A"; row_at 0 "B"; row_at 2000 "A"; row_at 2000 "B";
   row_at 4000 "A"; row_at 4000 "B";
   row_at 10000 "C"; row_at 20000 "C"; row_at 30000 "C"].

Definition three_cells_user : @User.t epoch_clock :=
  match @User.readFile epoch_clock three_cells with
  | Ret u => u
  | Fail _ => User.mk [] ∅ [] []
  end.

Definition three_areas : @User.areas epoch_clock :=
  User.Areas ∅ 4 [spans [(100, 200)]; spans [(0, 10)]; spans [(15, 30)]].

(** A stand-in for [distanceEarth] that puts any two positions 100 km
    apart. *)
Definition far (a b c d : float) : float := 100%float.

(** ** Lines and fields *)

(** The string has no tabulator in it. *)
Fixpoint tab_free (s : string) : Prop :=
  match s with
  | EmptyString => True
  | String ch s' => ch <> CSVRow.tab /\ tab_free s'
  end.

(** The fields with a tabulator between one and the next. *)
Fixpoint join (fields : list string) : string :=
  match fields with
  | [] => EmptyString
  | f :: rest =>
      match rest with
      | [] => f
      | _ :: _ => f +:+ String CSVRow.tab (join rest)
      end
  end.

(** The fields without the last one when that is empty. *)
Definition kept (fields : list string) : list string :=
  match last fields with
  | Some EmptyString => removelast fields
  | _ => fields
  end.

(** Four events: nearly three hours at one place, a move within a second,
    nearly three hours at the next place. *)
Definition two_stays : list (@DataRow.t epoch_clock) :=
  [row_at 0 "A"; row_at 10000 "A"; row_at 10001 "B"; row_at 20001 "B"].

Definition two_stays_user : @User.t epoch_clock :=
  match @User.readFile epoch_clock two_stays with
  | Ret u => u
  | Fail _ => User.mk [] ∅ [] []
  end.

Section MoreVocabulary.
Context `{Clock}.

(** Both ends of the interval are dates that could be converted. *)
Definition dated (p : TIMEPAIR) : Prop := convertible p.1 /\ convertible p.2.

(** Lines 48-53 of [merge] for dates that convert: [consider] without its
    failures. *)
Definition place (merged : list TIMEPAIR) (x : TIMEPAIR) : list TIMEPAIR :=
  match last merged with
  | None => merged ++ [x]
  | Some back =>
      if mktime back.2 <? mktime x.1 then merged ++ [x]
      else removelast merged ++
             [(back.1, if mktime back.2 <? mktime x.2 then x.2 else back.2)]
  end.

(** The loop of [merge] and its two tail inserts, as a recursion on what is
    left of the two lists: while both have intervals the one that starts
    first is placed ([v2]'s on a tie); when one list has run out, one more
    interval of the other is placed and the rest is appended as it is. *)
Fixpoint weave (merged v1 : list TIMEPAIR) {struct v1}
  : list TIMEPAIR -> list TIMEPAIR :=
  (fix weave_right (merged v2 : list TIMEPAIR) {struct v2} : list TIMEPAIR :=
     match v1, v2 with
     | [], [] => merged
     | [], b :: v2' => place merged b ++ v2'
     | a :: v1', [] => place merged a ++ v1'
     | a :: v1', b :: v2' =>
         if mktime a.1 <? mktime b.1
         then weave (place merged a) v1' (b :: v2')
         else weave_right (place merged b) v2'
     end) merged.

(** Some interval of [v1] and some interval of [v2] overlap or touch. *)
Definition cross (v1 v2 : list TIMEPAIR) : Prop :=
  exists a b, a ∈ v1 /\ b ∈ v2 /\ overlap_or_touch a b.

(** The time by which rows are compared. *)
Definition time_of (r : DataRow.t) : Z := mktime (DataRow.getDateTime r).

(** What holds of the output and of the intervals taken so far, as long as
    nothing has been folded. *)
Definition unfolded (merged pre1 pre2 suf1 suf2 : list TIMEPAIR) : Prop :=
  ~ cross pre1 pre2 /\
  (merged = [] -> pre1 = [] /\ pre2 = []) /\
  forall back, last merged = Some back ->
    (back ∈ pre1 \/ back ∈ pre2) /\
    (forall p, p ∈ pre1 ++ pre2 -> mktime p.2 <= mktime back.2) /\
    (forall x, x ∈ suf1 ++ suf2 -> mktime back.1 <= mktime x.1).

(** How many intervals of [v1] and [v2] the loop of [merge] has taken. *)
Definition taken (v1 v2 : list TIMEPAIR) (s : merge_vars) : Z :=
  Z.min (idx1 s) (size v1) + Z.min (idx2 s) (size v2).

(** What holds of the variables of [merge] each time its loop tests its
    condition, for lists of intervals with convertible ends. *)
Definition loop_ok (v1 v2 : list TIMEPAIR) (s : merge_vars) : Prop :=
  0 <= idx1 s /\ 0 <= idx2 s /\ Forall dated (merged s) /\
  size (merged s) <= taken v1 v2 s /\
  (idx1 s <= size v1 -> idx2 s <= size v2 -> idx1 s < size v1 \/ idx2 s < size v2).

(** The records logged at the cell [tag], in the order of the file. *)
Definition with_tag (tag : string) (records : list DataRow.t) : list DataRow.t :=
  filter (fun r => DataRow.getTag r = tag) records.

(** [cellMap_] is the index of [cellList_]: the cell at a position is stored
    under its name, a stored position holds the cell of that name, and the
    cell of every record is stored. *)
Definition indexed (records : list DataRow.t) (u : User.t) : Prop :=
  (forall (i : nat) (c : Cell.t),
      User.cellList_ u !! i = Some c ->
      User.cellMap_ u !! Cell.getName c = Some (Z.of_nat i)) /\
  (forall (tag : string) (idx : Z),
      User.cellMap_ u !! tag = Some idx ->
      0 <= idx /\
      exists c, User.cellList_ u !! Z.to_nat idx = Some c /\ Cell.getName c = tag) /\
  (forall r, r ∈ records -> is_Some (User.cellMap_ u !! DataRow.getTag r)).

(** While the file is read, a cell holds the records of its name in the
    order of the file. *)
Definition grouped (records : list DataRow.t) (u : User.t) : Prop :=
  forall (i : nat) (c : Cell.t),
    User.cellList_ u !! i = Some c ->
    Cell.rowList_ c = with_tag (Cell.getName c) records.

(** When the file has been read, a cell holds the records of its name in
    ascending order of time. *)
Definition grouped_by_time (records : list DataRow.t) (u : User.t) : Prop :=
  forall (i : nat) (c : Cell.t),
    User.cellList_ u !! i = Some c ->
    sorted_by_time (Cell.rowList_ c) /\
    Permutation (Cell.rowList_ c) (with_tag (Cell.getName c) records).

(** What the loop of [findResidentialAreaByTopKCells] needs of a user:
    every entry of the queue names a cell that [cellMap_] finds, and that
    cell has rows, all with a date that can be converted. *)
Definition ready (u : User.t) : Prop :=
  forall e : PAIR, e ∈ User.cellQueue_ u ->
    exists (i : nat) (c : Cell.t),
      User.cellMap_ u !! e.1 = Some (Z.of_nat i) /\
      User.cellList_ u !! i = Some c /\
      Cell.rowList_ c <> [] /\ all_convertible (Cell.rowList_ c).

(** Every area found so far has an interval, and the dates of its
    intervals can be converted. *)
Definition areas_dated (st : User.areas) : Prop :=
  Forall (fun a => a <> [] /\ Forall dated a) (User.areaList st).

(** What the loop of [findResidentialAreaByTopKCells] keeps about the
    names it has bound: no name is twice in the queue; a bound name has left
    the queue and is the name of some row; every identifier handed out is
    bound to some name; and every name still in the queue is the name of
    some row. *)
Definition every_area_named (u : User.t) (st : User.areas) : Prop :=
  NoDup (map fst (User.cellQueue_ u)) /\
  (forall (tag : string) (id : Z),
      User.areaMap st !! tag = Some id ->
      tag ∉ map fst (User.cellQueue_ u) /\
      exists r, r ∈ User.rowList_ u /\ DataRow.getTag r = tag) /\
  (forall id : Z, 1 <= id < User.areaID st ->
                  exists tag, User.areaMap st !! tag = Some id) /\
  (forall e : PAIR, e ∈ User.cellQueue_ u ->
                    exists r, r ∈ User.rowList_ u /\ DataRow.getTag r = e.1).

(** Two rows that differ at most in their area. *)
Definition same_record (a b : DataRow.t) : Prop :=
  DataRow.getDateTime b = DataRow.getDateTime a /\
  DataRow.getLon b = DataRow.getLon a /\
  DataRow.getLat b = DataRow.getLat a /\
  DataRow.getTag b = DataRow.getTag a.

(** The coordinates [createJsonFile] writes for a row. *)
Definition coordinates (d : DataRow.t) : (float * float)%type :=
  (DataRow.getLon d, DataRow.getLat d).

(** A call of [createJsonFile] made by [findResidentialAreaBySpeed]: the
    number in the file name, the date-times in it, the coordinates written. *)
Definition speed_file : Type := (Z * tm * tm * list (float * float))%type.

Definition file_number (f : speed_file) : Z := f.1.1.1.
Definition file_from (f : speed_file) : tm := f.1.1.2.
Definition file_to (f : speed_file) : tm := f.1.2.
Definition file_coordinates (f : speed_file) : list (float * float) := f.2.

(** The files are numbered 1, 2, ... in the order they are written; each
    spans more than [minInterval] seconds and holds a position; and a file
    ends no later than the next one starts. *)
Definition files_in_order (files : list speed_file) : Prop :=
  (forall (k : nat) (f : speed_file),
      files !! k = Some f ->
      file_number f = Z.of_nat k + 1 /\
      minInterval < mktime (file_to f) - mktime (file_from f) /\
      file_coordinates f <> []) /\
  (forall (k : nat) (f g : speed_file),
      files !! k = Some f -> files !! S k = Some g ->
      mktime (file_to f) <= mktime (file_from g)).

(** What the scan of [findResidentialAreaBySpeed] keeps: the files written
    so far are in order, the next number is one more than their count, and
    the last of them ends no later than the row at position [b]. *)
Definition speed_inv (rows : list DataRow.t) (b : Z) (s : User.speed_vars) : Prop :=
  User.mapID s = size (User.files s) + 1 /\
  files_in_order (User.files s) /\
  (forall (f : speed_file) (r : DataRow.t),
      last (User.files s) = Some f -> rows !! Z.to_nat b = Some r ->
      mktime (file_to f) <= time_of r).

(** The rows that carry the area [areaID]. *)
Definition of_area (areaID : Z) (rows : list DataRow.t) : list DataRow.t :=
  filter (fun d => DataRow.getAreaID d = areaID) rows.

(** The time [z] lies in some interval of [l]. *)
Definition covers (l : list TIMEPAIR) (z : Z) : Prop :=
  exists p, p ∈ l /\ holds z p = true.

(** No interval starts before an earlier one of the list. *)
Definition ascending (l : list TIMEPAIR) : Prop :=
  StronglySorted (fun a b => mktime a.1 <= mktime b.1) l.

(** Intervals that are well formed and in ascending order of start; they
    may overlap. *)
Definition orderly (l : list TIMEPAIR) : Prop :=
  Forall well_formed l /\ ascending l.

(** The interval at the back of the output starts no later than the
    intervals still to come. *)
Definition start_bound (merged rest : list TIMEPAIR) : Prop :=
  forall back, last merged = Some back ->
               Forall (fun x => mktime back.1 <= mktime x.1) rest.

(** [segs] are the segments of the cell of [u] that is named [tag]. *)
Definition segments_of (u : User.t) (interval : Z) (tag : string)
    (segs : list TIMEPAIR) : Prop :=
  exists c, c ∈ User.cellList_ u /\ Cell.getName c = tag /\
            Cell.getTimeSegments c interval = Ret segs.

(** Every area is an orderly list with an interval in it, and covers
    exactly the times covered by the segments of the cells bound to it. *)
Definition area_times (u : User.t) (interval : Z) (st : User.areas) : Prop :=
  forall (i : nat) (a : list TIMEPAIR),
    User.areaList st !! i = Some a ->
    orderly a /\ a <> [] /\
    forall z, covers a z <->
              exists tag segs,
                User.areaMap st !! tag = Some (Z.of_nat i + 1) /\
                segments_of u interval tag segs /\ covers segs z.

(** [u] is [U] after some turns of the loop: the cells are those of [U], and
    every entry of the queue names, through [cellMap_], a cell of that name
    whose rows are in ascending order of time. *)
Definition settled (U u : User.t) : Prop :=
  User.cellList_ u = User.cellList_ U /\
  forall e : PAIR, e ∈ User.cellQueue_ u ->
    exists (i : nat) (c : Cell.t),
      User.cellMap_ u !! e.1 = Some (Z.of_nat i) /\
      User.cellList_ U !! i = Some c /\
      Cell.getName c = e.1 /\ sorted_by_time (Cell.rowList_ c).

(** No two cells of [U] have the same name. *)
Definition named_once (U : User.t) : Prop :=
  forall c c' : Cell.t,
    c ∈ User.cellList_ U -> c' ∈ User.cellList_ U ->
    Cell.getName c = Cell.getName c' -> c = c'.

(** Every entry of the queue of [u] is the entry of a cell of [U]. *)
Definition ranked (U u : User.t) : Prop :=
  forall e : PAIR, e ∈ User.cellQueue_ u ->
                   exists c, c ∈ User.cellList_ U /\ e = ranking_entry c.

(** A cell that has left the queue is bound to an area exactly when its
    stay time is above 3600. *)
Definition bound_if_long (U : User.t) (interval : Z) (u : User.t) (st : User.areas)
  : Prop :=
  forall (c : Cell.t) (segs : list TIMEPAIR),
    c ∈ User.cellList_ U ->
    Cell.getName c ∉ map fst (User.cellQueue_ u) ->
    Cell.getTimeSegments c interval = Ret segs ->
    (is_Some (User.areaMap st !! Cell.getName c) <->
     3600 < User.stayTimeOf segs interval).

End MoreVocabulary.

Section SpeedLines.
Context `{Clock}.
Variable distanceEarth : float -> float -> float -> float -> float.

(** The line [calculateSpeedOfEachTime] writes for the row [r] that follows
    the row [prev]: none when both have the same time. *)
Definition line_of (prev r : DataRow.t) : list (tm * float) :=
  if time_of r =? time_of prev then []
  else [(DataRow.getDateTime r,
         (3600 * distanceEarth (DataRow.getLat prev) (DataRow.getLon prev)
                               (DataRow.getLat r) (DataRow.getLon r)
          / double_of_Z (time_of r - time_of prev))%float)].

(** The lines for the rows [rest] that follow the row [prev]. *)
Fixpoint speed_lines (prev : DataRow.t) (rest : list DataRow.t) : list (tm * float) :=
  match rest with
  | [] => []
  | r :: rest' => line_of prev r ++ speed_lines r rest'
  end.

End SpeedLines.

(** * Properties *)

Section Conversion.
Context `{Clock}.

Lemma getTimeValue_convertible (t : tm) :
  convertible t -> getTimeValue t = Ret (mktime t).
Proof.
  unfold convertible, getTimeValue. intros Hc.
  destruct (Z.eqb_spec (mktime t) (-1)); [contradiction | reflexivity].
Qed.

Lemma getTimeValue_value (t : tm) (z : Z) :
  mktime t = z -> z <> -1 -> getTimeValue t = Ret z.
Proof. intros <- Hz. now apply getTimeValue_convertible. Qed.

End Conversion.

Ltac run_merge :=
  unfold merge, merge_loop, merge_select, consider, vec_at, deref, size, merge_tails;
  repeat (progress (simpl;
    repeat match goal with
           | Ht : mktime ?t = _ |- context [getTimeValue ?t] =>
               rewrite (getTimeValue_value _ _ Ht) by lia
           end)).

(** ** merge *)

Section MergeFacts.
Context `{Clock}.

Lemma consider_nonempty (l : list TIMEPAIR) (back x : TIMEPAIR) :
  convertible back.2 -> convertible x.1 -> convertible x.2 ->
  consider (l ++ [back]) x =
    Ret (if mktime back.2 <? mktime x.1 then l ++ [back; x]
         else l ++ [(back.1, if mktime back.2 <? mktime x.2 then x.2 else back.2)]).
Proof.
  intros Hb Hx1 Hx2. unfold consider. rewrite last_snoc.
  rewrite !(getTimeValue_convertible _ Hb), (getTimeValue_convertible _ Hx1).
  cbn [bind]. destruct (mktime back.2 <? mktime x.1).
  - now rewrite <- app_assoc.
  - rewrite (getTimeValue_convertible _ Hx2). cbn [bind].
    rewrite removelast_last.
    destruct (mktime back.2 <? mktime x.2); [reflexivity |].
    now destruct back.
Qed.

Lemma merge_loop_done (fuel : nat) (v1 v2 : list TIMEPAIR) (s : merge_vars) :
  (idx1 s <=? size v1) && (idx2 s <=? size v2) = false ->
  merge_loop fuel v1 v2 s = Ret s.
Proof. destruct fuel; simpl; intros ->; reflexivity. Qed.

(** Merging with an empty second list gives the first list back, when the
    first list is not empty. *)
Lemma merge_nil_r (x : list TIMEPAIR) : x <> [] -> merge x [] = Ret x.
Proof.
  destruct x as [|a x]; [congruence | intros _].
  unfold merge. cbn [length Nat.add merge_loop].
  unfold merge_select, size. cbn [length idx1 idx2].
  replace (0 <=? Z.of_nat (S (length x))) with true by (symmetry; apply Z.leb_le; lia).
  replace (0 =? Z.of_nat (S (length x))) with false by (symmetry; apply Z.eqb_neq; lia).
  rewrite andb_false_r. simpl.
  rewrite merge_loop_done by (simpl; apply andb_false_r).
  simpl. unfold merge_tails, size. simpl. change (0 + 1) with 1.
  destruct (Z.ltb_spec 1 (Z.of_nat (S (length x)))); [reflexivity|].
  destruct x; [reflexivity | simpl in *; lia].
Qed.

End MergeFacts.

(** C6. Touching intervals are coalesced and intervals with a gap are kept
    apart: [10,20] merged with [20,30] is [10,30]; [10,19] merged with
    [20,30] is the two intervals unchanged; and an interval considered by the
    loop is appended as a separate one exactly when the last interval of the
    output ends strictly before it starts -- otherwise it is folded into that
    last interval, whose end becomes the later of the two ends.  (The first
    interval considered finds the output empty and is appended.) *)
Theorem merge_touching_and_gap `{Clock} :
  (forall a b c d : tm,
      mktime a = 10 -> mktime b = 20 -> mktime c = 20 -> mktime d = 30 ->
      merge [(a, b)] [(c, d)] = Ret [(a, d)]) /\
  (forall a b c d : tm,
      mktime a = 10 -> mktime b = 19 -> mktime c = 20 -> mktime d = 30 ->
      merge [(a, b)] [(c, d)] = Ret [(a, b); (c, d)]) /\
  (forall (merged : list TIMEPAIR) (back x : TIMEPAIR),
      last merged = Some back ->
      convertible back.2 -> convertible x.1 -> convertible x.2 ->
      (consider merged x = Ret (merged ++ [x]) <-> mktime back.2 < mktime x.1) /\
      (mktime x.1 <= mktime back.2 ->
       consider merged x =
         Ret (removelast merged ++
              [(back.1, if mktime back.2 <? mktime x.2 then x.2 else back.2)]))) /\
  (forall x : TIMEPAIR, consider [] x = Ret [x]).
Proof.
  split; [| split; [| split; [| reflexivity]]].
  - intros a b c d Ha Hb Hc Hd. run_merge. reflexivity.
  - intros a b c d Ha Hb Hc Hd. run_merge. reflexivity.
  - intros merged back x Hlast Hb Hx1 Hx2.
    apply last_Some in Hlast as [l ->].
    rewrite (consider_nonempty l back x Hb Hx1 Hx2), removelast_last.
    destruct (Z.ltb_spec (mktime back.2) (mktime x.1)) as [Hlt | Hge].
    + split; [| lia]. split; [intros _; exact Hlt | intros _].
      now rewrite <- app_assoc.
    + split; [| reflexivity]. split; [| lia].
      intros Heq. injection Heq as Heq.
      apply (f_equal length) in Heq. rewrite !length_app in Heq.
      simpl in Heq. lia.
Qed.

Lemma merge_touching_and_gap_witness :
  @merge epoch_clock [(10, 20)] [(20, 30)] = Ret [(10, 30)] /\
  @merge epoch_clock [(10, 19)] [(20, 30)] = Ret [(10, 19); (20, 30)] /\
  (@consider epoch_clock [(1, 5)] (7, 9) = Ret [(1, 5); (7, 9)] <-> 5 < 7) /\
  @consider epoch_clock [(1, 5)] (5, 9) = Ret [(1, 9)].
Proof.
  destruct (@merge_touching_and_gap epoch_clock) as (Htouch & Hgap & Hstep & _).
  split; [apply Htouch; reflexivity |].
  split; [apply Hgap; reflexivity |].
  split.
  - apply (Hstep [(1, 5)] (1, 5) (7, 9)); [reflexivity | | |];
      unfold convertible; simpl; lia.
  - apply (Hstep [(1, 5)] (1, 5) (5, 9)); [reflexivity | | | |];
      unfold convertible; simpl; lia.
Defined.

Ltac concrete_separated :=
  unfold separated, well_formed, convertible, starts_before; simpl;
  split; [repeat constructor; simpl; lia |];
  split; [repeat constructor; simpl; lia |];
  let Hij := fresh in let Hi := fresh in let Hj := fresh in
  intros [|[|[|i]]] [|[|[|j]]] a b Hij Hi Hj; simpl in Hi, Hj;
  try lia; try discriminate;
  injection Hi as <-; injection Hj as <-;
  unfold overlap_or_touch; simpl; lia.

(** C1. The intervals left in one list when the other runs out are inserted
    without being compared with the output: of [0,100] and [1,2], [3,4], both
    sorted and free of overlaps, [merge] returns [0,100], [3,4], in which the
    second interval lies inside the first. *)
Theorem merge_tail_left_uncoalesced :
  @separated epoch_clock [(0, 100)] /\
  @separated epoch_clock [(1, 2); (3, 4)] /\
  @merge epoch_clock [(0, 100)] [(1, 2); (3, 4)] = Ret [(0, 100); (3, 4)] /\
  @overlap_or_touch epoch_clock (0, 100) (3, 4) /\
  ~ @separated epoch_clock [(0, 100); (3, 4)].
Proof.
  split; [concrete_separated |].
  split; [concrete_separated |].
  split; [reflexivity |].
  assert (Hov : @overlap_or_touch epoch_clock (0, 100) (3, 4))
    by (unfold overlap_or_touch; simpl; lia).
  split; [exact Hov |].
  intros (_ & _ & Hno).
  exact (Hno 0%nat 1%nat (0, 100) (3, 4) ltac:(lia) eq_refl eq_refl Hov).
Qed.

(** C7. Two of the three laws fail on the empty list, where [merge] reads
    position 0 of an empty vector, and the third fails because of the tail
    that is inserted as it is: [5,100] merged with [5,6], [7,8] is [5,100],
    but [5,6], [7,8] merged with [5,100] is [5,100], [7,8]. *)
Theorem merge_laws_broken :
  (forall K : Clock, @merge K [] [] = Fail OutOfRange) /\
  @separated epoch_clock [(5, 100)] /\
  @separated epoch_clock [(5, 6); (7, 8)] /\
  @merge epoch_clock [(5, 100)] [(5, 6); (7, 8)] = Ret [(5, 100)] /\
  @merge epoch_clock [(5, 6); (7, 8)] [(5, 100)] = Ret [(5, 100); (7, 8)].
Proof.
  split; [intros K; reflexivity |].
  split; [concrete_separated |].
  split; [concrete_separated |].
  split; reflexivity.
Qed.

(** ** Cell::getTimeSegments *)

Section SegmentFacts.
Context `{Clock}.

Lemma vec_at_lookup {A : Type} (v : list A) (i : Z) (x : A) :
  0 <= i -> v !! Z.to_nat i = Some x -> vec_at v i = Ret x.
Proof.
  intros Hi Hx. unfold vec_at.
  destruct (Z.ltb_spec i 0); [lia |]. now rewrite Hx.
Qed.

Lemma vec_at_nat {A : Type} (v : list A) (n : nat) (x : A) :
  v !! n = Some x -> vec_at v (Z.of_nat n) = Ret x.
Proof.
  intros Hx. apply vec_at_lookup; [lia |]. now rewrite Nat2Z.id.
Qed.

Lemma vec_at_Ret {A : Type} (v : list A) (i : Z) (x : A) :
  vec_at v i = Ret x -> 0 <= i < size v /\ v !! Z.to_nat i = Some x.
Proof.
  unfold vec_at, size. destruct (Z.ltb_spec i 0); [discriminate |].
  destruct (v !! Z.to_nat i) eqn:Hl; [| discriminate].
  intros [= ->]. apply lookup_lt_Some in Hl as Hlt. split; [lia | reflexivity].
Qed.

Lemma isWithinInterval_value (c : Cell.t) (i j interval : Z) (ri rj : DataRow.t) :
  0 <= interval -> 0 <= i -> 0 <= j ->
  Cell.rowList_ c !! Z.to_nat i = Some ri ->
  Cell.rowList_ c !! Z.to_nat j = Some rj ->
  convertible (DataRow.getDateTime ri) ->
  convertible (DataRow.getDateTime rj) ->
  Cell.isWithinInterval c i j interval =
    Ret (mktime (DataRow.getDateTime rj) - mktime (DataRow.getDateTime ri) <=? interval).
Proof.
  intros Hint Hi Hj Hri Hrj Hci Hcj. unfold Cell.isWithinInterval, size.
  apply lookup_lt_Some in Hri as Hli. apply lookup_lt_Some in Hrj as Hlj.
  destruct (Z.ltb_spec i 0); [lia |]. destruct (Z.ltb_spec j 0); [lia |].
  destruct (Z.leb_spec (Z.of_nat (length (Cell.rowList_ c))) i); [lia |].
  destruct (Z.leb_spec (Z.of_nat (length (Cell.rowList_ c))) j); [lia |].
  destruct (Z.ltb_spec interval 0); [lia |]. cbn [orb].
  rewrite (vec_at_lookup _ _ _ Hj Hrj), (vec_at_lookup _ _ _ Hi Hri). cbn [bind].
  now rewrite (getTimeValue_convertible _ Hcj), (getTimeValue_convertible _ Hci).
Qed.

(** The scan loop from event [length prefix] on computes what
    [segment_from] describes. *)
Lemma segment_loop_refines (c : Cell.t) (interval : Z) :
  0 <= interval ->
  all_convertible (Cell.rowList_ c) ->
  forall (suffix prefix : list DataRow.t) (s : Cell.segment_vars) (rl rh : DataRow.t),
    Cell.rowList_ c = prefix ++ suffix ->
    0 <= Cell.low s -> 
    Cell.high s = Z.of_nat (length prefix) - 1 ->
    Cell.rowList_ c !! Z.to_nat (Cell.low s) = Some rl ->
    Cell.rowList_ c !! Z.to_nat (Cell.high s) = Some rh ->
    0 <= Cell.high s ->
    Cell.segment_first s = DataRow.getDateTime rl ->
    exists (s' : Cell.segment_vars) (rh' : DataRow.t),
      for_loop (Cell.segment_step c interval) (Z.of_nat (length prefix))
               (length suffix) s = Ret s' /\
      0 <= Cell.high s' /\
      Cell.rowList_ c !! Z.to_nat (Cell.high s') = Some rh' /\
      Cell.segmentList s' ++ [(Cell.segment_first s', DataRow.getDateTime rh')] =
        Cell.segmentList s ++
          segment_from interval (Cell.segment_first s) (DataRow.getDateTime rh)
                       (timestamps suffix).
Proof.
  intros Hint Hconv suffix.
  induction suffix as [| r suffix IH]; intros prefix s rl rh Hrows Hlow Hhigh Hrl Hrh Hh0 Hfirst.
  - exists s, rh. simpl. auto.
  - assert (Hri : Cell.rowList_ c !! length prefix = Some r).
    { rewrite Hrows. now rewrite list_lookup_middle. }
    assert (Hall : forall k x, Cell.rowList_ c !! k = Some x ->
                               convertible (DataRow.getDateTime x)).
    { intros k x Hk. exact (proj1 (Forall_lookup _ _) Hconv k x Hk). }
    cbn [length for_loop]. unfold Cell.segment_step at 1.
    rewrite (isWithinInterval_value c (Cell.low s) (Z.of_nat (length prefix))
               interval rl r); eauto; try lia.
    2:{ now rewrite Nat2Z.id. }
    cbn [bind].
    destruct (mktime (DataRow.getDateTime r) - mktime (DataRow.getDateTime rl) <=? interval)
      eqn:Hwithin; cbn [negb].
    + cbn [bind].
      destruct (IH (prefix ++ [r])
                   (Cell.SegVars (Cell.segmentList s) (Cell.segment_first s)
                                 (Cell.low s) (Z.of_nat (length prefix))) rl r)
        as (s' & rh' & Hloop & Hh' & Hrh' & Hsegs); cbn [Cell.low Cell.high Cell.segment_first Cell.segmentList];
        try assumption; try lia.
      * now rewrite <- app_assoc.
      * rewrite length_app. simpl. lia.
      * now rewrite Nat2Z.id.
      * exists s', rh'. rewrite length_app in Hloop. simpl in Hloop.
        replace (Z.of_nat (length prefix) + 1) with (Z.of_nat (length prefix + 1)) by lia.
        rewrite Hloop. repeat split; try assumption.
        rewrite Hsegs. simpl. rewrite Hfirst, Hwithin. reflexivity.
    + rewrite (vec_at_lookup _ _ _ Hh0 Hrh), (vec_at_nat _ _ _ Hri). cbn [bind].
      destruct (IH (prefix ++ [r])
                   (Cell.SegVars (Cell.segmentList s ++ [(Cell.segment_first s, DataRow.getDateTime rh)])
                                 (DataRow.getDateTime r)
                                 (Z.of_nat (length prefix)) (Z.of_nat (length prefix))) r r)
        as (s' & rh' & Hloop & Hh' & Hrh' & Hsegs); cbn [Cell.low Cell.high Cell.segment_first Cell.segmentList];
        try assumption; try lia; try reflexivity.
      * now rewrite <- app_assoc.
      * rewrite length_app. simpl. lia.
      * now rewrite Nat2Z.id.
      * now rewrite Nat2Z.id.
      * exists s', rh'. rewrite length_app in Hloop. simpl in Hloop.
        replace (Z.of_nat (length prefix) + 1) with (Z.of_nat (length prefix + 1)) by lia.
        rewrite Hloop. repeat split; try assumption.
        rewrite Hsegs. simpl. rewrite Hfirst, Hwithin.
        now rewrite <- app_assoc.
Qed.

Lemma getTimeSegments_spec (c : Cell.t) (interval : Z) :
  Cell.rowList_ c <> [] ->
  all_convertible (Cell.rowList_ c) ->
  0 <= interval ->
  Cell.getTimeSegments c interval =
    Ret (segment_spec interval (timestamps (Cell.rowList_ c))).
Proof.
  intros Hne Hconv Hint.
  destruct (Cell.rowList_ c) as [| r0 rest] eqn:Hrows; [congruence |].
  unfold Cell.getTimeSegments. rewrite Hrows.
  change (vec_at (r0 :: rest) 0) with (Ret r0). cbn [bind length for_loop].
  rewrite <- Hrows. unfold Cell.segment_step at 1. cbn [Cell.low].
  assert (Hr0 : Cell.rowList_ c !! Z.to_nat 0 = Some r0) by now rewrite Hrows.
  assert (Hc0 : convertible (DataRow.getDateTime r0)).
  { now inversion Hconv. }
  rewrite (isWithinInterval_value c 0 0 interval r0 r0); try assumption; try lia.
  rewrite Z.sub_diag. destruct (Z.leb_spec 0 interval); [| lia]. cbn [bind negb].
  rewrite <- Hrows in Hconv.
  destruct (segment_loop_refines c interval Hint Hconv rest [r0]
              (Cell.SegVars [] (DataRow.getDateTime r0) 0 0) r0 r0)
    as (s' & rh' & Hloop & Hh' & Hrh' & Hsegs);
    cbn [Cell.low Cell.high Cell.segment_first Cell.segmentList length];
    try assumption; try lia; try reflexivity.
  change (0 + 1) with (Z.of_nat (length [r0])).
  rewrite Hloop. cbn [bind]. rewrite (vec_at_lookup _ _ _ Hh' Hrh'). cbn [bind].
  rewrite Hsegs, Hrows. reflexivity.
Qed.

(** C3. With a non-negative threshold and at least one event, what
    [getTimeSegments] returns is the segmentation the specification words:
    an event stays in the interval in progress iff it is at most the
    threshold later than the event that opened it; otherwise the interval is
    closed at the previous event and a new one opened at this event; the last
    interval is closed at the last event.  One event alone gives one interval
    whose start and end are that event. *)
Theorem getTimeSegments_refines (c : Cell.t) (interval : Z) :
  Cell.rowList_ c <> [] ->
  all_convertible (Cell.rowList_ c) ->
  0 <= interval ->
  Cell.getTimeSegments c interval =
    Ret (segment_spec interval (timestamps (Cell.rowList_ c))) /\
  (forall r : DataRow.t,
      Cell.rowList_ c = [r] ->
      Cell.getTimeSegments c interval =
        Ret [(DataRow.getDateTime r, DataRow.getDateTime r)]).
Proof.
  intros Hne Hconv Hint.
  pose proof (getTimeSegments_spec c interval Hne Hconv Hint) as Hspec.
  split; [exact Hspec |].
  intros r Hr. rewrite Hspec, Hr. reflexivity.
Qed.

End SegmentFacts.

Lemma getTimeSegments_refines_witness :
  Cell.getTimeSegments cell_A 100 =
    Ret (segment_spec 100 (timestamps (Cell.rowList_ cell_A))) /\
  Cell.getTimeSegments cell_A 100 = Ret (spans [(0, 80); (120, 160)]) /\
  (forall r : DataRow.t,
      Cell.rowList_ (Cell.mk "B" [row_at 7 "B"]) = [r] ->
      Cell.getTimeSegments (Cell.mk "B" [row_at 7 "B"]) 0 =
        Ret [(DataRow.getDateTime r, DataRow.getDateTime r)]).
Proof.
  assert (Hdates : all_convertible (Cell.rowList_ cell_A))
    by (repeat constructor; discriminate).
  split; [| split].
  - apply (getTimeSegments_refines cell_A 100); [discriminate | exact Hdates | lia].
  - rewrite (proj1 (getTimeSegments_refines cell_A 100 ltac:(discriminate) Hdates
                      ltac:(lia))).
    reflexivity.
  - apply (getTimeSegments_refines (Cell.mk "B" [row_at 7 "B"]) 0);
      [discriminate | | lia].
    repeat constructor; discriminate.
Defined.

Section Coverage.
Context `{Clock}.

Lemma segment_from_head (gap : Z) (rest : list tm) :
  forall start prev : tm,
    exists (e : tm) (tl : list TIMEPAIR),
      segment_from gap start prev rest = (start, e) :: tl.
Proof.
  induction rest as [| t rest IH]; intros start prev; simpl.
  - eauto.
  - destruct (mktime t - mktime start <=? gap); eauto.
Qed.

Lemma holders_cons (z : Z) (p : TIMEPAIR) (segs : list TIMEPAIR) :
  holders z (p :: segs) = if holds z p then p :: holders z segs else holders z segs.
Proof. reflexivity. Qed.

Lemma holders_none (z : Z) (segs : list TIMEPAIR) :
  Forall (fun p => z < mktime p.1) segs -> holders z segs = [].
Proof.
  induction 1 as [| p segs Hp _ IH]; [reflexivity |].
  unfold holders in *. simpl. unfold holds at 1.
  destruct (Z.leb_spec (mktime p.1) z); [lia |]. exact IH.
Qed.

(** What [segment_from] builds from events in ascending order: intervals in
    ascending order of start, none starting before [start] or ending before
    it starts, and each event in exactly one of them. *)
Lemma segment_from_sound (gap : Z) (rest : list tm) :
  0 <= gap ->
  forall start prev : tm,
    mktime start <= mktime prev ->
    mktime prev - mktime start <= gap ->
    StronglySorted Z.le (mktime prev :: map mktime rest) ->
    let segs := segment_from gap start prev rest in
    Sorted starts_before segs /\
    Forall (fun p => mktime start <= mktime p.1 /\ mktime p.1 <= mktime p.2) segs /\
    (forall z, mktime start <= z <= mktime prev -> length (holders z segs) = 1%nat) /\
    Forall (fun t => length (holders (mktime t) segs) = 1%nat) rest.
Proof.
  intros Hgap. induction rest as [| t rest IH]; intros start prev Hsp Hwin Hsorted; simpl.
  - split; [repeat constructor |].
    split; [repeat constructor; simpl; lia |].
    split; [| constructor].
    intros z Hz. unfold holders, holds. simpl.
    destruct (Z.leb_spec (mktime start) z); [| lia].
    destruct (Z.leb_spec z (mktime prev)); [reflexivity | lia].
  - apply StronglySorted_inv in Hsorted as [Hsorted Hprev].
    simpl in Hprev. apply Forall_cons in Hprev as [Hpt Hprest].
    destruct (Z.leb_spec (mktime t - mktime start) gap) as [Hin | Hout].
    + destruct (IH start t) as (Hs & Hwf & Hcov & Hrest); try assumption; try lia.
      split; [exact Hs |]. split; [exact Hwf |].
      split; [intros z Hz; apply Hcov; lia |].
      constructor; [apply Hcov; lia | exact Hrest].
    + destruct (IH t t) as (Hs & Hwf & Hcov & Hrest); try assumption; try lia.
      destruct (segment_from_head gap rest t t) as (e & tl & Heq).
      rewrite Heq in *.
      assert (Hlater : Forall (fun p : TIMEPAIR => mktime prev < mktime p.1) ((t, e) :: tl)).
      { eapply Forall_impl; [exact Hwf |]. simpl. intros p [Hp _]. lia. }
      split; [constructor; [exact Hs | constructor; unfold starts_before; simpl; lia] |].
      split.
      { constructor; [simpl; lia |].
        eapply Forall_impl; [exact Hwf |]. simpl. intros p [Hp1 Hp2]. lia. }
      assert (Hout_head : forall z, mktime t <= z -> holds z (start, prev) = false).
      { intros z Hz. unfold holds. simpl.
        destruct (Z.leb_spec z (mktime prev)); [lia | apply andb_false_r]. }
      split.
      * intros z Hz. rewrite holders_cons, holders_none.
        2:{ eapply Forall_impl; [exact Hlater |]. simpl. intros p Hp. lia. }
        unfold holds. simpl.
        destruct (Z.leb_spec (mktime start) z); [| lia].
        destruct (Z.leb_spec z (mktime prev)); [reflexivity | lia].
      * constructor.
        -- rewrite holders_cons, Hout_head by lia. apply Hcov. lia.
        -- apply Forall_forall. intros t' Ht'.
           rewrite Forall_forall in Hrest. specialize (Hrest t' Ht').
           rewrite holders_cons, Hout_head; [exact Hrest |].
           apply StronglySorted_inv in Hsorted as [_ Hall].
           rewrite Forall_forall in Hall. apply Hall.
           apply list_elem_of_In. apply in_map. now apply list_elem_of_In.
Qed.

(** C2. For a cell with at least one event, events in ascending order of
    time and a non-negative threshold, [getTimeSegments] returns intervals
    in ascending order of start, each ending no earlier than it starts, and
    the time of every event lies in exactly one of them. *)
Theorem getTimeSegments_covers (c : Cell.t) (interval : Z) :
  Cell.rowList_ c <> [] ->
  all_convertible (Cell.rowList_ c) ->
  sorted_by_time (Cell.rowList_ c) ->
  0 <= interval ->
  exists segs : list TIMEPAIR,
    Cell.getTimeSegments c interval = Ret segs /\
    Sorted starts_before segs /\
    Forall (fun p => mktime p.1 <= mktime p.2) segs /\
    Forall (fun r => length (holders (mktime (DataRow.getDateTime r)) segs) = 1%nat)
           (Cell.rowList_ c).
Proof.
  intros Hne Hconv Hsorted Hint.
  exists (segment_spec interval (timestamps (Cell.rowList_ c))).
  split; [now apply getTimeSegments_spec |].
  destruct (Cell.rowList_ c) as [| r0 rest]; [congruence |].
  unfold sorted_by_time in Hsorted. simpl in Hsorted |- *.
  apply Sorted_StronglySorted in Hsorted; [| intros x y z; lia].
  destruct (segment_from_sound interval (timestamps rest) Hint
              (DataRow.getDateTime r0) (DataRow.getDateTime r0))
    as (Hs & Hwf & Hcov & Hrest); try lia; try assumption.
  split; [exact Hs |].
  split; [eapply Forall_impl; [exact Hwf |]; simpl; intros p [_ Hp]; exact Hp |].
  constructor; [apply Hcov; lia |].
  unfold timestamps in Hrest. rewrite Forall_forall in Hrest.
  apply Forall_forall. intros r Hr. apply Hrest.
  apply list_elem_of_In. apply in_map. now apply list_elem_of_In.
Qed.

End Coverage.

Lemma getTimeSegments_covers_witness :
  exists segs : list (@TIMEPAIR epoch_clock),
    Cell.getTimeSegments cell_A 100 = Ret segs /\
    Sorted starts_before segs /\
    Forall (fun p => mktime p.1 <= mktime p.2) segs /\
    Forall (fun r => length (holders (mktime (DataRow.getDateTime r)) segs) = 1%nat)
           (Cell.rowList_ cell_A).
Proof.
  apply (getTimeSegments_covers cell_A 100); [discriminate | | | lia].
  - repeat constructor; discriminate.
  - unfold sorted_by_time. simpl. repeat constructor; lia.
Defined.

(** ** The activity ranking *)

Section Ranking.

Lemma select_None (q : PriorityQueue.t) : PriorityQueue.select q = None -> q = [].
Proof.
  destruct q as [| x q]; [reflexivity |]. simpl.
  destruct (PriorityQueue.select q) as [[m rest] |]; [| discriminate].
  destruct (compareBySecondValue x m); discriminate.
Qed.

Lemma select_Some (q : PriorityQueue.t) :
  forall (m : PAIR) (rest : PriorityQueue.t),
    PriorityQueue.select q = Some (m, rest) ->
    Permutation q (m :: rest) /\ Forall (fun x => x.2 <= m.2) q.
Proof.
  induction q as [| x q IH]; intros m rest; simpl; [discriminate |].
  destruct (PriorityQueue.select q) as [[m' rest'] |] eqn:Hsel.
  - destruct (IH m' rest' eq_refl) as [Hperm Hmax].
    unfold compareBySecondValue.
    destruct (Z.ltb_spec x.2 m'.2) as [Hlt | Hge]; intros [= <- <-].
    + split.
      * rewrite Hperm. apply perm_swap.
      * constructor; [lia | exact Hmax].
    + split; [reflexivity |].
      constructor; [lia |].
      eapply Forall_impl; [exact Hmax |]. simpl. intros y Hy. lia.
  - intros [= <- <-]. apply select_None in Hsel as ->.
    split; [reflexivity | repeat constructor; lia].
Qed.

Lemma pop_all_sorts (fuel : nat) :
  forall q : PriorityQueue.t,
    (length q <= fuel)%nat ->
    Permutation (PriorityQueue.pop_all fuel q) q /\
    StronglySorted by_count_descending (PriorityQueue.pop_all fuel q).
Proof.
  induction fuel as [| fuel IH]; intros q Hlen.
  - destruct q; [| simpl in Hlen; lia]. split; [reflexivity | constructor].
  - simpl. unfold PriorityQueue.top, PriorityQueue.pop.
    destruct (PriorityQueue.select q) as [[m rest] |] eqn:Hsel; simpl.
    + destruct (select_Some q m rest Hsel) as [Hperm Hmax].
      assert (Hlen' : (length rest <= fuel)%nat).
      { apply Permutation_length in Hperm. simpl in Hperm. lia. }
      destruct (IH rest Hlen') as [Hp Hs].
      split; [now rewrite Hp, Hperm |].
      constructor; [exact Hs |].
      rewrite Hp. rewrite Hperm in Hmax.
      apply Forall_cons in Hmax as [_ Hmax]. exact Hmax.
    + apply select_None in Hsel as ->. split; [reflexivity | constructor].
Qed.

End Ranking.

Lemma popped_three (q : PriorityQueue.t) :
  Permutation q [("A", 50); ("B", 30); ("C", 80)] ->
  PriorityQueue.popped q = [("C", 80); ("A", 50); ("B", 30)].
Proof.
  intros Hq. symmetry in Hq. apply permutations_Permutation in Hq.
  cbv [permutations interleave fmap list_fmap mbind list_bind app] in Hq.
  repeat (apply elem_of_cons in Hq as [-> | Hq]; [reflexivity |]).
  now apply elem_of_nil in Hq.
Qed.

(** ** Cells are never empty *)

Section CellsNonEmpty.
Context `{Clock}.

Lemma bind_Ret {A B : Type} (m : outcome A) (k : A -> outcome B) (b : B) :
  bind m k = Ret b -> exists a, m = Ret a /\ k a = Ret b.
Proof. destruct m as [a | f]; simpl; [eauto | discriminate]. Qed.

Lemma bind_avoids {A B : Type} (e : failure) (m : outcome A) (k : A -> outcome B) :
  m <> Fail e ->
  (forall a, m = Ret a -> k a <> Fail e) ->
  bind m k <> Fail e.
Proof.
  destruct m as [a | f]; simpl; [intros _ Hk; now apply Hk |].
  intros Hm _ [= ->]. now apply Hm.
Qed.

Lemma bind_in_range {A B : Type} (m : outcome A) (k : A -> outcome B) :
  m <> Fail OutOfRange ->
  (forall a, m = Ret a -> k a <> Fail OutOfRange) ->
  bind m k <> Fail OutOfRange.
Proof. apply bind_avoids. Qed.

Lemma getTimeValue_in_range (t : tm) : getTimeValue t <> Fail OutOfRange.
Proof. unfold getTimeValue. destruct (mktime t =? -1); discriminate. Qed.

Lemma vec_at_in_range {A : Type} (v : list A) (i : Z) :
  0 <= i < size v -> exists x, vec_at v i = Ret x.
Proof.
  intros [Hi Hlt]. unfold size in Hlt.
  destruct (lookup_lt_is_Some_2 v (Z.to_nat i)) as [x Hx]; [lia |].
  exists x. now apply vec_at_lookup.
Qed.

Lemma isWithinInterval_in_range (c : Cell.t) (i j interval : Z) :
  Cell.isWithinInterval c i j interval <> Fail OutOfRange.
Proof.
  unfold Cell.isWithinInterval.
  destruct (Z.ltb_spec i 0); [discriminate |].
  destruct (Z.ltb_spec j 0); [discriminate |].
  destruct (Z.leb_spec (size (Cell.rowList_ c)) i); [discriminate |].
  destruct (Z.leb_spec (size (Cell.rowList_ c)) j); [discriminate |].
  cbn [orb]. destruct (interval <? 0); [discriminate |].
  destruct (vec_at_in_range (Cell.rowList_ c) j) as [rj ->]; [lia |].
  destruct (vec_at_in_range (Cell.rowList_ c) i) as [ri ->]; [lia |].
  cbn [bind].
  apply bind_in_range; [apply getTimeValue_in_range | intros tj _].
  apply bind_in_range; [apply getTimeValue_in_range | intros ti _].
  discriminate.
Qed.

Lemma segment_loop_in_range (c : Cell.t) (interval : Z) (n : nat) :
  forall (i : Z) (s : Cell.segment_vars),
    0 <= i -> i + Z.of_nat n <= size (Cell.rowList_ c) ->
    0 <= Cell.high s < size (Cell.rowList_ c) ->
    for_loop (Cell.segment_step c interval) i n s <> Fail OutOfRange /\
    forall s', for_loop (Cell.segment_step c interval) i n s = Ret s' ->
               0 <= Cell.high s' < size (Cell.rowList_ c).
Proof.
  induction n as [| n IH]; intros i s Hi Hn Hh; cbn [for_loop].
  - split; [discriminate | now intros s' [= <-]].
  - assert (Hstep : Cell.segment_step c interval i s <> Fail OutOfRange /\
                    forall s1, Cell.segment_step c interval i s = Ret s1 -> Cell.high s1 = i).
    { unfold Cell.segment_step.
      pose proof (isWithinInterval_in_range c (Cell.low s) i interval) as Hw.
      destruct (Cell.isWithinInterval c (Cell.low s) i interval) as [b | f];
        cbn [bind]; [| split; [intros [= ->]; now apply Hw | discriminate]].
      destruct b; cbn [negb].
      - split; [discriminate | now intros s1 [= <-]].
      - destruct (vec_at_in_range (Cell.rowList_ c) (Cell.high s)) as [rh ->]; [lia |].
        destruct (vec_at_in_range (Cell.rowList_ c) i) as [ri ->]; [lia |].
        cbn [bind]. split; [discriminate | now intros s1 [= <-]]. }
    destruct Hstep as [Hsafe Hhigh].
    destruct (Cell.segment_step c interval i s) as [s1 | f] eqn:Hs1; cbn [bind].
    + apply IH; [lia | lia |]. rewrite (Hhigh s1 eq_refl). lia.
    + split; [exact Hsafe | discriminate].
Qed.

(** A cell with at least one row is segmented without any read outside its
    rows. *)
Lemma getTimeSegments_in_range (c : Cell.t) (interval : Z) :
  Cell.rowList_ c <> [] -> Cell.getTimeSegments c interval <> Fail OutOfRange.
Proof.
  intros Hne. unfold Cell.getTimeSegments.
  assert (Hsize : 0 < size (Cell.rowList_ c)).
  { unfold size. destruct (Cell.rowList_ c); [congruence | simpl; lia]. }
  destruct (vec_at_in_range (Cell.rowList_ c) 0) as [r0 ->]; [lia |]. cbn [bind].
  destruct (segment_loop_in_range c interval (length (Cell.rowList_ c)) 0
              (Cell.SegVars [] (DataRow.getDateTime r0) 0 0)) as [Hsafe Hhigh];
    [lia | unfold size; lia | simpl; lia |].
  apply bind_in_range; [exact Hsafe | intros s' Hs'].
  destruct (vec_at_in_range (Cell.rowList_ c) (Cell.high s')) as [rh ->];
    [now apply Hhigh |].
  discriminate.
Qed.

Lemma sort_insert_Permutation (x : DataRow.t) (l : list DataRow.t) :
  forall r, User.sort_insert x l = Ret r -> Permutation r (x :: l).
Proof.
  induction l as [| y l IH]; intros r; simpl.
  - now intros [= <-].
  - intros Hr. apply bind_Ret in Hr as (before & _ & Hr).
    destruct before; [now injection Hr as <- |].
    apply bind_Ret in Hr as (r' & Hr' & [= <-]).
    rewrite (IH r' Hr'). apply perm_swap.
Qed.

Lemma sort_Permutation (l : list DataRow.t) :
  forall r, User.sort l = Ret r -> Permutation r l.
Proof.
  induction l as [| x l IH]; intros r; simpl.
  - now intros [= <-].
  - intros Hr. apply bind_Ret in Hr as (s & Hs & Hr).
    rewrite (sort_insert_Permutation _ _ _ Hr). now rewrite (IH s Hs).
Qed.

Lemma sort_in_range (l : list DataRow.t) : User.sort l <> Fail OutOfRange.
Proof.
  assert (Hins : forall x l, User.sort_insert x l <> Fail OutOfRange).
  { intros x l'. induction l' as [| y l' IH]; simpl; [discriminate |].
    apply bind_in_range.
    - unfold DataRow.compareByTime.
      apply bind_in_range; [apply getTimeValue_in_range | intros ta _].
      apply bind_in_range; [apply getTimeValue_in_range | intros tb _].
      discriminate.
    - intros [] _; [discriminate |].
      apply bind_in_range; [exact IH | discriminate]. }
  induction l as [| x l IH]; simpl; [discriminate |].
  apply bind_in_range; [exact IH | intros s _; apply Hins].
Qed.

Lemma addRow_ok (u : User.t) (d : DataRow.t) :
  cells_ok u -> exists u', User.addRow u d = Ret u' /\ cells_ok u'.
Proof.
  intros [Hne Hmap]. unfold User.addRow.
  destruct (User.cellMap_ u !! DataRow.getTag d) as [idx |] eqn:Hidx.
  - specialize (Hmap _ _ Hidx) as Hin.
    destruct (vec_at_in_range (User.cellList_ u) idx Hin) as [c Hc].
    rewrite Hc. cbn [bind]. eexists; split; [reflexivity |].
    split; cbn [User.cellList_ User.cellMap_].
    + apply Forall_insert; [exact Hne |].
      unfold Cell.addDataRow. cbn [Cell.rowList_].
      intros Heq. now apply app_eq_nil in Heq as [_ Heq].
    + intros tag i Hi. unfold size. rewrite length_insert. apply (Hmap tag i Hi).
  - eexists; split; [reflexivity |].
    split; cbn [User.cellList_ User.cellMap_].
    + apply Forall_app. split; [exact Hne |]. repeat constructor. discriminate.
    + intros tag i Hi. unfold size in *. rewrite length_app. cbn [length].
      destruct (decide (DataRow.getTag d = tag)) as [Heq | Hneq].
      * subst tag. rewrite lookup_insert_eq in Hi. injection Hi as <-.
        rewrite length_app. cbn [length]. lia.
      * rewrite lookup_insert_ne in Hi by exact Hneq.
        specialize (Hmap _ _ Hi). lia.
Qed.

Lemma reading_ok (records : list DataRow.t) :
  forall u, cells_ok u ->
            exists u', foldM User.addRow records u = Ret u' /\ cells_ok u'.
Proof.
  induction records as [| d records IH]; intros u Hu; cbn [foldM].
  - eauto.
  - destruct (addRow_ok u d Hu) as (u1 & -> & Hu1). cbn [bind]. now apply IH.
Qed.

Lemma reading_queue (records : list DataRow.t) :
  forall u u', foldM User.addRow records u = Ret u' ->
               User.cellQueue_ u' = User.cellQueue_ u.
Proof.
  induction records as [| d records IH]; intros u u'; cbn [foldM].
  - now intros [= <-].
  - intros Hr. apply bind_Ret in Hr as (u1 & Hu1 & Hr).
    rewrite (IH u1 u' Hr). unfold User.addRow in Hu1.
    destruct (User.cellMap_ u !! DataRow.getTag d).
    + now apply bind_Ret in Hu1 as (c & _ & [= <-]).
    + now injection Hu1 as <-.
Qed.

Lemma ranking_ok (cells : list Cell.t) :
  forall acc : list Cell.t * PriorityQueue.t,
    foldM User.rankAndSort cells acc <> Fail OutOfRange /\
    forall r, foldM User.rankAndSort cells acc = Ret r ->
              exists cells', r.1 = acc.1 ++ cells' /\
                             Forall2 reordered cells cells' /\
                             r.2 = acc.2 ++ map ranking_entry cells.
Proof.
  induction cells as [| c cells IH]; intros acc; cbn [foldM].
  - split; [discriminate |]. intros r [= <-]. exists [].
    rewrite !app_nil_r. repeat split. constructor.
  - unfold User.rankAndSort at 1 3.
    pose proof (sort_in_range (Cell.getRowList c)) as Hsafe.
    destruct (User.sort (Cell.getRowList c)) as [sorted | f] eqn:Hsort; cbn [bind].
    + destruct (IH (acc.1 ++ [Cell.mk (Cell.tag_ c) sorted],
                    PriorityQueue.push acc.2 (Cell.getName c, Cell.numConnections c)))
        as [Hok Hres].
      split; [exact Hok |]. intros r Hr.
      destruct (Hres r Hr) as (cells' & H1 & H2 & H3). cbn [fst snd] in H1, H3.
      exists (Cell.mk (Cell.tag_ c) sorted :: cells').
      split; [now rewrite H1, <- app_assoc |].
      split.
      * constructor; [| exact H2]. split; [reflexivity |].
        cbn [Cell.rowList_]. now apply sort_Permutation.
      * rewrite H3. unfold PriorityQueue.push. now rewrite <- app_assoc.
    + split; [intros [= ->]; now apply Hsafe | discriminate].
Qed.

Lemma reordered_entry (c c' : Cell.t) :
  reordered c c' -> ranking_entry c' = ranking_entry c.
Proof.
  intros [Htag Hperm]. unfold ranking_entry, Cell.getName, Cell.numConnections, size.
  now rewrite Htag, (Permutation_length Hperm).
Qed.

Lemma readFile_result (records : list DataRow.t) :
  User.readFile records <> Fail OutOfRange /\
  forall u, User.readFile records = Ret u ->
            cells_ok u /\
            User.cellQueue_ u = map ranking_entry (User.cellList_ u).
Proof.
  unfold User.readFile.
  destruct (reading_ok records (User.mk [] ∅ [] [])) as (u0 & Hread & Hne & Hmap).
  { split; [constructor |]. intros tag idx Hl. cbn in Hl.
    rewrite lookup_empty in Hl. discriminate. }
  rewrite Hread. cbn [bind].
  destruct (ranking_ok (User.cellList_ u0) ([], User.cellQueue_ u0)) as [Hsafe Hres].
  destruct (foldM User.rankAndSort (User.cellList_ u0) ([], User.cellQueue_ u0))
    as [cq | f] eqn:Hcq; cbn [bind].
  - destruct (Hres cq eq_refl) as (cells' & H1 & H2 & H3).
    cbn [fst snd app] in H1, H3.
    pose proof (sort_in_range (User.rowList_ u0)) as Hsort.
    destruct (User.sort (User.rowList_ u0)) as [rows | f]; cbn [bind].
    + split; [discriminate |]. intros u [= <-].
      cbn [User.cellList_ User.cellMap_ User.cellQueue_]. rewrite H1.
      split; [split |].
      * clear -H2 Hne. induction H2 as [| c c' cs cs' Hc _ IH]; [constructor |].
        apply Forall_cons in Hne as [Hc0 Hne]. constructor; [| now apply IH].
        destruct Hc as [_ Hperm]. intros Heq. rewrite Heq in Hperm.
        apply Permutation_nil in Hperm. congruence.
      * intros tag idx Hl. unfold size.
        pose proof (Forall2_length _ _ _ H2) as Hlen.
        specialize (Hmap tag idx Hl). unfold size in Hmap.
        cbn [User.cellList_]. lia.
      * rewrite H3.
        rewrite (reading_queue _ _ _ Hread). cbn [User.cellQueue_ app]. clear -H2.
        induction H2 as [| c c' cs cs' Hc _ IH]; [reflexivity |].
        cbn [map]. now rewrite IH, (reordered_entry _ _ Hc).
    + split; [intros [= ->]; now apply Hsort | discriminate].
  - split; [intros [= ->]; now apply Hsafe | discriminate].
Qed.

End CellsNonEmpty.

(** C9. A cell is created holding one row and [addDataRow] only adds rows
    to it, so no cell is empty while the file is read; sorting its rows, the
    one other change [readFile] makes to a cell, keeps them all.  Every cell
    of the user that [readFile] builds therefore has a first row, and
    [getTimeSegments] never reads outside the rows of such a cell. *)
Theorem cells_never_empty `{Clock} :
  (forall (r : DataRow.t) (tag : string), Cell.rowList_ (Cell.new r tag) = [r]) /\
  (forall (c : Cell.t) (d : DataRow.t),
      Cell.rowList_ (Cell.addDataRow c d) = Cell.rowList_ c ++ [d]) /\
  (forall records : list DataRow.t,
      exists u, foldM User.addRow records (User.mk [] ∅ [] []) = Ret u /\
                Forall (fun c => Cell.rowList_ c <> []) (User.cellList_ u)) /\
  (forall records : list DataRow.t, User.readFile records <> Fail OutOfRange) /\
  (forall (records : list DataRow.t) (u : User.t),
      User.readFile records = Ret u ->
      Forall (fun c => Cell.rowList_ c <> [] /\
                       forall interval : Z,
                         Cell.getTimeSegments c interval <> Fail OutOfRange)
             (User.cellList_ u)).
Proof.
  split; [reflexivity |]. split; [reflexivity |].
  split.
  { intros records.
    destruct (reading_ok records (User.mk [] ∅ [] [])) as (u & Hu & Hne & _).
    - split; [constructor |]. intros tag idx Hl. cbn in Hl.
      rewrite lookup_empty in Hl. discriminate.
    - eauto. }
  split; [intros records; apply readFile_result |].
  intros records u Hu.
  destruct (proj2 (readFile_result records) u Hu) as [[Hne _] _].
  eapply Forall_impl; [exact Hne |]. cbn beta.
  intros c Hc. split; [exact Hc |].
  intros interval. now apply getTimeSegments_in_range.
Qed.

Lemma cells_never_empty_witness :
  exists u : @User.t epoch_clock,
    @User.readFile epoch_clock
       [row_at 40 "A"; row_at 7 "B"; row_at 0 "A"; row_at 5 "B"] = Ret u /\
    Forall (fun c => Cell.rowList_ c <> [] /\
                     forall interval : Z,
                       Cell.getTimeSegments c interval <> Fail OutOfRange)
           (User.cellList_ u).
Proof.
  eexists. split; [vm_compute; reflexivity |].
  apply (proj2 (proj2 (proj2 (proj2 (@cells_never_empty epoch_clock))))
           [row_at 40 "A"; row_at 7 "B"; row_at 0 "A"; row_at 5 "B"]).
  vm_compute. reflexivity.
Defined.

(** C8. Popping the queue until it is empty serves every entry once, in
    descending order of count, whatever was pushed and in whatever order; the
    entries {A:50, B:30, C:80} come out as C, A, B; and the queue that
    [readFile] builds holds, for every cell, its tag with its number of
    rows. *)
Theorem ranking_pops_descending :
  (forall q : PriorityQueue.t,
      Permutation (PriorityQueue.popped q) q /\
      StronglySorted by_count_descending (PriorityQueue.popped q)) /\
  (forall q : PriorityQueue.t,
      Permutation q [("A", 50); ("B", 30); ("C", 80)] ->
      map fst (PriorityQueue.popped q) = ["C"; "A"; "B"]) /\
  (forall (K : Clock) (records : list DataRow.t) (u : User.t),
      User.readFile records = Ret u ->
      User.cellQueue_ u = map ranking_entry (User.cellList_ u)).
Proof.
  split; [intros q; now apply pop_all_sorts |].
  split; [intros q Hq; now rewrite (popped_three q Hq) |].
  intros K records u Hu. now apply (proj2 (readFile_result records) u Hu).
Qed.

Lemma ranking_pops_descending_witness :
  map fst (PriorityQueue.popped [("B", 30); ("C", 80); ("A", 50)]) = ["C"; "A"; "B"] /\
  exists u : @User.t epoch_clock,
    @User.readFile epoch_clock
       [row_at 40 "A"; row_at 7 "B"; row_at 0 "A"; row_at 5 "B"] = Ret u /\
    User.cellQueue_ u = map ranking_entry (User.cellList_ u).
Proof.
  destruct ranking_pops_descending as (_ & Hthree & Hqueue).
  split.
  - apply Hthree.
    change [("B", 30); ("C", 80); ("A", 50)]
      with ([("B", 30); ("C", 80)] ++ [("A", 50)]).
    rewrite Permutation_app_comm. reflexivity.
  - eexists. split; [vm_compute; reflexivity |].
    apply (Hqueue epoch_clock
             [row_at 40 "A"; row_at 7 "B"; row_at 0 "A"; row_at 5 "B"]).
    vm_compute. reflexivity.
Defined.

(** ** Area discovery *)

Section AreaFacts.
Context `{Clock}.

Lemma tryAreas_first_fit (cur : list TIMEPAIR) (tag : string) (st : User.areas) :
  forall (k n i0 : nat) (a m : list TIMEPAIR),
    (forall j aj, (i0 <= j < i0 + k)%nat -> User.areaList st !! j = Some aj ->
                  rejects cur aj) ->
    User.areaList st !! (i0 + k)%nat = Some a ->
    accepts cur a m ->
    (k < n)%nat ->
    User.tryAreas n (Z.of_nat i0) cur tag st =
      Ret (true, User.Areas (<[tag := Z.of_nat (i0 + k) + 1]> (User.areaMap st))
                            (User.areaID st)
                            (<[(i0 + k)%nat := m]> (User.areaList st))).
Proof.
  induction k as [| k IH]; intros n i0 a m Hrej Ha [Hm Hless] Hk;
    (destruct n as [| n]; [lia |]); cbn [User.tryAreas].
  - rewrite Nat.add_0_r in *. rewrite (vec_at_nat _ _ _ Ha). cbn [bind].
    rewrite Hm. cbn [bind].
    destruct (Z.ltb_spec (size m) (size cur + size a)); [| lia].
    now rewrite Nat2Z.id.
  - destruct (lookup_lt_is_Some_2 (User.areaList st) i0) as [aj Haj].
    { apply lookup_lt_Some in Ha. lia. }
    rewrite (vec_at_nat _ _ _ Haj). cbn [bind].
    destruct (Hrej i0 aj ltac:(lia) Haj) as (mj & Hmj & Hsize).
    rewrite Hmj. cbn [bind].
    destruct (Z.ltb_spec (size mj) (size cur + size aj)); [lia |].
    replace (Z.of_nat i0 + 1) with (Z.of_nat (S i0)) by lia.
    replace (i0 + S k)%nat with (S i0 + k)%nat in * by lia.
    apply (IH n (S i0) a m); try assumption; [| split; assumption | lia].
    intros j aj' Hj. apply Hrej. lia.
Qed.

Lemma tryAreas_no_fit (cur : list TIMEPAIR) (tag : string) (st : User.areas) :
  forall n i0 : nat,
    (i0 + n = length (User.areaList st))%nat ->
    (forall j aj, User.areaList st !! j = Some aj -> rejects cur aj) ->
    User.tryAreas n (Z.of_nat i0) cur tag st = Ret (false, st).
Proof.
  induction n as [| n IH]; intros i0 Hlen Hrej; cbn [User.tryAreas]; [reflexivity |].
  destruct (lookup_lt_is_Some_2 (User.areaList st) i0) as [aj Haj]; [lia |].
  rewrite (vec_at_nat _ _ _ Haj). cbn [bind].
  destruct (Hrej i0 aj Haj) as (mj & Hmj & Hsize).
  rewrite Hmj. cbn [bind].
  destruct (Z.ltb_spec (size mj) (size cur + size aj)); [lia |].
  replace (Z.of_nat i0 + 1) with (Z.of_nat (S i0)) by lia.
  apply IH; [lia | exact Hrej].
Qed.

(** Whatever the areas are, the loop over them either leaves them alone or
    replaces one of them and binds the tag to its position plus one. *)
Lemma tryAreas_result (cur : list TIMEPAIR) (tag : string) (st : User.areas) :
  forall (n i0 : nat) (b : bool) (st' : User.areas),
    (i0 + n <= length (User.areaList st))%nat ->
    User.tryAreas n (Z.of_nat i0) cur tag st = Ret (b, st') ->
    (b = false /\ st' = st) \/
    (b = true /\
     exists (i : nat) (m : list TIMEPAIR),
       (i < length (User.areaList st))%nat /\
       st' = User.Areas (<[tag := Z.of_nat i + 1]> (User.areaMap st))
                        (User.areaID st)
                        (<[i := m]> (User.areaList st))).
Proof.
  induction n as [| n IH]; intros i0 b st' Hlen; cbn [User.tryAreas].
  - intros [= <- <-]. now left.
  - intros Hr. apply bind_Ret in Hr as (a & Ha & Hr).
    apply bind_Ret in Hr as (m & Hm & Hr).
    destruct (size m <? size cur + size a).
    + injection Hr as <- <-. right. split; [reflexivity |].
      exists i0, m. rewrite Nat2Z.id. split; [lia | reflexivity].
    + replace (Z.of_nat i0 + 1) with (Z.of_nat (S i0)) in Hr by lia.
      apply (IH (S i0)); [lia | exact Hr].
Qed.

Lemma assignArea_sequential (cur : list TIMEPAIR) (tag : string) (st st' : User.areas) :
  ids_sequential st -> User.assignArea cur tag st = Ret st' -> ids_sequential st'.
Proof.
  intros [Hid Hmap] Hr. unfold User.assignArea in Hr.
  apply bind_Ret in Hr as ([b st1] & Htry & Hr). cbn [fst snd] in Hr.
  apply (tryAreas_result cur tag st _ 0%nat) in Htry; [| simpl; lia].
  destruct Htry as [[-> ->] | [-> (i & m & Hi & ->)]]; injection Hr as <-;
    split; cbn [User.areaID User.areaList User.areaMap]; unfold size in *.
  - rewrite length_app. cbn [length]. lia.
  - apply map_Forall_insert_2.
    + rewrite length_app. cbn [length]. lia.
    + eapply map_Forall_impl; [exact Hmap |]. cbn beta. intros _ id Hid'.
      rewrite length_app. cbn [length]. lia.
  - rewrite length_insert. exact Hid.
  - apply map_Forall_insert_2.
    + rewrite length_insert. lia.
    + eapply map_Forall_impl; [exact Hmap |]. cbn beta. intros _ id Hid'.
      rewrite length_insert. lia.
Qed.

(** One turn of the [while] loop, for the cell on top of the queue. *)
Lemma topKLoop_step (fuel : nat) (interval : Z) (u : User.t) (st : User.areas)
    (cellTag : string) (num : Z) (c : Cell.t) (currSegList : list TIMEPAIR) :
  PriorityQueue.top (User.cellQueue_ u) = Some (cellTag, num) ->
  vec_at (User.cellList_ u) (User.cellIndex u cellTag) = Ret c ->
  Cell.getTimeSegments c interval = Ret currSegList ->
  interval <> 0 ->
  User.topKLoop (S fuel) interval u st =
    if num <? 3600 ÷ interval then Ret (User.subscripted u cellTag, st)
    else
      st' <- (if 3600 <? User.stayTimeOf currSegList interval
              then User.assignArea currSegList cellTag st
              else Ret st) ;;
      User.topKLoop fuel interval (User.popQueue (User.subscripted u cellTag)) st'.
Proof.
  intros Htop Hc Hsegs Hint. cbn [User.topKLoop]. rewrite Htop.
  cbn [User.subscripted User.cellList_]. rewrite Hc. cbn [bind].
  rewrite Hsegs. cbn [bind].
  destruct (Z.eqb_spec interval 0); [contradiction | reflexivity].
Qed.

Lemma topKLoop_sequential (fuel : nat) (interval : Z) :
  forall (u : User.t) (st : User.areas) (r : User.t * User.areas),
    ids_sequential st ->
    User.topKLoop fuel interval u st = Ret r ->
    ids_sequential r.2.
Proof.
  induction fuel as [| fuel IH]; intros u st r Hst; cbn [User.topKLoop];
    destruct (PriorityQueue.top (User.cellQueue_ u)) as [[cellTag num] |];
    try (intros [= <-]; exact Hst); try discriminate.
  intros Hr. apply bind_Ret in Hr as (c & _ & Hr).
  apply bind_Ret in Hr as (segs & _ & Hr).
  destruct (interval =? 0); [discriminate |].
  destruct (num <? 3600 ÷ interval); [injection Hr as <-; exact Hst |].
  apply bind_Ret in Hr as (st' & Hst' & Hr).
  apply (IH _ st' r) in Hr; [exact Hr |].
  destruct (3600 <? User.stayTimeOf segs interval).
  - now apply (assignArea_sequential segs cellTag st).
  - now injection Hst' as <-.
Qed.

End AreaFacts.

(** ** The bounds given to the [while] loops are enough *)

Create HintDb avoid.

Ltac avoid_step :=
  first
    [ discriminate
    | solve [auto with avoid]
    | apply bind_avoids; [| intros ? _]
    | match goal with
      | |- (if ?b then _ else _) <> _ => destruct b
      | |- match ?x with _ => _ end <> _ => destruct x
      end ].

Ltac avoid := repeat avoid_step.

Section Fuel.
Context `{Clock}.

Lemma vec_at_fuel {A : Type} (v : list A) (i : Z) : vec_at v i <> Fail OutOfFuel.
Proof. unfold vec_at. avoid. Qed.

Lemma getTimeValue_fuel (t : tm) : getTimeValue t <> Fail OutOfFuel.
Proof. unfold getTimeValue. avoid. Qed.

Hint Resolve vec_at_fuel getTimeValue_fuel : avoid.

Lemma consider_fuel (l : list TIMEPAIR) (x : TIMEPAIR) : consider l x <> Fail OutOfFuel.
Proof. unfold consider. avoid. Qed.

Lemma merge_select_fuel (v1 v2 : list TIMEPAIR) (s : merge_vars) :
  merge_select v1 v2 s <> Fail OutOfFuel.
Proof. unfold merge_select. avoid. Qed.

Hint Resolve consider_fuel merge_select_fuel : avoid.

(** A turn of the loop of [merge] moves at least one of the two indices
    ahead. *)
Lemma merge_select_progress (v1 v2 : list TIMEPAIR) (s s' : merge_vars) :
  (idx1 s <=? size v1) && (idx2 s <=? size v2) = true ->
  merge_select v1 v2 s = Ret s' ->
  idx1 s <= idx1 s' /\ idx2 s <= idx2 s' /\ idx1 s + idx2 s < idx1 s' + idx2 s'.
Proof.
  intros Hcond Hsel. apply andb_true_iff in Hcond as [H1 H2].
  apply Z.leb_le in H1, H2. unfold merge_select in Hsel.
  destruct (Z.ltb_spec (idx1 s) (size v1)), (Z.ltb_spec (idx2 s) (size v2));
    cbn [andb] in Hsel.
  - apply bind_Ret in Hsel as (a & _ & Hsel). apply bind_Ret in Hsel as (b & _ & Hsel).
    apply bind_Ret in Hsel as (ta & _ & Hsel). apply bind_Ret in Hsel as (tb & _ & Hsel).
    destruct (ta <? tb); injection Hsel as <-; cbn; lia.
  - destruct (Z.eqb_spec (idx1 s) (size v1)); [injection Hsel as <-; cbn; lia |].
    destruct (Z.eqb_spec (idx2 s) (size v2)); [injection Hsel as <-; cbn; lia | lia].
  - destruct (Z.eqb_spec (idx1 s) (size v1)); [injection Hsel as <-; cbn; lia | lia].
  - destruct (Z.eqb_spec (idx1 s) (size v1)); [injection Hsel as <-; cbn; lia | lia].
Qed.

Lemma merge_loop_fuel (v1 v2 : list TIMEPAIR) (fuel : nat) :
  forall s : merge_vars,
    (size v1 + 1 - idx1 s) + (size v2 + 1 - idx2 s) <= Z.of_nat fuel ->
    merge_loop fuel v1 v2 s <> Fail OutOfFuel.
Proof.
  induction fuel as [| fuel IH]; intros s Hm; cbn [merge_loop];
    destruct ((idx1 s <=? size v1) && (idx2 s <=? size v2)) eqn:Hcond;
    try discriminate.
  - apply andb_true_iff in Hcond as [H1 H2]. apply Z.leb_le in H1, H2. lia.
  - apply bind_avoids; [auto with avoid | intros s' Hs'].
    apply bind_avoids; [auto with avoid | intros x _].
    apply bind_avoids; [auto with avoid | intros m _].
    apply IH. cbn [idx1 idx2].
    pose proof (merge_select_progress v1 v2 s s' Hcond Hs'). lia.
Qed.

Lemma merge_fuel (v1 v2 : list TIMEPAIR) : merge v1 v2 <> Fail OutOfFuel.
Proof.
  unfold merge. apply bind_avoids; [| discriminate].
  apply merge_loop_fuel. unfold size. cbn [idx1 idx2]. lia.
Qed.

Hint Resolve merge_fuel : avoid.

Lemma for_loop_avoids {S : Type} (e : failure) (body : Z -> S -> outcome S) :
  (forall i s, body i s <> Fail e) ->
  forall n i s, for_loop body i n s <> Fail e.
Proof.
  intros Hbody. induction n as [| n IH]; intros i s; cbn [for_loop]; [discriminate |].
  apply bind_avoids; [apply Hbody | intros s' _; apply IH].
Qed.

Lemma getTimeSegments_fuel (c : Cell.t) (interval : Z) :
  Cell.getTimeSegments c interval <> Fail OutOfFuel.
Proof.
  unfold Cell.getTimeSegments.
  apply bind_avoids; [auto with avoid | intros r0 _].
  apply bind_avoids; [| intros s _; avoid].
  apply for_loop_avoids. intros i s.
  unfold Cell.segment_step, Cell.isWithinInterval. avoid.
Qed.

Lemma tryAreas_fuel (cur : list TIMEPAIR) (tag : string) (st : User.areas) :
  forall (n : nat) (i : Z), User.tryAreas n i cur tag st <> Fail OutOfFuel.
Proof.
  induction n as [| n IH]; intros i; cbn [User.tryAreas]; [discriminate |].
  apply bind_avoids; [auto with avoid | intros a _].
  apply bind_avoids; [auto with avoid | intros m _].
  destruct (size m <? size cur + size a); [discriminate | apply IH].
Qed.

Lemma assignArea_fuel (cur : list TIMEPAIR) (tag : string) (st : User.areas) :
  User.assignArea cur tag st <> Fail OutOfFuel.
Proof.
  unfold User.assignArea.
  apply bind_avoids; [apply tryAreas_fuel | intros r _].
  destruct r.1; discriminate.
Qed.

Hint Resolve getTimeSegments_fuel assignArea_fuel : avoid.

Lemma pop_length (q : PriorityQueue.t) (x : PAIR) :
  PriorityQueue.top q = Some x -> S (length (PriorityQueue.pop q)) = length q.
Proof.
  unfold PriorityQueue.top, PriorityQueue.pop.
  destruct (PriorityQueue.select q) as [[m rest] |] eqn:Hsel; [| discriminate].
  intros _. destruct (select_Some q m rest Hsel) as [Hperm _].
  now rewrite (Permutation_length Hperm).
Qed.

(** The loop over the queue is given as many turns as the queue has
    entries, and never needs more. *)
Lemma topKLoop_fuel (interval : Z) (fuel : nat) :
  forall (u : User.t) (st : User.areas),
    (length (User.cellQueue_ u) <= fuel)%nat ->
    User.topKLoop fuel interval u st <> Fail OutOfFuel.
Proof.
  induction fuel as [| fuel IH]; intros u st Hlen; cbn [User.topKLoop];
    destruct (PriorityQueue.top (User.cellQueue_ u)) as [[cellTag num] |] eqn:Htop;
    try discriminate.
  - apply pop_length in Htop. lia.
  - apply bind_avoids; [auto with avoid | intros c _].
    apply bind_avoids; [auto with avoid | intros segs _].
    destruct (interval =? 0); [discriminate |].
    destruct (num <? 3600 ÷ interval); [discriminate |].
    apply bind_avoids.
    + destruct (3600 <? User.stayTimeOf segs interval); [auto with avoid | discriminate].
    + intros st' _. apply IH. cbn [User.popQueue User.subscripted User.cellQueue_].
      apply pop_length in Htop. lia.
Qed.

(** The loop of [findResidentialAreaByTopKCells] makes at most one turn for
    each entry of the queue: the bound the model gives it never runs out. *)
Lemma findResidentialAreaByTopKCells_fuel (u : User.t) (interval : Z) :
  User.findResidentialAreaByTopKCells u interval <> Fail OutOfFuel.
Proof.
  unfold User.findResidentialAreaByTopKCells.
  apply bind_avoids; [now apply topKLoop_fuel | discriminate].
Qed.

End Fuel.

(** C4. For the cell on top of the queue: when its count is below
    3600 / interval the loop ends there, the areas as they were and the
    queue not popped; otherwise, when the stay time is at most 3600, the
    areas stay as they were and the loop goes on with the queue popped.  The
    stay time is the number of segments times the interval, as long as that
    product is a value of [int]. *)
Theorem topK_thresholds `{Clock} :
  (forall (fuel : nat) (interval : Z) (u : User.t) (st : User.areas)
          (cellTag : string) (num : Z) (c : Cell.t) (currSegList : list TIMEPAIR),
      PriorityQueue.top (User.cellQueue_ u) = Some (cellTag, num) ->
      vec_at (User.cellList_ u) (User.cellIndex u cellTag) = Ret c ->
      Cell.getTimeSegments c interval = Ret currSegList ->
      interval <> 0 ->
      (num < 3600 ÷ interval ->
       User.topKLoop (S fuel) interval u st = Ret (User.subscripted u cellTag, st)) /\
      (3600 ÷ interval <= num ->
       User.stayTimeOf currSegList interval <= 3600 ->
       User.topKLoop (S fuel) interval u st =
         User.topKLoop fuel interval (User.popQueue (User.subscripted u cellTag)) st)) /\
  (forall (currSegList : list TIMEPAIR) (interval : Z),
      - 2 ^ 31 <= size currSegList * interval < 2 ^ 31 ->
      User.stayTimeOf currSegList interval = size currSegList * interval).
Proof.
  split.
  - intros fuel interval u st cellTag num c segs Htop Hc Hsegs Hint.
    rewrite (topKLoop_step fuel interval u st cellTag num c segs Htop Hc Hsegs Hint).
    split.
    + intros Hnum. destruct (Z.ltb_spec num (3600 ÷ interval)); [reflexivity | lia].
    + intros Hnum Hstay. destruct (Z.ltb_spec num (3600 ÷ interval)); [lia |].
      destruct (Z.ltb_spec 3600 (User.stayTimeOf segs interval)); [lia | reflexivity].
  - intros segs interval Hrange. unfold User.stayTimeOf, to_int.
    rewrite Z.mod_small; lia.
Qed.

Lemma topK_thresholds_witness :
  (forall fuel st,
      @User.topKLoop epoch_clock (S fuel) 180 two_cells_user st =
        Ret (User.subscripted two_cells_user "A", st)) /\
  (forall fuel st,
      @User.topKLoop epoch_clock (S fuel) 1800 two_cells_user st =
        @User.topKLoop epoch_clock fuel 1800
          (User.popQueue (User.subscripted two_cells_user "A")) st) /\
  @User.stayTimeOf epoch_clock [(0, 160)] 180 = 180.
Proof.
  destruct (@topK_thresholds epoch_clock) as [Hturn Hstay].
  split; [| split].
  - intros fuel st.
    apply (Hturn fuel 180 two_cells_user st "A" 5
             (Cell.mk "A" [row_at 0 "A"; row_at 40 "A"; row_at 80 "A";
                           row_at 120 "A"; row_at 160 "A"])
             [(0, 160)]); try reflexivity; lia.
  - intros fuel st.
    apply (Hturn fuel 1800 two_cells_user st "A" 5
             (Cell.mk "A" [row_at 0 "A"; row_at 40 "A"; row_at 80 "A";
                           row_at 120 "A"; row_at 160 "A"])
             [(0, 160)]); try reflexivity; try lia.
    + vm_compute. discriminate.
    + vm_compute. discriminate.
  - apply (Hstay [(0, 160)] 180). unfold size. simpl. lia.
Defined.

(** C5. A cell on top of the queue whose stay time exceeds 3600 goes
    through [assignArea] before the loop goes on.  There the areas are tried
    from the first created on: the first one whose merge with the cell's
    intervals has fewer intervals than the two lists together gets the cell
    -- the tag is bound to its position plus one, its intervals are replaced
    by the merge, the other areas are left as they were, later ones untried.
    When no area takes the cell, its intervals become a new area at the end
    of the list and the tag is bound to [areaID], which goes up by one.
    From the start of the search on, [areaID] is the number of areas plus
    one, so identifiers are 1, 2, 3, ... in order of creation. *)
Theorem area_first_fit `{Clock} :
  (forall (fuel : nat) (interval : Z) (u : User.t) (st : User.areas)
          (cellTag : string) (num : Z) (c : Cell.t) (currSegList : list TIMEPAIR),
      PriorityQueue.top (User.cellQueue_ u) = Some (cellTag, num) ->
      vec_at (User.cellList_ u) (User.cellIndex u cellTag) = Ret c ->
      Cell.getTimeSegments c interval = Ret currSegList ->
      interval <> 0 ->
      3600 ÷ interval <= num ->
      3600 < User.stayTimeOf currSegList interval ->
      User.topKLoop (S fuel) interval u st =
        (st' <- User.assignArea currSegList cellTag st ;;
         User.topKLoop fuel interval (User.popQueue (User.subscripted u cellTag)) st')) /\
  (forall (currSegList : list TIMEPAIR) (cellTag : string) (st : User.areas)
          (i : nat) (a m : list TIMEPAIR),
      (forall j aj, (j < i)%nat -> User.areaList st !! j = Some aj ->
                    rejects currSegList aj) ->
      User.areaList st !! i = Some a ->
      accepts currSegList a m ->
      User.assignArea currSegList cellTag st =
        Ret (User.Areas (<[cellTag := Z.of_nat i + 1]> (User.areaMap st))
                        (User.areaID st)
                        (<[i := m]> (User.areaList st)))) /\
  (forall (currSegList : list TIMEPAIR) (cellTag : string) (st : User.areas),
      (forall j aj, User.areaList st !! j = Some aj -> rejects currSegList aj) ->
      User.assignArea currSegList cellTag st =
        Ret (User.Areas (<[cellTag := User.areaID st]> (User.areaMap st))
                        (User.areaID st + 1)
                        (User.areaList st ++ [currSegList]))) /\
  (forall (u : User.t) (interval : Z) (r : User.t * User.areas),
      User.findResidentialAreaByTopKCells u interval = Ret r ->
      ids_sequential r.2).
Proof.
  split; [| split; [| split]].
  - intros fuel interval u st cellTag num c segs Htop Hc Hsegs Hint Hnum Hstay.
    rewrite (topKLoop_step fuel interval u st cellTag num c segs Htop Hc Hsegs Hint).
    destruct (Z.ltb_spec num (3600 ÷ interval)); [lia |].
    destruct (Z.ltb_spec 3600 (User.stayTimeOf segs interval)); [reflexivity | lia].
  - intros cur tag st i a m Hrej Ha Hacc. unfold User.assignArea.
    pose proof (tryAreas_first_fit cur tag st i (length (User.areaList st)) 0%nat a m)
      as Hfit.
    change (Z.of_nat 0) with 0 in Hfit. cbn [Nat.add] in Hfit.
    rewrite Hfit; try assumption.
    + reflexivity.
    + intros j aj Hj. apply Hrej. lia.
    + now apply lookup_lt_Some in Ha.
  - intros cur tag st Hrej. unfold User.assignArea.
    pose proof (tryAreas_no_fit cur tag st (length (User.areaList st)) 0%nat eq_refl Hrej)
      as Hnone.
    change (Z.of_nat 0) with 0 in Hnone. now rewrite Hnone.
  - intros u interval r Hr. unfold User.findResidentialAreaByTopKCells in Hr.
    apply bind_Ret in Hr as (r0 & Hloop & [= <-]). cbn [snd].
    refine (topKLoop_sequential _ _ _ (User.Areas ∅ 1 []) _ _ Hloop).
    split; [reflexivity | apply map_Forall_empty].
Qed.

Lemma area_first_fit_witness :
  (forall fuel st,
      @User.topKLoop epoch_clock (S fuel) 1800 three_cells_user st =
        (st' <- User.assignArea (spans [(0, 0); (2000, 2000); (4000, 4000)]) "A" st ;;
         User.topKLoop fuel 1800
           (User.popQueue (User.subscripted three_cells_user "A")) st')) /\
  User.assignArea (spans [(5, 20)]) "X" three_areas =
    Ret (User.Areas {["X" := 2]} 4
           [spans [(100, 200)]; spans [(0, 20)]; spans [(15, 30)]]) /\
  User.assignArea (spans [(50, 60)]) "X" three_areas =
    Ret (User.Areas {["X" := 4]} 5
           [spans [(100, 200)]; spans [(0, 10)]; spans [(15, 30)]; spans [(50, 60)]]) /\
  (exists r, @User.findResidentialAreaByTopKCells epoch_clock three_cells_user 1800 = Ret r /\
             User.areaMap r.2 = {["A" := 1; "B" := 1; "C" := 2]} /\
             ids_sequential r.2).
Proof.
  destruct (@area_first_fit epoch_clock) as (Hturn & Hfit & Hnew & Hids).
  split; [| split; [| split]].
  - intros fuel st.
    apply (Hturn fuel 1800 three_cells_user st "A" 3
             (Cell.mk "A" [row_at 0 "A"; row_at 2000 "A"; row_at 4000 "A"]));
      try reflexivity; vm_compute; discriminate.
  - apply (Hfit (spans [(5, 20)]) "X" three_areas 1%nat (spans [(0, 10)]) (spans [(0, 20)])).
    + intros [| j] aj Hj Hl; [| lia]. injection Hl as <-.
      exists (spans [(5, 20); (100, 200)]). split; [reflexivity | vm_compute; discriminate].
    + reflexivity.
    + split; reflexivity.
  - apply (Hnew (spans [(50, 60)]) "X" three_areas).
    intros [| [| [| j]]] aj Hl; try discriminate; injection Hl as <-;
      eexists; (split; [reflexivity | vm_compute; discriminate]).
  - eexists. split; [vm_compute; reflexivity |].
    split; [vm_compute; reflexivity |].
    apply (Hids three_cells_user 1800). vm_compute. reflexivity.
Defined.

(** ** findResidentialAreaBySpeed *)

Section SpeedFacts.
Context `{Clock}.
Variable distanceEarth : float -> float -> float -> float -> float.

Lemma createJsonFile_in_range (rows : list DataRow.t) (low high : Z) :
  0 <= low -> high <= size rows ->
  createJsonFile rows low high <> Fail OutOfRange.
Proof.
  intros Hlow Hhigh. unfold createJsonFile.
  assert (Hgen : forall n i coords,
             0 <= i -> i + Z.of_nat n <= size rows ->
             for_loop (fun i coords =>
                         d <- vec_at rows i ;;
                         Ret (coords ++ [(DataRow.getLon d, DataRow.getLat d)]))
                      i n coords <> Fail OutOfRange).
  { induction n as [| n IH]; intros i coords Hi Hn; cbn [for_loop]; [discriminate |].
    destruct (vec_at_in_range rows i) as [d ->]; [lia |]. cbn [bind].
    apply IH; lia. }
  destruct (Z.le_gt_cases high low) as [Hle | Hgt].
  - replace (Z.to_nat (high - low)) with 0%nat by lia. discriminate.
  - apply Hgen; lia.
Qed.

Lemma emitSegment_in_range (rows : list DataRow.t) (s : User.speed_vars) :
  0 <= User.low s <= User.high s - 1 ->
  User.high s <= size rows ->
  User.emitSegment rows s <> Fail OutOfRange /\
  forall s', User.emitSegment rows s = Ret s' ->
             User.low s' = User.low s /\ User.high s' = User.high s.
Proof.
  intros Hlow Hhigh. unfold User.emitSegment.
  destruct (vec_at_in_range rows (User.high s - 1)) as [rh ->]; [lia |].
  destruct (vec_at_in_range rows (User.low s)) as [rl ->]; [lia |].
  cbn [bind].
  pose proof (getTimeValue_in_range (DataRow.getDateTime rh)) as Hth.
  destruct (getTimeValue (DataRow.getDateTime rh)) as [th | f]; cbn [bind];
    [| split; [intros [= ->]; now apply Hth | discriminate]].
  pose proof (getTimeValue_in_range (DataRow.getDateTime rl)) as Htl.
  destruct (getTimeValue (DataRow.getDateTime rl)) as [tl | f]; cbn [bind];
    [| split; [intros [= ->]; now apply Htl | discriminate]].
  destruct (minInterval <? th - tl).
  - pose proof (createJsonFile_in_range rows (User.low s) (User.high s)
                  ltac:(lia) Hhigh) as Hjson.
    destruct (createJsonFile rows (User.low s) (User.high s)) as [coords | f];
      cbn [bind]; [| split; [intros [= ->]; now apply Hjson | discriminate]].
    split; [discriminate |]. intros s' [= <-]. cbn. split; reflexivity.
  - split; [discriminate |]. intros s' [= <-]. split; reflexivity.
Qed.

Lemma speedStep_in_range (rows : list DataRow.t) (i : Z) (s : User.speed_vars) :
  1 <= i < size rows ->
  0 <= User.low s <= i - 1 ->
  User.speedStep distanceEarth rows i s <> Fail OutOfRange /\
  forall s', User.speedStep distanceEarth rows i s = Ret s' ->
             0 <= User.low s' <= i /\ User.high s' = i.
Proof.
  intros Hi Hlow. unfold User.speedStep.
  destruct (vec_at_in_range rows (i - 1)) as [rp ->]; [lia |].
  destruct (vec_at_in_range rows i) as [ri ->]; [lia |].
  cbn [bind].
  pose proof (getTimeValue_in_range (DataRow.getDateTime ri)) as Hti.
  destruct (getTimeValue (DataRow.getDateTime ri)) as [ti | f]; cbn [bind];
    [| split; [intros [= ->]; now apply Hti | discriminate]].
  pose proof (getTimeValue_in_range (DataRow.getDateTime rp)) as Htp.
  destruct (getTimeValue (DataRow.getDateTime rp)) as [tp | f]; cbn [bind];
    [| split; [intros [= ->]; now apply Htp | discriminate]].
  destruct (ti - tp <? 0); [split; discriminate |].
  destruct (_ || _); [split; [discriminate | intros s' [= <-]; cbn; lia] |].
  destruct (PrimFloat.ltb _ _); [| split; [discriminate | intros s' [= <-]; cbn; lia]].
  destruct (emitSegment_in_range rows
              (User.SpeedVars (User.mapID s) (User.low s) i (User.files s)))
    as [Hsafe Hkeep]; cbn [User.low User.high]; [lia | lia |].
  destruct (User.emitSegment rows _) as [s1 | f]; cbn [bind].
  - split; [discriminate |]. intros s' [= <-]. cbn [User.low User.high].
    destruct (Hkeep s1 eq_refl) as [_ Hh]. cbn in Hh. lia.
  - split; [intros [= ->]; now apply Hsafe | discriminate].
Qed.

Lemma speed_loop_in_range (rows : list DataRow.t) (n : nat) :
  forall (i : Z) (s : User.speed_vars),
    1 <= i -> i + Z.of_nat n <= size rows ->
    0 <= User.low s <= i - 1 -> User.high s = i - 1 ->
    for_loop (User.speedStep distanceEarth rows) i n s <> Fail OutOfRange /\
    forall s', for_loop (User.speedStep distanceEarth rows) i n s = Ret s' ->
               0 <= User.low s' <= i + Z.of_nat n - 1 /\
               User.high s' = i + Z.of_nat n - 1.
Proof.
  induction n as [| n IH]; intros i s Hi Hn Hlow Hhigh; cbn [for_loop].
  - split; [discriminate |]. intros s' [= <-]. lia.
  - destruct (speedStep_in_range rows i s) as [Hsafe Hpost]; [lia | lia |].
    destruct (User.speedStep distanceEarth rows i s) as [s1 | f]; cbn [bind].
    + destruct (Hpost s1 eq_refl) as [Hl1 Hh1].
      destruct (IH (i + 1) s1) as [Hsafe' Hpost']; try lia.
      split; [exact Hsafe' |]. intros s' Hs'.
      specialize (Hpost' s' Hs'). lia.
    + split; [intros [= ->]; now apply Hsafe | discriminate].
Qed.

End SpeedFacts.

(** C10. On an empty log the scan loop does not run, [high] is raised to 1
    and the read of row [high - 1], row 0, falls outside the vector.  On a
    log with at least one row, whatever distances [distanceEarth] reports,
    no read of [findResidentialAreaBySpeed] or of the [createJsonFile] it
    calls falls outside the vector. *)
Theorem speed_scan_needs_rows `{Clock}
    (distanceEarth : float -> float -> float -> float -> float) :
  (forall u : User.t,
      User.rowList_ u = [] ->
      for_loop (User.speedStep distanceEarth (User.rowList_ u)) 1
               (length (User.rowList_ u) - 1) (User.SpeedVars 1 0 0 []) =
        Ret (User.SpeedVars 1 0 0 []) /\
      vec_at (User.rowList_ u) (0 + 1 - 1) = Fail OutOfRange /\
      User.findResidentialAreaBySpeed distanceEarth u = Fail OutOfRange) /\
  (forall u : User.t,
      User.rowList_ u <> [] ->
      User.findResidentialAreaBySpeed distanceEarth u <> Fail OutOfRange).
Proof.
  split.
  - intros u Hu. unfold User.findResidentialAreaBySpeed. rewrite Hu.
    repeat split; reflexivity.
  - intros u Hne. unfold User.findResidentialAreaBySpeed.
    assert (Hsize : 1 <= size (User.rowList_ u)).
    { unfold size. destruct (User.rowList_ u); [congruence | simpl; lia]. }
    destruct (speed_loop_in_range distanceEarth (User.rowList_ u)
                (length (User.rowList_ u) - 1) 1 (User.SpeedVars 1 0 0 []))
      as [Hsafe Hpost]; cbn [User.low User.high]; try lia.
    { unfold size in *. lia. }
    apply bind_in_range; [exact Hsafe | intros s Hs].
    destruct (Hpost s Hs) as [Hlow Hhigh].
    apply (emitSegment_in_range (User.rowList_ u)); cbn [User.low User.high];
      unfold size in *; lia.
Qed.

Lemma speed_scan_needs_rows_witness :
  @User.findResidentialAreaBySpeed epoch_clock far (User.mk [] ∅ [] []) =
    Fail OutOfRange /\
  @User.findResidentialAreaBySpeed epoch_clock far two_cells_user <>
    Fail OutOfRange.
Proof.
  destruct (@speed_scan_needs_rows epoch_clock far) as [Hempty Hrows].
  split.
  - apply (Hempty (User.mk [] ∅ [] [])). reflexivity.
  - apply (Hrows two_cells_user). vm_compute. discriminate.
Defined.

(** ** Merging a list with itself *)

Ltac cmp :=
  repeat match goal with
    | |- context [Z.leb ?a ?b] => destruct (Z.leb_spec a b); try lia
    | |- context [Z.ltb ?a ?b] => destruct (Z.ltb_spec a b); try lia
    | |- context [Z.eqb ?a ?b] => destruct (Z.eqb_spec a b); try lia
    end;
  cbn [andb orb].

Ltac merge_turn :=
  cbn [merge_loop idx1 idx2]; unfold size; cmp;
  unfold merge_select at 1; cbn [idx1 idx2 merged]; unfold size; cmp.

Section MergeSelf.
Context `{Clock}.

Lemma separated_lookup (x : list TIMEPAIR) (k : nat) (a : TIMEPAIR) :
  separated x -> x !! k = Some a -> well_formed a.
Proof.
  intros (Hwf & _ & _) Ha. exact (proj1 (Forall_lookup _ _) Hwf k a Ha).
Qed.

Lemma Sorted_lookup_next {A : Type} (R : A -> A -> Prop) (l : list A) :
  Sorted R l ->
  forall (k : nat) (a b : A), l !! k = Some a -> l !! S k = Some b -> R a b.
Proof.
  induction 1 as [| x l Hs IH Hhd]; intros k a b Ha Hb; [discriminate |].
  destruct k as [| k]; cbn in Ha, Hb.
  - injection Ha as <-. destruct Hhd as [| y l' Hxy]; [discriminate |].
    cbn in Hb. now injection Hb as <-.
  - now apply (IH k).
Qed.

Lemma separated_next (x : list TIMEPAIR) (k : nat) (a b : TIMEPAIR) :
  separated x -> x !! k = Some a -> x !! S k = Some b ->
  mktime a.2 < mktime b.1.
Proof.
  intros Hsep Ha Hb.
  destruct (separated_lookup x k a Hsep Ha) as (_ & _ & Hwa).
  destruct (separated_lookup x (S k) b Hsep Hb) as (_ & _ & Hwb).
  destruct Hsep as (_ & Hsorted & Hno).
  pose proof (Sorted_lookup_next _ _ Hsorted k a b Ha Hb) as Hst.
  specialize (Hno k (S k) a b ltac:(lia) Ha Hb).
  unfold overlap_or_touch in Hno. unfold starts_before in Hst. lia.
Qed.

Lemma consider_same (l : list TIMEPAIR) (a : TIMEPAIR) :
  well_formed a -> consider (l ++ [a]) a = Ret (l ++ [a]).
Proof.
  intros (Hc1 & Hc2 & Hle). rewrite consider_nonempty by assumption.
  destruct (Z.ltb_spec (mktime a.2) (mktime a.1)); [lia |].
  rewrite Z.ltb_irrefl. now destruct a.
Qed.

Lemma consider_next (x : list TIMEPAIR) (k : nat) (a : TIMEPAIR) :
  separated x -> x !! k = Some a -> consider (take k x) a = Ret (take (S k) x).
Proof.
  intros Hsep Ha. rewrite (take_S_r x k a Ha).
  destruct k as [| k]; [now rewrite take_0 |].
  destruct (lookup_lt_is_Some_2 x k) as [b Hb].
  { apply lookup_lt_Some in Ha. lia. }
  rewrite (take_S_r x k b Hb).
  destruct (separated_lookup x k b Hsep Hb) as (_ & Hcb & _).
  destruct (separated_lookup x (S k) a Hsep Ha) as (Hca1 & Hca2 & _).
  rewrite consider_nonempty by assumption.
  pose proof (separated_next x k b a Hsep Hb Ha).
  destruct (Z.ltb_spec (mktime b.2) (mktime a.1)); [| lia].
  now rewrite <- app_assoc.
Qed.

Lemma merge_self_loop (x : list TIMEPAIR) :
  separated x ->
  forall (d k fuel : nat) (tgt : target_of) (it : Z),
    (k + S d = length x)%nat -> (2 * S d <= fuel)%nat ->
    exists s, merge_loop fuel x x (MergeVars (take k x) tgt (Z.of_nat k) (Z.of_nat k) it)
              = Ret s /\
              merged s = x /\ idx1 s = size x /\ idx2 s = size x + 1.
Proof.
  intros Hsep. induction d as [| d IH]; intros k fuel tgt it Hk Hfuel;
    (destruct fuel as [| [| fuel]]; [lia | lia |]);
    destruct (lookup_lt_is_Some_2 x k) as [a Ha]; try lia;
    pose proof (separated_lookup x k a Hsep Ha) as Hwa;
    destruct Hwa as (Hca1 & Hca2 & Hale).
  - (* the last interval *)
    merge_turn.
    rewrite (vec_at_nat _ _ _ Ha). cbn [bind].
    rewrite (getTimeValue_convertible _ Hca1). cbn [bind]. cmp.
    cbn [bind target idxTarget deref merged idx1 idx2].
    rewrite (vec_at_nat _ _ _ Ha). cbn [bind].
    rewrite (consider_next x k a Hsep Ha). cbn [bind]. cmp.
    unfold merge_select. cbn [idx1 idx2 merged]. unfold size. cmp.
    cbn [bind target idxTarget deref merged idx1 idx2].
    rewrite (vec_at_nat _ _ _ Ha). cbn [bind].
    rewrite (take_S_r x k a Ha), (consider_same _ a) by (repeat split; assumption).
    cbn [bind]. rewrite merge_loop_done.
    2:{ cbn [idx1 idx2]. unfold size. cmp; reflexivity. }
    eexists. split; [reflexivity |]. cbn [merged idx1 idx2]. unfold size.
    rewrite <- (take_S_r x k a Ha), take_ge by lia. repeat split; lia.
  - (* an interval with a successor *)
    destruct (lookup_lt_is_Some_2 x (S k)) as [b Hb]; [lia |].
    pose proof (separated_lookup x (S k) b Hsep Hb) as (Hcb1 & Hcb2 & Hble).
    pose proof (separated_next x k a b Hsep Ha Hb) as Hab.
    merge_turn.
    rewrite (vec_at_nat _ _ _ Ha). cbn [bind].
    rewrite (getTimeValue_convertible _ Hca1). cbn [bind]. cmp.
    cbn [bind target idxTarget deref merged idx1 idx2].
    rewrite (vec_at_nat _ _ _ Ha). cbn [bind].
    rewrite (consider_next x k a Hsep Ha). cbn [bind]. cmp.
    unfold merge_select at 1. cbn [idx1 idx2 merged]. unfold size. cmp.
    rewrite (vec_at_nat _ _ _ Ha).
    replace (Z.of_nat k + 1) with (Z.of_nat (S k)) by lia.
    rewrite (vec_at_nat _ _ _ Hb). cbn [bind].
    rewrite (getTimeValue_convertible _ Hca1), (getTimeValue_convertible _ Hcb1).
    cbn [bind]. cmp.
    cbn [bind target idxTarget deref merged idx1 idx2].
    rewrite (vec_at_nat _ _ _ Ha). cbn [bind].
    rewrite (take_S_r x k a Ha), (consider_same _ a) by (repeat split; assumption).
    cbn [bind]. rewrite <- (take_S_r x k a Ha).
    apply IH; lia.
Qed.

(** Merging a non-empty list of separated intervals with itself gives the
    list back. *)
Theorem merge_self (x : list TIMEPAIR) :
  x <> [] -> separated x -> merge x x = Ret x.
Proof.
  intros Hne Hsep. unfold merge.
  destruct (merge_self_loop x Hsep (length x - 1) 0 (length x + length x + 2) V1 0)
    as (s & Hloop & Hm & H1 & H2).
  { destruct x; [congruence | simpl; lia]. }
  { lia. }
  rewrite take_0 in Hloop. change (Z.of_nat 0) with 0 in Hloop.
  rewrite Hloop. cbn [bind]. unfold merge_tails. rewrite H1, H2, Hm.
  rewrite Z.ltb_irrefl. destruct (Z.ltb_spec (size x + 1) (size x)); [lia | reflexivity].
Qed.

End MergeSelf.

Lemma merge_self_witness :
  @merge epoch_clock [(5, 6); (7, 8)] [(5, 6); (7, 8)] = Ret [(5, 6); (7, 8)].
Proof.
  apply (@merge_self epoch_clock); [discriminate |].
  concrete_separated.
Defined.

Lemma merge_nil_r_witness :
  @merge epoch_clock [(5, 6); (7, 8)] [] = Ret [(5, 6); (7, 8)].
Proof. apply (@merge_nil_r epoch_clock). discriminate. Defined.

(** * Further properties *)

(** ** Cell::isWithinInterval and Cell::getTimeSegments: outcomes *)

Section SegmentOutcomes.
Context `{Clock}.

Lemma getTimeValue_Ret (t : tm) (z : Z) :
  getTimeValue t = Ret z -> convertible t /\ z = mktime t.
Proof.
  unfold getTimeValue, convertible.
  destruct (Z.eqb_spec (mktime t) (-1)); [discriminate |].
  intros [= <-]. split; [assumption | reflexivity].
Qed.

Lemma getTimeValue_Fail (t : tm) (f : failure) :
  getTimeValue t = Fail f -> f = ExitCalled /\ ~ convertible t.
Proof.
  unfold getTimeValue, convertible.
  destruct (Z.eqb_spec (mktime t) (-1)); [| discriminate].
  intros [= <-]. split; [reflexivity | tauto].
Qed.

Lemma isWithinInterval_Ret (c : Cell.t) (i j interval : Z) (b : bool) :
  Cell.isWithinInterval c i j interval = Ret b ->
  0 <= interval /\
  exists ri rj,
    vec_at (Cell.rowList_ c) i = Ret ri /\ vec_at (Cell.rowList_ c) j = Ret rj /\
    convertible (DataRow.getDateTime ri) /\ convertible (DataRow.getDateTime rj) /\
    b = (mktime (DataRow.getDateTime rj) - mktime (DataRow.getDateTime ri) <=? interval).
Proof.
  unfold Cell.isWithinInterval.
  destruct (_ || _); [discriminate |].
  destruct (Z.ltb_spec interval 0); [discriminate |].
  intros Hr. apply bind_Ret in Hr as (rj & Hrj & Hr).
  apply bind_Ret in Hr as (tj & Htj & Hr).
  apply bind_Ret in Hr as (ri & Hri & Hr).
  apply bind_Ret in Hr as (ti & Hti & [= <-]).
  apply getTimeValue_Ret in Htj as [Hcj ->], Hti as [Hci ->].
  split; [assumption |]. exists ri, rj. repeat split; assumption.
Qed.

Lemma segment_loop_Ret (c : Cell.t) (interval : Z) (n : nat) :
  forall (i : nat) (s s' : Cell.segment_vars),
    for_loop (Cell.segment_step c interval) (Z.of_nat i) n s = Ret s' ->
    (n <> 0%nat -> 0 <= interval) /\
    forall (k : nat) (r : DataRow.t),
      (i <= k < i + n)%nat -> Cell.rowList_ c !! k = Some r ->
      convertible (DataRow.getDateTime r).
Proof.
  induction n as [| n IH]; intros i s s'; cbn [for_loop].
  - intros _. split; [congruence | intros k r Hk; lia].
  - intros Hr. apply bind_Ret in Hr as (s1 & Hstep & Hr).
    replace (Z.of_nat i + 1) with (Z.of_nat (S i)) in Hr by lia.
    apply IH in Hr as [_ Hrest].
    unfold Cell.segment_step in Hstep.
    apply bind_Ret in Hstep as (b & Hb & _).
    apply isWithinInterval_Ret in Hb as (Hint & ri & rj & _ & Hrj & _ & Hcj & _).
    split; [intros _; exact Hint |].
    intros k r Hk Hrk. destruct (decide (k = i)) as [-> | Hne].
    + apply vec_at_Ret in Hrj as [_ Hrj]. rewrite Nat2Z.id in Hrj. congruence.
    + apply (Hrest k r); [lia | exact Hrk].
Qed.

Lemma getTimeSegments_Ret (c : Cell.t) (interval : Z) (segs : list TIMEPAIR) :
  Cell.getTimeSegments c interval = Ret segs ->
  Cell.rowList_ c <> [] /\ 0 <= interval /\ all_convertible (Cell.rowList_ c).
Proof.
  unfold Cell.getTimeSegments. intros Hr.
  apply bind_Ret in Hr as (r0 & Hr0 & Hr).
  apply bind_Ret in Hr as (s & Hloop & _).
  apply vec_at_Ret in Hr0 as [_ Hr0]. cbn in Hr0.
  assert (Hne : Cell.rowList_ c <> []) by (intros Heq; rewrite Heq in Hr0; discriminate).
  change 0 with (Z.of_nat 0) in Hloop.
  apply segment_loop_Ret in Hloop as [Hint Hconv].
  split; [exact Hne |]. split.
  - apply Hint. destruct (Cell.rowList_ c); [congruence | discriminate].
  - apply Forall_lookup. intros k r Hk. apply (Hconv k r); [| exact Hk].
    apply lookup_lt_Some in Hk. lia.
Qed.

Lemma getTimeSegments_no_division (c : Cell.t) (interval : Z) :
  Cell.getTimeSegments c interval <> Fail DivideByZero.
Proof.
  unfold Cell.getTimeSegments.
  apply bind_avoids; [unfold vec_at; avoid | intros r0 _].
  apply bind_avoids; [| intros s _; unfold vec_at; avoid].
  apply for_loop_avoids. intros i s.
  unfold Cell.segment_step, Cell.isWithinInterval, vec_at, getTimeValue. avoid.
Qed.

Lemma getTimeSegments_exits (c : Cell.t) (interval : Z) :
  Cell.rowList_ c <> [] ->
  ~ (0 <= interval /\ all_convertible (Cell.rowList_ c)) ->
  Cell.getTimeSegments c interval = Fail ExitCalled.
Proof.
  intros Hne Hbad.
  pose proof (getTimeSegments_in_range c interval Hne) as Hrange.
  pose proof (getTimeSegments_fuel c interval) as Hfuel.
  pose proof (getTimeSegments_no_division c interval) as Hdiv.
  destruct (Cell.getTimeSegments c interval) as [segs | []] eqn:Hres;
    try reflexivity; try congruence.
  apply getTimeSegments_Ret in Hres as (_ & Hint & Hconv). tauto.
Qed.

(** What [getTimeSegments] does with each input: a cell without rows is
    read out of range; a negative interval or a date that does not convert
    ends the process; and in every other case, and in no other, a list of
    intervals is returned. *)
Theorem getTimeSegments_outcome (c : Cell.t) (interval : Z) :
  (Cell.rowList_ c = [] -> Cell.getTimeSegments c interval = Fail OutOfRange) /\
  (Cell.rowList_ c <> [] ->
   ~ (0 <= interval /\ all_convertible (Cell.rowList_ c)) ->
   Cell.getTimeSegments c interval = Fail ExitCalled) /\
  ((exists segs, Cell.getTimeSegments c interval = Ret segs) <->
   Cell.rowList_ c <> [] /\ 0 <= interval /\ all_convertible (Cell.rowList_ c)).
Proof.
  split; [| split].
  - intros Hnil. unfold Cell.getTimeSegments. now rewrite Hnil.
  - apply getTimeSegments_exits.
  - split.
    + intros [segs Hsegs]. now apply getTimeSegments_Ret in Hsegs.
    + intros (Hne & Hint & Hconv). eexists. now apply getTimeSegments_spec.
Qed.

End SegmentOutcomes.

Lemma getTimeSegments_outcome_witness :
  Cell.getTimeSegments (@Cell.mk epoch_clock "A" []) 180 = Fail OutOfRange /\
  Cell.getTimeSegments cell_A (-1) = Fail ExitCalled /\
  Cell.getTimeSegments (Cell.mk "A" [row_at 5 "A"; row_at (-1) "A"]) 180 = Fail ExitCalled /\
  exists segs, Cell.getTimeSegments cell_A 180 = Ret segs.
Proof.
  split; [| split; [| split]].
  - apply (getTimeSegments_outcome (@Cell.mk epoch_clock "A" []) 180). reflexivity.
  - apply (getTimeSegments_outcome cell_A (-1)); [discriminate |].
    intros [Hint _]. lia.
  - apply (getTimeSegments_outcome (Cell.mk "A" [row_at 5 "A"; row_at (-1) "A"]) 180);
      [discriminate |].
    intros [_ Hconv]. apply Forall_cons in Hconv as [_ Hconv].
    apply Forall_cons in Hconv as [Hbad _]. now apply Hbad.
  - apply (getTimeSegments_outcome cell_A 180).
    split; [discriminate |]. split; [lia |]. repeat constructor; discriminate.
Defined.

(** ** Cell::getTimeSegments: shape of the result *)

Section SegmentShape.
Context `{Clock}.

Lemma segment_from_window (gap : Z) (rest : list tm) :
  0 <= gap ->
  forall start prev : tm,
    mktime prev - mktime start <= gap ->
    let segs := segment_from gap start prev rest in
    Forall (fun p => mktime p.2 - mktime p.1 <= gap) segs /\
    forall (k : nat) (a b : TIMEPAIR),
      segs !! k = Some a -> segs !! S k = Some b -> gap < mktime b.1 - mktime a.1.
Proof.
  intros Hgap. induction rest as [| t rest IH]; intros start prev Hwin; simpl.
  - split; [repeat constructor; exact Hwin |]. intros [| k] a b Ha Hb; discriminate.
  - destruct (Z.leb_spec (mktime t - mktime start) gap) as [Hin | Hout].
    + now apply IH.
    + destruct (IH t t ltac:(lia)) as [Hspan Hnext].
      split; [constructor; [exact Hwin | exact Hspan] |].
      intros [| k] a b Ha Hb; cbn in Ha, Hb.
      * injection Ha as <-.
        destruct (segment_from_head gap rest t t) as (e & tl & Heq).
        rewrite Heq in Hb. injection Hb as <-. simpl. lia.
      * now apply (Hnext k).
Qed.

Lemma default_last_cons {A : Type} (d t : A) (rest : list A) :
  default d (last (t :: rest)) = default t (last rest).
Proof.
  destruct rest as [| t' rest]; [reflexivity |]. rewrite last_cons_cons.
  destruct (last (t' :: rest)) eqn:Hl; [reflexivity |].
  now apply last_None in Hl.
Qed.

Lemma segment_from_count (gap : Z) (rest : list tm) :
  forall start prev : tm,
    let segs := segment_from gap start prev rest in
    (1 <= length segs <= S (length rest))%nat /\
    Forall (fun p => p.1 ∈ start :: rest /\ p.2 ∈ start :: prev :: rest) segs /\
    (exists e tl, segs = (start, e) :: tl) /\
    (exists s l, segs = l ++ [(s, default prev (last rest))]).
Proof.
  induction rest as [| t rest IH]; intros start prev; simpl.
  - split; [lia |]. split; [repeat constructor; simpl; rewrite ?elem_of_cons; tauto |].
    split; [eauto |]. exists start, []. reflexivity.
  - destruct (mktime t - mktime start <=? gap).
    + destruct (IH start t) as (Hlen & Hfrom & Hhead & s & l & Hlast).
      split; [lia |]. split.
      { eapply Forall_impl; [exact Hfrom |]. cbn beta. intros p [H1 H2].
        rewrite ?elem_of_cons in *. tauto. }
      split; [exact Hhead |]. exists s, l.
      now rewrite Hlast, default_last_cons.
    + destruct (IH t t) as (Hlen & Hfrom & Hhead & s & l & Hlast).
      split; [simpl; lia |]. split.
      { constructor; [simpl; rewrite ?elem_of_cons; tauto |].
        eapply Forall_impl; [exact Hfrom |]. cbn beta. intros p [H1 H2].
        rewrite ?elem_of_cons in *. tauto. }
      split; [eauto |]. exists s, ((start, prev) :: l).
      now rewrite Hlast, default_last_cons.
Qed.

(** No more segments than rows, and at least one. *)
Lemma getTimeSegments_length (c : Cell.t) (interval : Z) (segs : list TIMEPAIR) :
  Cell.getTimeSegments c interval = Ret segs ->
  (1 <= length segs <= length (Cell.rowList_ c))%nat.
Proof.
  intros Hsegs. pose proof (getTimeSegments_Ret c interval segs Hsegs) as (Hne & Hint & Hconv).
  rewrite (getTimeSegments_spec c interval Hne Hconv Hint) in Hsegs.
  injection Hsegs as <-.
  destruct (Cell.rowList_ c) as [| r0 rest]; [congruence |]. simpl.
  destruct (segment_from_count interval (timestamps rest)
              (DataRow.getDateTime r0) (DataRow.getDateTime r0)) as (Hlen & _).
  unfold timestamps in Hlen. rewrite length_map in Hlen. exact Hlen.
Qed.

(** Every interval that [getTimeSegments] returns lasts at most [interval]
    seconds, and an interval starts more than [interval] seconds after the
    one before it started.  This holds whatever the order of the rows. *)
Theorem getTimeSegments_windows (c : Cell.t) (interval : Z) (segs : list TIMEPAIR) :
  Cell.getTimeSegments c interval = Ret segs ->
  Forall (fun p => mktime p.2 - mktime p.1 <= interval) segs /\
  forall (k : nat) (a b : TIMEPAIR),
    segs !! k = Some a -> segs !! S k = Some b ->
    interval < mktime b.1 - mktime a.1.
Proof.
  intros Hsegs. pose proof (getTimeSegments_Ret c interval segs Hsegs) as (Hne & Hint & Hconv).
  rewrite (getTimeSegments_spec c interval Hne Hconv Hint) in Hsegs.
  injection Hsegs as <-.
  destruct (Cell.rowList_ c) as [| r0 rest]; [congruence |]. simpl.
  apply segment_from_window; lia.
Qed.

(** The intervals returned are at least one and at most as many as the
    rows; their ends are dates of rows of the cell; the first one starts at
    the first row and the last one ends at the last row. *)
Theorem getTimeSegments_from_rows (c : Cell.t) (interval : Z) (segs : list TIMEPAIR) :
  Cell.getTimeSegments c interval = Ret segs ->
  (1 <= length segs <= length (Cell.rowList_ c))%nat /\
  Forall (fun p => p.1 ∈ timestamps (Cell.rowList_ c) /\
                   p.2 ∈ timestamps (Cell.rowList_ c)) segs /\
  (fst <$> head segs) = head (timestamps (Cell.rowList_ c)) /\
  (snd <$> last segs) = last (timestamps (Cell.rowList_ c)).
Proof.
  intros Hsegs. split; [now apply (getTimeSegments_length c interval) |].
  pose proof (getTimeSegments_Ret c interval segs Hsegs) as (Hne & Hint & Hconv).
  rewrite (getTimeSegments_spec c interval Hne Hconv Hint) in Hsegs.
  injection Hsegs as <-.
  destruct (Cell.rowList_ c) as [| r0 rest]; [congruence |]. simpl.
  destruct (segment_from_count interval (timestamps rest)
              (DataRow.getDateTime r0) (DataRow.getDateTime r0))
    as (_ & Hfrom & (e & tl & Hhead) & s & l & Hlast).
  split; [| split].
  - eapply Forall_impl; [exact Hfrom |]. cbn beta. intros p [H1 H2].
    rewrite ?elem_of_cons in *. tauto.
  - now rewrite Hhead.
  - rewrite Hlast, last_snoc. simpl.
    destruct (last (DataRow.getDateTime r0 :: timestamps rest)) eqn:Hl.
    + rewrite <- (default_last_cons (DataRow.getDateTime r0)), Hl. reflexivity.
    + now apply last_None in Hl.
Qed.

End SegmentShape.

Lemma getTimeSegments_windows_witness :
  Forall (fun p : @TIMEPAIR epoch_clock => mktime p.2 - mktime p.1 <= 100)
         cell_A_segments /\
  forall (k : nat) (a b : @TIMEPAIR epoch_clock),
    cell_A_segments !! k = Some a -> cell_A_segments !! S k = Some b ->
    100 < mktime b.1 - mktime a.1.
Proof. apply (getTimeSegments_windows cell_A 100). reflexivity. Defined.

Lemma getTimeSegments_from_rows_witness :
  (1 <= length cell_A_segments <= length (Cell.rowList_ cell_A))%nat /\
  Forall (fun p => p.1 ∈ timestamps (Cell.rowList_ cell_A) /\
                   p.2 ∈ timestamps (Cell.rowList_ cell_A))
         cell_A_segments /\
  (fst <$> head cell_A_segments) = head (timestamps (Cell.rowList_ cell_A)) /\
  (snd <$> last cell_A_segments) = last (timestamps (Cell.rowList_ cell_A)).
Proof. apply (getTimeSegments_from_rows cell_A 100). reflexivity. Defined.

(** ** The queue's early exit *)

Section EarlyBreak.
Context `{Clock}.

Lemma early_break (q : PriorityQueue.t) (interval : Z)
    (cellTag : string) (num : Z) :
  PriorityQueue.top q = Some (cellTag, num) ->
  0 < interval ->
  num < 3600 ÷ interval ->
  forall (c : Cell.t) (segs : list TIMEPAIR),
    ranking_entry c ∈ q ->
    Cell.getTimeSegments c interval = Ret segs ->
    User.stayTimeOf segs interval < 3600.
Proof.
  intros Htop Hint Hnum c segs Hin Hsegs.
  unfold PriorityQueue.top in Htop.
  destruct (PriorityQueue.select q) as [[m rest] |] eqn:Hsel; [| discriminate].
  injection Htop as ->.
  destruct (select_Some q _ rest Hsel) as [_ Hmax].
  rewrite Forall_forall in Hmax. specialize (Hmax _ Hin).
  cbn in Hmax. unfold Cell.numConnections, size in Hmax.
  pose proof (getTimeSegments_length c interval segs Hsegs) as Hlen.
  rewrite Z.quot_div_nonneg in Hnum by lia.
  pose proof (Z.mul_div_le 3600 interval Hint) as Hdiv.
  unfold User.stayTimeOf, to_int, size.
  assert (Hprod : 0 <= Z.of_nat (length segs) * interval <= 3600 - interval) by nia.
  rewrite Z.mod_small; lia.
Qed.

(** When the count on top of the queue is below 3600 / interval, no cell
    that is still in the queue can have a stay time above 3600: the [break]
    of the search loses no cell. *)
Theorem early_break_loses_no_cell (q : PriorityQueue.t) (interval : Z)
    (cellTag : string) (num : Z) :
  PriorityQueue.top q = Some (cellTag, num) ->
  0 < interval ->
  num < 3600 ÷ interval ->
  forall (c : Cell.t) (segs : list TIMEPAIR),
    ranking_entry c ∈ q ->
    Cell.getTimeSegments c interval = Ret segs ->
    User.stayTimeOf segs interval < 3600.
Proof. apply early_break. Qed.

End EarlyBreak.

Lemma early_break_loses_no_cell_witness :
  User.stayTimeOf cell_A_segments 100 < 3600.
Proof.
  apply (@early_break_loses_no_cell epoch_clock [("A", 5); ("B", 1)] 100 "A" 5
           eq_refl ltac:(lia) ltac:(vm_compute; reflexivity) cell_A cell_A_segments).
  - apply list_elem_of_here.
  - reflexivity.
Defined.

(** ** merge: when it returns *)

Section MergeReturns.
Context `{Clock}.

Lemma dated_getTimeValue (p : TIMEPAIR) :
  dated p ->
  getTimeValue p.1 = Ret (mktime p.1) /\ getTimeValue p.2 = Ret (mktime p.2).
Proof. intros [H1 H2]. split; now apply getTimeValue_convertible. Qed.

Lemma consider_dated (l : list TIMEPAIR) (x : TIMEPAIR) :
  Forall dated l -> dated x ->
  exists m, consider l x = Ret m /\ Forall dated m /\ m <> [] /\
            (length l <= length m <= length l + 1)%nat.
Proof.
  intros Hl Hx. destruct (last l) as [back |] eqn:Hlast.
  - apply last_Some in Hlast as [l' ->].
    apply Forall_app in Hl as [Hl' Hback]. apply Forall_cons in Hback as [Hback _].
    rewrite (consider_nonempty l' back x) by (destruct Hback, Hx; assumption).
    destruct (mktime back.2 <? mktime x.1).
    + eexists. split; [reflexivity |]. split.
      { apply Forall_app. split; [exact Hl' |].
        constructor; [exact Hback | constructor; [exact Hx | constructor]]. }
      split; [now destruct l' |]. rewrite !length_app. simpl. lia.
    + eexists. split; [reflexivity |]. split.
      { apply Forall_app. split; [exact Hl' |].
        constructor; [| constructor]. split; simpl; [apply Hback |].
        destruct (mktime back.2 <? mktime x.2); [apply Hx | apply Hback]. }
      split; [now destruct l' |]. rewrite !length_app. simpl. lia.
  - apply last_None in Hlast as ->. exists [x].
    split; [reflexivity |]. split; [constructor; [exact Hx | constructor] |].
    split; [discriminate | simpl; lia].
Qed.

Variables v1 v2 : list TIMEPAIR.
Hypothesis Hv1 : Forall dated v1.
Hypothesis Hv2 : Forall dated v2.

Lemma merge_turn_ok (s : merge_vars) :
  loop_ok v1 v2 s ->
  (idx1 s <=? size v1) && (idx2 s <=? size v2) = true ->
  exists s1 x m,
    merge_select v1 v2 s = Ret s1 /\
    vec_at (deref v1 v2 (target s1)) (idxTarget s1) = Ret x /\
    consider (merged s1) x = Ret m /\ m <> [] /\
    loop_ok v1 v2 (MergeVars m (target s1) (idx1 s1) (idx2 s1) (idxTarget s1)).
Proof.
  intros (H1 & H2 & Hm & Hlen & Hsome) Hcond.
  apply andb_true_iff in Hcond as [Hc1 Hc2]. apply Z.leb_le in Hc1, Hc2.
  specialize (Hsome Hc1 Hc2).
  assert (Hat : forall (v : list TIMEPAIR) (i : Z),
             Forall dated v -> 0 <= i < size v ->
             exists x, vec_at v i = Ret x /\ dated x).
  { intros v i Hv Hi. destruct (vec_at_in_range v i Hi) as [x Hx]. exists x.
    split; [exact Hx |]. apply vec_at_Ret in Hx as [_ Hx].
    exact (proj1 (Forall_lookup _ _) Hv _ _ Hx). }
  assert (Hfinish : forall (t : target_of) (i1 i2 it : Z) (x : TIMEPAIR),
             vec_at (deref v1 v2 t) it = Ret x -> dated x ->
             0 <= i1 -> 0 <= i2 ->
             taken v1 v2 s + 1 <= Z.min i1 (size v1) + Z.min i2 (size v2) ->
             (i1 <= size v1 -> i2 <= size v2 -> i1 < size v1 \/ i2 < size v2) ->
             exists m,
               consider (merged s) x = Ret m /\ m <> [] /\
               loop_ok v1 v2 (MergeVars m t i1 i2 it)).
  { intros t i1 i2 it x Hx Hdx Hi1 Hi2 Htaken Hnext.
    destruct (consider_dated (merged s) x Hm Hdx) as (m & Hcons & Hdm & Hne & Hml).
    exists m. split; [exact Hcons |]. split; [exact Hne |].
    unfold loop_ok, taken, size in *. cbn [idx1 idx2 merged]. repeat split; try assumption.
    lia. }
  unfold merge_select, taken in *.
  destruct (Z.ltb_spec (idx1 s) (size v1)) as [Hlt1 | Hge1];
    destruct (Z.ltb_spec (idx2 s) (size v2)) as [Hlt2 | Hge2]; cbn [andb].
  - destruct (Hat v1 (idx1 s) Hv1 ltac:(lia)) as (a & Ha & Hda).
    destruct (Hat v2 (idx2 s) Hv2 ltac:(lia)) as (b & Hb & Hdb).
    rewrite Ha, Hb. cbn [bind].
    rewrite (proj1 (dated_getTimeValue a Hda)), (proj1 (dated_getTimeValue b Hdb)).
    cbn [bind]. destruct (mktime a.1 <? mktime b.1).
    + destruct (Hfinish V1 (idx1 s + 1) (idx2 s) (idx1 s) a Ha Hda) as (m & Hc & Hne & Hok);
        try lia.
      exists (MergeVars (merged s) V1 (idx1 s + 1) (idx2 s) (idx1 s)), a, m. auto.
    + destruct (Hfinish V2 (idx1 s) (idx2 s + 1) (idx2 s) b Hb Hdb) as (m & Hc & Hne & Hok);
        try lia.
      exists (MergeVars (merged s) V2 (idx1 s) (idx2 s + 1) (idx2 s)), b, m. auto.
  - destruct (Z.eqb_spec (idx1 s) (size v1)); [lia |].
    destruct (Z.eqb_spec (idx2 s) (size v2)); [| lia].
    destruct (Hat v1 (idx1 s) Hv1 ltac:(lia)) as (a & Ha & Hda).
    destruct (Hfinish V1 (idx1 s + 1) (idx2 s + 1) (idx1 s) a Ha Hda) as (m & Hc & Hne & Hok);
      try lia.
    exists (MergeVars (merged s) V1 (idx1 s + 1) (idx2 s + 1) (idx1 s)), a, m. auto.
  - destruct (Z.eqb_spec (idx1 s) (size v1)); [| lia].
    destruct (Hat v2 (idx2 s) Hv2 ltac:(lia)) as (b & Hb & Hdb).
    destruct (Hfinish V2 (idx1 s + 1) (idx2 s + 1) (idx2 s) b Hb Hdb) as (m & Hc & Hne & Hok);
      try lia.
    exists (MergeVars (merged s) V2 (idx1 s + 1) (idx2 s + 1) (idx2 s)), b, m. auto.
  - lia.
Qed.

Lemma merge_loop_ok (fuel : nat) :
  forall s : merge_vars,
    loop_ok v1 v2 s ->
    (size v1 + 1 - idx1 s) + (size v2 + 1 - idx2 s) <= Z.of_nat fuel ->
    exists s', merge_loop fuel v1 v2 s = Ret s' /\ loop_ok v1 v2 s' /\
               (idx1 s' <=? size v1) && (idx2 s' <=? size v2) = false /\
               (merged s <> [] \/ (idx1 s <=? size v1) && (idx2 s <=? size v2) = true ->
                merged s' <> []).
Proof.
  induction fuel as [| fuel IH]; intros s Hok Hfuel; cbn [merge_loop];
    destruct ((idx1 s <=? size v1) && (idx2 s <=? size v2)) eqn:Hcond.
  - apply andb_true_iff in Hcond as [Hc1 Hc2]. apply Z.leb_le in Hc1, Hc2. lia.
  - exists s. split; [reflexivity |]. split; [exact Hok |]. split; [exact Hcond |].
    intros [Hne | ?]; [exact Hne | discriminate].
  - destruct (merge_turn_ok s Hok Hcond) as (s1 & x & m & Hsel & Hx & Hcons & Hne & Hok1).
    rewrite Hsel. cbn [bind]. rewrite Hx. cbn [bind]. rewrite Hcons. cbn [bind].
    pose proof (merge_select_progress v1 v2 s s1 Hcond Hsel) as Hprog.
    destruct (IH _ Hok1) as (s' & Hloop & Hok' & Hdone & Hkeep).
    { cbn [idx1 idx2]. lia. }
    exists s'. split; [exact Hloop |]. split; [exact Hok' |]. split; [exact Hdone |].
    intros _. apply Hkeep. left. exact Hne.
  - exists s. split; [reflexivity |]. split; [exact Hok |]. split; [exact Hcond |].
    intros [Hne | ?]; [exact Hne | discriminate].
Qed.

Lemma merge_dated :
  v1 <> [] \/ v2 <> [] ->
  exists m, merge v1 v2 = Ret m /\ m <> [] /\ Forall dated m /\
            (length m <= length v1 + length v2)%nat.
Proof.
  intros Hne. unfold merge.
  destruct (merge_loop_ok (length v1 + length v2 + 2) (MergeVars [] V1 0 0 0))
    as (s & Hloop & (H1 & H2 & Hm & Hlen & _) & Hdone & Hkeep).
  { unfold loop_ok, taken, size. cbn [idx1 idx2 merged length].
    repeat split; try lia; [constructor |].
    intros _ _. destruct Hne as [Hne | Hne]; [left | right];
      (destruct v1, v2; simpl; try congruence; lia). }
  { unfold size. cbn [idx1 idx2]. lia. }
  rewrite Hloop. cbn [bind]. eexists. split; [reflexivity |].
  assert (Hs : merged s <> []).
  { apply Hkeep. right. cbn [idx1 idx2]. unfold size.
    apply andb_true_iff. split; apply Z.leb_le; lia. }
  unfold merge_tails, taken, size in *.
  destruct (Z.ltb_spec (idx1 s) (Z.of_nat (length v1)));
    destruct (Z.ltb_spec (idx2 s) (Z.of_nat (length v2)));
    repeat split; rewrite ?Forall_app, ?length_app, ?length_drop;
    repeat split; try assumption; try (now apply Forall_drop); try lia;
    try (intros Heq; repeat apply app_eq_nil in Heq as [Heq _]; contradiction).
Qed.

End MergeReturns.

(** Unless both lists are empty, [merge] of two lists whose dates all
    convert returns a list: it is not empty, it is no longer than the two
    lists together, and its dates convert. *)
Theorem merge_returns `{Clock} (v1 v2 : list TIMEPAIR) :
  Forall dated v1 -> Forall dated v2 -> v1 <> [] \/ v2 <> [] ->
  exists m, merge v1 v2 = Ret m /\ m <> [] /\ Forall dated m /\
            (length m <= length v1 + length v2)%nat.
Proof. intros Hv1 Hv2. now apply merge_dated. Qed.

Lemma merge_returns_witness :
  exists m, @merge epoch_clock [(0, 100)] [(1, 2); (3, 4)] = Ret m /\ m <> [] /\
            Forall dated m /\ (length m <= 1 + 2)%nat.
Proof.
  apply (@merge_returns epoch_clock [(0, 100)] [(1, 2); (3, 4)]).
  - repeat constructor; discriminate.
  - repeat constructor; discriminate.
  - left. discriminate.
Defined.

(** ** merge as a recursion on its two lists *)

Section Weave.
Context `{Clock}.

Lemma weave_unfold (merged v1 v2 : list TIMEPAIR) :
  weave merged v1 v2 =
    match v1, v2 with
    | [], [] => merged
    | [], b :: v2' => place merged b ++ v2'
    | a :: v1', [] => place merged a ++ v1'
    | a :: v1', b :: v2' =>
        if mktime a.1 <? mktime b.1
        then weave (place merged a) v1' (b :: v2')
        else weave (place merged b) (a :: v1') v2'
    end.
Proof. destruct v1, v2; reflexivity. Qed.

Lemma consider_place (merged : list TIMEPAIR) (x : TIMEPAIR) :
  Forall dated merged -> dated x -> consider merged x = Ret (place merged x).
Proof.
  intros Hm Hx. unfold place. destruct (last merged) as [back |] eqn:Hlast.
  - apply last_Some in Hlast as [l ->].
    apply Forall_app in Hm as [_ Hback]. apply Forall_cons in Hback as [Hback _].
    rewrite (consider_nonempty l back x) by (destruct Hback, Hx; assumption).
    rewrite removelast_last.
    destruct (mktime back.2 <? mktime x.1); [| reflexivity].
    now rewrite <- app_assoc.
  - apply last_None in Hlast as ->. reflexivity.
Qed.

Lemma place_dated (merged : list TIMEPAIR) (x : TIMEPAIR) :
  Forall dated merged -> dated x -> Forall dated (place merged x).
Proof.
  intros Hm Hx. destruct (consider_dated merged x Hm Hx) as (m & Hc & Hd & _).
  rewrite (consider_place merged x Hm Hx) in Hc. now injection Hc as <-.
Qed.

Lemma drop_past_middle {A : Type} (pre : list A) (a : A) (suf : list A) :
  drop (length pre + 1) (pre ++ a :: suf) = suf.
Proof.
  rewrite (cons_middle a pre suf), app_assoc.
  apply drop_app_length'. rewrite length_app. simpl. lia.
Qed.

Lemma merge_loop_weave (v1 v2 : list TIMEPAIR) :
  Forall dated v1 -> Forall dated v2 ->
  forall (n : nat) (suf1 suf2 pre1 pre2 out : list TIMEPAIR)
         (tgt : target_of) (it : Z) (fuel : nat),
    (length suf1 + length suf2 = n)%nat ->
    v1 = pre1 ++ suf1 -> v2 = pre2 ++ suf2 ->
    Forall dated out ->
    suf1 <> [] \/ suf2 <> [] ->
    (n + 1 <= fuel)%nat ->
    (s <- merge_loop fuel v1 v2
            (MergeVars out tgt (Z.of_nat (length pre1)) (Z.of_nat (length pre2)) it) ;;
     Ret (merge_tails v1 v2 s)) = Ret (weave out suf1 suf2).
Proof.
  intros Hv1 Hv2. induction n as [| n IH];
    intros suf1 suf2 pre1 pre2 out tgt it fuel Hn E1 E2 Hm Hne Hfuel.
  { destruct suf1, suf2; simpl in Hn; try lia. destruct Hne; congruence. }
  destruct fuel as [| fuel]; [lia |].
  assert (Hd1 : Forall dated suf1) by (rewrite E1 in Hv1; now apply Forall_app in Hv1).
  assert (Hd2 : Forall dated suf2) by (rewrite E2 in Hv2; now apply Forall_app in Hv2).
  assert (L1 : length v1 = (length pre1 + length suf1)%nat) by (now rewrite E1, length_app).
  assert (L2 : length v2 = (length pre2 + length suf2)%nat) by (now rewrite E2, length_app).
  rewrite weave_unfold.
  destruct suf1 as [| a s1], suf2 as [| b s2]; cbn [length] in *.
  - destruct Hne; congruence.
  - (* v1 has run out *)
    apply Forall_cons in Hd2 as [Hb Hd2].
    assert (Hvb : vec_at v2 (Z.of_nat (length pre2)) = Ret b).
    { apply vec_at_nat. rewrite E2. apply list_lookup_middle. reflexivity. }
    merge_turn. cbn [bind target idxTarget deref merged idx1 idx2].
    rewrite Hvb. cbn [bind]. rewrite (consider_place out b Hm Hb). cbn [bind].
    rewrite merge_loop_done by (cbn [idx1 idx2]; unfold size; cmp; reflexivity).
    cbn [bind]. unfold merge_tails, size. cbn [idx1 idx2 merged]. cmp.
    + rewrite E2 at 1.
      replace (Z.to_nat (Z.of_nat (length pre2) + 1)) with (length pre2 + 1)%nat by lia.
      now rewrite drop_past_middle.
    + destruct s2; [now rewrite app_nil_r | simpl in *; lia].
  - (* v2 has run out *)
    apply Forall_cons in Hd1 as [Ha Hd1].
    assert (Hva : vec_at v1 (Z.of_nat (length pre1)) = Ret a).
    { apply vec_at_nat. rewrite E1. apply list_lookup_middle. reflexivity. }
    merge_turn. cbn [bind target idxTarget deref merged idx1 idx2].
    rewrite Hva. cbn [bind]. rewrite (consider_place out a Hm Ha). cbn [bind].
    rewrite merge_loop_done by (cbn [idx1 idx2]; unfold size; cmp; reflexivity).
    cbn [bind]. unfold merge_tails, size. cbn [idx1 idx2 merged]. cmp.
    + rewrite E1 at 1.
      replace (Z.to_nat (Z.of_nat (length pre1) + 1)) with (length pre1 + 1)%nat by lia.
      now rewrite drop_past_middle.
    + destruct s1; [now rewrite app_nil_r | simpl in *; lia].
  - (* both lists have an interval *)
    apply Forall_cons in Hd1 as [Ha Hd1]. apply Forall_cons in Hd2 as [Hb Hd2].
    assert (Hva : vec_at v1 (Z.of_nat (length pre1)) = Ret a).
    { apply vec_at_nat. rewrite E1. apply list_lookup_middle. reflexivity. }
    assert (Hvb : vec_at v2 (Z.of_nat (length pre2)) = Ret b).
    { apply vec_at_nat. rewrite E2. apply list_lookup_middle. reflexivity. }
    cbn [merge_loop idx1 idx2]. unfold size.
    destruct (Z.leb_spec (Z.of_nat (length pre1)) (Z.of_nat (length v1))); [| lia].
    destruct (Z.leb_spec (Z.of_nat (length pre2)) (Z.of_nat (length v2))); [| lia].
    cbn [andb]. unfold merge_select. cbn [idx1 idx2 merged]. unfold size.
    destruct (Z.ltb_spec (Z.of_nat (length pre1)) (Z.of_nat (length v1))); [| lia].
    destruct (Z.ltb_spec (Z.of_nat (length pre2)) (Z.of_nat (length v2))); [| lia].
    cbn [andb]. rewrite Hva, Hvb. cbn [bind].
    rewrite (proj1 (dated_getTimeValue a Ha)), (proj1 (dated_getTimeValue b Hb)).
    cbn [bind]. destruct (mktime a.1 <? mktime b.1);
      cbn [bind target idxTarget deref merged idx1 idx2].
    + rewrite Hva. cbn [bind]. rewrite (consider_place out a Hm Ha). cbn [bind].
      replace (Z.of_nat (length pre1) + 1) with (Z.of_nat (length (pre1 ++ [a])))
        by (rewrite length_app; simpl; lia).
      apply (IH s1 (b :: s2) (pre1 ++ [a]) pre2); simpl; try lia; try assumption.
      * now rewrite <- app_assoc.
      * now apply place_dated.
      * right. discriminate.
    + rewrite Hvb. cbn [bind]. rewrite (consider_place out b Hm Hb). cbn [bind].
      replace (Z.of_nat (length pre2) + 1) with (Z.of_nat (length (pre2 ++ [b])))
        by (rewrite length_app; simpl; lia).
      apply (IH (a :: s1) s2 pre1 (pre2 ++ [b])); simpl; try lia; try assumption.
      * now rewrite <- app_assoc.
      * now apply place_dated.
      * left. discriminate.
Qed.

(** [merge] is [weave] from an empty output. *)
Lemma merge_weave (v1 v2 : list TIMEPAIR) :
  Forall dated v1 -> Forall dated v2 -> v1 <> [] \/ v2 <> [] ->
  merge v1 v2 = Ret (weave [] v1 v2).
Proof.
  intros Hv1 Hv2 Hne. unfold merge.
  apply (merge_loop_weave v1 v2 Hv1 Hv2 (length v1 + length v2) v1 v2 [] []);
    try reflexivity; try assumption; [constructor | lia].
Qed.

End Weave.

(** ** merge as the test for shared time *)

Section Detection.
Context `{Clock}.

Lemma place_push (merged : list TIMEPAIR) (x : TIMEPAIR) :
  (forall back, last merged = Some back -> mktime back.2 < mktime x.1) ->
  place merged x = merged ++ [x].
Proof.
  intros Hback. unfold place. destruct (last merged) as [back |]; [| reflexivity].
  specialize (Hback back eq_refl).
  destruct (Z.ltb_spec (mktime back.2) (mktime x.1)); [reflexivity | lia].
Qed.

Lemma place_fold (merged : list TIMEPAIR) (back x : TIMEPAIR) :
  last merged = Some back -> mktime x.1 <= mktime back.2 ->
  length (place merged x) = length merged.
Proof.
  intros Hlast Hle. unfold place. rewrite Hlast.
  destruct (Z.ltb_spec (mktime back.2) (mktime x.1)); [lia |].
  apply last_Some in Hlast as [l ->].
  rewrite removelast_last, !length_app. reflexivity.
Qed.

Lemma place_length (merged : list TIMEPAIR) (x : TIMEPAIR) :
  (length merged <= length (place merged x) <= length merged + 1)%nat.
Proof.
  unfold place. destruct (last merged) as [back |] eqn:Hlast.
  - destruct (mktime back.2 <? mktime x.1); [rewrite length_app; simpl; lia |].
    apply last_Some in Hlast as [l ->].
    rewrite removelast_last, !length_app. simpl. lia.
  - rewrite length_app. simpl. lia.
Qed.

Lemma weave_length (n : nat) :
  forall merged v1 v2 : list TIMEPAIR,
    (length v1 + length v2 = n)%nat ->
    (length merged <= length (weave merged v1 v2) <= length merged + length v1 + length v2)%nat.
Proof.
  induction n as [| n IH]; intros merged v1 v2 Hn; rewrite weave_unfold;
    destruct v1 as [| a s1], v2 as [| b s2]; simpl in Hn; try lia.
  - rewrite length_app. pose proof (place_length merged b). simpl. lia.
  - rewrite length_app. pose proof (place_length merged a). simpl. lia.
  - destruct (mktime a.1 <? mktime b.1).
    + pose proof (place_length merged a).
      pose proof (IH (place merged a) s1 (b :: s2) ltac:(simpl; lia)). simpl in *. lia.
    + pose proof (place_length merged b).
      pose proof (IH (place merged b) (a :: s1) s2 ltac:(simpl; lia)). simpl in *. lia.
Qed.

Lemma StronglySorted_middle {A : Type} (R : A -> A -> Prop) (pre : list A) (a : A)
    (suf : list A) :
  StronglySorted R (pre ++ a :: suf) ->
  Forall (fun p => R p a) pre /\ Forall (R a) suf.
Proof.
  induction pre as [| p pre IH]; simpl; intros Hs.
  - apply StronglySorted_inv in Hs as [_ Hs]. split; [constructor | exact Hs].
  - apply StronglySorted_inv in Hs as [Hs Hp]. destruct (IH Hs) as [Hpre Hsuf].
    split; [| exact Hsuf]. constructor; [| exact Hpre].
    rewrite Forall_forall in Hp. apply Hp. apply elem_of_app. right. left.
Qed.

(** In a separated list every interval ends before the later ones start. *)
Lemma separated_middle (pre : list TIMEPAIR) (a : TIMEPAIR) (suf : list TIMEPAIR) :
  separated (pre ++ a :: suf) ->
  well_formed a /\
  (forall p, p ∈ pre -> mktime p.2 < mktime a.1) /\
  (forall x, x ∈ suf -> mktime a.2 < mktime x.1).
Proof.
  intros (Hwf & Hsorted & Hno).
  apply Sorted_StronglySorted in Hsorted; [| intros x y z; unfold starts_before; lia].
  apply StronglySorted_middle in Hsorted as [Hpre Hsuf].
  assert (Ha : (pre ++ a :: suf) !! length pre = Some a) by now rewrite list_lookup_middle.
  rewrite Forall_forall in Hwf, Hpre, Hsuf.
  assert (Hwa : well_formed a).
  { apply Hwf. apply elem_of_app. right. left. }
  split; [exact Hwa |]. destruct Hwa as (_ & _ & Hale). split.
  - intros p Hp. specialize (Hpre p Hp). unfold starts_before in Hpre.
    apply list_elem_of_lookup in Hp as [i Hi].
    assert (Hi' : (pre ++ a :: suf) !! i = Some p) by now apply lookup_app_l_Some.
    apply lookup_lt_Some in Hi.
    specialize (Hno i (length pre) p a Hi Hi' Ha). unfold overlap_or_touch in Hno.
    assert (Hwp : well_formed p).
    { apply Hwf. apply list_elem_of_lookup. eauto. }
    destruct Hwp as (_ & _ & Hple). lia.
  - intros x Hx. specialize (Hsuf x Hx). unfold starts_before in Hsuf.
    apply list_elem_of_lookup in Hx as [i Hi].
    assert (Hi' : (pre ++ a :: suf) !! (length pre + S i)%nat = Some x).
    { rewrite lookup_app_r; [| apply Nat.le_add_r].
      rewrite Nat.add_comm, Nat.add_sub. exact Hi. }
    specialize (Hno (length pre) (length pre + S i)%nat a x ltac:(lia) Ha Hi').
    unfold overlap_or_touch in Hno.
    assert (Hwx : well_formed x).
    { apply Hwf. apply list_elem_of_lookup. eauto. }
    destruct Hwx as (_ & _ & Hxle). lia.
Qed.

Lemma classic_last_before (merged : list TIMEPAIR) (x : TIMEPAIR) :
  (forall back, last merged = Some back -> mktime back.2 < mktime x.1) \/
  (exists back, last merged = Some back /\ mktime x.1 <= mktime back.2).
Proof.
  destruct (last merged) as [back |]; [| left; discriminate].
  destruct (Z.lt_ge_cases (mktime back.2) (mktime x.1)).
  - left. now intros back' [= <-].
  - right. eauto.
Qed.

Lemma unfolded_last_before (merged pre1 pre2 suf1 suf2 : list TIMEPAIR) (x : TIMEPAIR) :
  unfolded merged pre1 pre2 suf1 suf2 ->
  (forall back, last merged = Some back -> mktime back.2 < mktime x.1) ->
  forall p, p ∈ pre1 ++ pre2 -> mktime p.2 < mktime x.1.
Proof.
  intros (_ & Hnil & Hback) Hlt p Hp.
  destruct (last merged) as [back |] eqn:Hlast.
  - destruct (Hback back eq_refl) as (_ & Hmax & _).
    specialize (Hmax p Hp). specialize (Hlt back eq_refl). lia.
  - apply last_None in Hlast. destruct (Hnil Hlast) as [-> ->].
    now apply elem_of_nil in Hp.
Qed.

Lemma weave_detects (n : nat) :
  forall suf1 suf2 pre1 pre2 merged : list TIMEPAIR,
    (length suf1 + length suf2 = n)%nat ->
    separated (pre1 ++ suf1) -> separated (pre2 ++ suf2) ->
    unfolded merged pre1 pre2 suf1 suf2 ->
    (length (weave merged suf1 suf2) < length merged + length suf1 + length suf2)%nat
    <-> cross (pre1 ++ suf1) (pre2 ++ suf2).
Proof.
  induction n as [| n IH]; intros suf1 suf2 pre1 pre2 merged Hn Hs1 Hs2 Hun;
    rewrite weave_unfold; destruct suf1 as [| a s1], suf2 as [| b s2];
    simpl in Hn; try lia.
  - (* nothing left *)
    rewrite !app_nil_r. destruct Hun as (Hno & _). split; [simpl; lia | tauto].
  - (* v1 has run out: one more interval of v2, then its tail *)
    rewrite app_nil_r in *.
    destruct (separated_middle pre2 b s2 Hs2) as ((_ & _ & Hble) & Hbpre & Hbsuf).
    destruct (last merged) as [back |] eqn:Hlast.
    2:{ apply last_None in Hlast. destruct Hun as (_ & Hnil & _).
        destruct (Hnil Hlast) as [-> _]. subst merged. simpl.
        split; [lia |]. intros (a & _ & Ha & _). now apply elem_of_nil in Ha. }
    destruct Hun as (Hno & Hnil & Hback).
    destruct (Hback back Hlast) as (Hfrom & Hmax & Hmin).
    destruct (Z.lt_ge_cases (mktime back.2) (mktime b.1)) as [Hlt | Hge].
    + rewrite place_push by (intros back'; rewrite Hlast; intros [= <-]; exact Hlt).
      rewrite !length_app. simpl. split; [lia |].
      intros (a' & b' & Ha' & Hb' & Hov). exfalso.
      assert (Ha2 : mktime a'.2 < mktime b.1).
      { specialize (Hmax a' ltac:(apply elem_of_app; now left)). lia. }
      apply elem_of_app in Hb' as [Hb' | Hb'].
      * apply Hno. exists a', b'. auto.
      * apply elem_of_cons in Hb' as [-> | Hb']; unfold overlap_or_touch in Hov;
          [lia | specialize (Hbsuf b' Hb'); lia].
    + rewrite length_app, (place_fold merged back b Hlast Hge). simpl. split; [| lia].
      intros _. destruct Hfrom as [Hfrom | Hfrom].
      * exists back, b. split; [exact Hfrom |]. split; [apply elem_of_app; right; left |].
        specialize (Hmin b ltac:(left)). unfold overlap_or_touch. lia.
      * specialize (Hbpre back Hfrom). lia.
  - (* v2 has run out: one more interval of v1, then its tail *)
    rewrite app_nil_r in *.
    destruct (separated_middle pre1 a s1 Hs1) as ((_ & _ & Hale) & Hapre & Hasuf).
    destruct (last merged) as [back |] eqn:Hlast.
    2:{ apply last_None in Hlast. destruct Hun as (_ & Hnil & _).
        destruct (Hnil Hlast) as [_ ->]. subst merged. simpl.
        split; [lia |]. intros (a' & b' & _ & Hb' & _). now apply elem_of_nil in Hb'. }
    destruct Hun as (Hno & Hnil & Hback).
    destruct (Hback back Hlast) as (Hfrom & Hmax & Hmin).
    destruct (Z.lt_ge_cases (mktime back.2) (mktime a.1)) as [Hlt | Hge].
    + rewrite place_push by (intros back'; rewrite Hlast; intros [= <-]; exact Hlt).
      rewrite !length_app. simpl. split; [lia |].
      intros (a' & b' & Ha' & Hb' & Hov). exfalso.
      assert (Hb2 : mktime b'.2 < mktime a.1).
      { specialize (Hmax b' ltac:(apply elem_of_app; now right)). lia. }
      apply elem_of_app in Ha' as [Ha' | Ha'].
      * apply Hno. exists a', b'. auto.
      * apply elem_of_cons in Ha' as [-> | Ha']; unfold overlap_or_touch in Hov;
          [lia | specialize (Hasuf a' Ha'); lia].
    + rewrite length_app, (place_fold merged back a Hlast Hge). simpl. split; [| lia].
      intros _. destruct Hfrom as [Hfrom | Hfrom].
      * specialize (Hapre back Hfrom). lia.
      * exists a, back. split; [apply elem_of_app; right; left |]. split; [exact Hfrom |].
        specialize (Hmin a ltac:(left)). unfold overlap_or_touch. lia.
  - (* both lists have an interval *)
    destruct (separated_middle pre1 a s1 Hs1) as ((_ & _ & Hale) & Hapre & Hasuf).
    destruct (separated_middle pre2 b s2 Hs2) as ((_ & _ & Hble) & Hbpre & Hbsuf).
    destruct (Z.ltb_spec (mktime a.1) (mktime b.1)) as [Hab | Hba].
    + (* the interval of v1 is placed *)
      destruct (classic_last_before merged a) as [Hlt | (back & Hlast & Hge)].
      * rewrite place_push by exact Hlt.
        pose proof (unfolded_last_before _ _ _ _ _ a Hun Hlt) as Hall.
        destruct Hun as (Hno & Hnil & Hback).
        enough (Hun' : unfolded (merged ++ [a]) (pre1 ++ [a]) pre2 s1 (b :: s2)).
        { pose proof (IH s1 (b :: s2) (pre1 ++ [a]) pre2 (merged ++ [a])
                        ltac:(simpl; lia) ltac:(now rewrite <- app_assoc) Hs2 Hun') as IHa.
          rewrite <- app_assoc, length_app in IHa. simpl in *. rewrite <- IHa.
          split; lia. }
        split; [| split].
        -- intros (a' & b' & Ha' & Hb' & Hov).
           apply elem_of_app in Ha' as [Ha' | Ha'].
           ++ apply Hno. exists a', b'. auto.
           ++ apply list_elem_of_singleton in Ha' as ->.
              specialize (Hall b' ltac:(apply elem_of_app; now right)).
              unfold overlap_or_touch in Hov. lia.
        -- intros Heq. now apply app_eq_nil in Heq as [_ Heq].
        -- intros back. rewrite last_snoc. intros [= <-]. split; [| split].
           ++ left. apply elem_of_app. right. left.
           ++ intros p Hp. rewrite <- app_assoc in Hp.
              apply elem_of_app in Hp as [Hp | Hp];
                [specialize (Hall p ltac:(apply elem_of_app; now left)); lia |].
              apply elem_of_cons in Hp as [-> | Hp]; [lia |].
              specialize (Hall p ltac:(apply elem_of_app; now right)). lia.
           ++ intros x Hx. apply elem_of_app in Hx as [Hx | Hx];
                [specialize (Hasuf x Hx); lia |].
              apply elem_of_cons in Hx as [-> | Hx]; [lia |].
              specialize (Hbsuf x Hx). lia.
      * pose proof (weave_length _ (place merged a) s1 (b :: s2) eq_refl) as Hlen.
        rewrite (place_fold merged back a Hlast Hge) in Hlen. simpl in Hlen |- *.
        split; [| lia]. intros _.
        destruct Hun as (Hno & Hnil & Hback).
        destruct (Hback back Hlast) as (Hfrom & Hmax & Hmin).
        destruct Hfrom as [Hfrom | Hfrom]; [specialize (Hapre back Hfrom); lia |].
        exists a, back. split; [apply elem_of_app; right; left |].
        split; [apply elem_of_app; now left |].
        specialize (Hmin a ltac:(left)). unfold overlap_or_touch. lia.
    + (* the interval of v2 is placed *)
      destruct (classic_last_before merged b) as [Hlt | (back & Hlast & Hge)].
      * rewrite place_push by exact Hlt.
        pose proof (unfolded_last_before _ _ _ _ _ b Hun Hlt) as Hall.
        destruct Hun as (Hno & Hnil & Hback).
        enough (Hun' : unfolded (merged ++ [b]) pre1 (pre2 ++ [b]) (a :: s1) s2).
        { pose proof (IH (a :: s1) s2 pre1 (pre2 ++ [b]) (merged ++ [b])
                        ltac:(simpl; lia) Hs1 ltac:(now rewrite <- app_assoc) Hun') as IHb.
          rewrite <- app_assoc, length_app in IHb. simpl in *. rewrite <- IHb.
          split; lia. }
        split; [| split].
        -- intros (a' & b' & Ha' & Hb' & Hov).
           apply elem_of_app in Hb' as [Hb' | Hb'].
           ++ apply Hno. exists a', b'. auto.
           ++ apply list_elem_of_singleton in Hb' as ->.
              specialize (Hall a' ltac:(apply elem_of_app; now left)).
              unfold overlap_or_touch in Hov. lia.
        -- intros Heq. now apply app_eq_nil in Heq as [_ Heq].
        -- intros back. rewrite last_snoc. intros [= <-]. split; [| split].
           ++ right. apply elem_of_app. right. left.
           ++ intros p Hp. rewrite app_assoc in Hp.
              apply elem_of_app in Hp as [Hp | Hp]; [specialize (Hall p Hp); lia |].
              apply list_elem_of_singleton in Hp as ->. lia.
           ++ intros x Hx. apply elem_of_app in Hx as [Hx | Hx];
                [| specialize (Hbsuf x Hx); lia].
              apply elem_of_cons in Hx as [-> | Hx]; [lia |].
              specialize (Hasuf x Hx). lia.
      * pose proof (weave_length _ (place merged b) (a :: s1) s2 eq_refl) as Hlen.
        rewrite (place_fold merged back b Hlast Hge) in Hlen. simpl in Hlen |- *.
        split; [| lia]. intros _.
        destruct Hun as (Hno & Hnil & Hback).
        destruct (Hback back Hlast) as (Hfrom & Hmax & Hmin).
        destruct Hfrom as [Hfrom | Hfrom]; [| specialize (Hbpre back Hfrom); lia].
        exists back, b. split; [apply elem_of_app; now left |].
        split; [apply elem_of_app; right; left |].
        specialize (Hmin b ltac:(apply elem_of_app; right; left)).
        unfold overlap_or_touch. lia.
Qed.

End Detection.

Section SharedTime.
Context `{Clock}.

Lemma separated_dated (l : list TIMEPAIR) : separated l -> Forall dated l.
Proof.
  intros (Hwf & _). eapply Forall_impl; [exact Hwf |].
  intros p (H1 & H2 & _). split; assumption.
Qed.

(** The test of [findResidentialAreaByTopKCells], line 123: for two lists of
    intervals that are each sorted and free of overlaps, [merge] returns fewer
    intervals than the two lists have together exactly when an interval of
    the one overlaps or touches an interval of the other. *)
Theorem merge_detects_shared_time (v1 v2 : list TIMEPAIR) :
  separated v1 -> separated v2 -> v1 <> [] \/ v2 <> [] ->
  exists m, merge v1 v2 = Ret m /\ (size m < size v1 + size v2 <-> cross v1 v2).
Proof.
  intros Hs1 Hs2 Hne. exists (weave [] v1 v2). split.
  - apply merge_weave; auto using separated_dated.
  - pose proof (weave_detects _ v1 v2 [] [] [] eq_refl Hs1 Hs2) as Hd.
    simpl in Hd. rewrite <- Hd.
    + unfold size. split; lia.
    + split; [| split].
      * intros (a & _ & Ha & _). now apply elem_of_nil in Ha.
      * auto.
      * discriminate.
Qed.

End SharedTime.

Lemma merge_detects_shared_time_witness :
  exists m, @merge epoch_clock [(0, 10); (20, 30)] [(30, 40)] = Ret m /\
            (size m < size [(0, 10); (20, 30)] + size [(30, 40)]
             <-> @cross epoch_clock [(0, 10); (20, 30)] [(30, 40)]).
Proof.
  apply (@merge_detects_shared_time epoch_clock);
    [concrete_separated | concrete_separated | left; discriminate].
Defined.

(** ** The segments of a cell whose rows are in order of time *)

Section SegmentsSeparated.
Context `{Clock}.

Lemma separated_cons (x : TIMEPAIR) (l : list TIMEPAIR) :
  well_formed x -> separated l ->
  (forall y, y ∈ l -> mktime x.2 < mktime y.1) ->
  separated (x :: l).
Proof.
  intros Hx (Hwf & Hsorted & Hno) Hlater. pose proof Hx as (_ & _ & Hle).
  split; [| split].
  - now constructor.
  - constructor; [exact Hsorted |]. destruct l as [| y l]; constructor.
    specialize (Hlater y ltac:(left)). unfold starts_before. lia.
  - intros [| i] [| j] a b Hij Ha Hb; try lia; simpl in Ha, Hb.
    + injection Ha as <-. intros (_ & Hov).
      specialize (Hlater b ltac:(apply list_elem_of_lookup; eauto)). lia.
    + apply (Hno i j a b); [lia | assumption | assumption].
Qed.

Lemma segment_from_separated (gap : Z) (rest : list tm) :
  0 <= gap ->
  forall start prev : tm,
    convertible start -> convertible prev -> Forall convertible rest ->
    mktime start <= mktime prev -> mktime prev - mktime start <= gap ->
    Sorted Z.le (map mktime (prev :: rest)) ->
    separated (segment_from gap start prev rest) /\
    Forall (fun p => mktime start <= mktime p.1) (segment_from gap start prev rest).
Proof.
  intros Hgap. induction rest as [| t rest IH];
    intros start prev Hcs Hcp Hcr Hsp Hwin Hsorted; simpl.
  - split; [| repeat constructor; simpl; lia].
    apply separated_cons.
    + repeat split; assumption.
    + split; [constructor |]. split; [constructor |]. intros i j a b _ Hi. discriminate.
    + intros y Hy. now apply elem_of_nil in Hy.
  - apply Forall_cons in Hcr as [Hct Hcr].
    simpl in Hsorted. apply Sorted_inv in Hsorted as [Hsorted Hhd].
    apply HdRel_inv in Hhd.
    destruct (Z.leb_spec (mktime t - mktime start) gap) as [Hin | Hout].
    + apply IH; try assumption; lia.
    + destruct (IH t t Hct Hct Hcr ltac:(lia) ltac:(lia) Hsorted) as [Hsep Hfrom].
      split.
      * apply separated_cons; [repeat split; assumption | exact Hsep |].
        intros y Hy. rewrite Forall_forall in Hfrom. specialize (Hfrom y Hy).
        simpl. lia.
      * constructor; [simpl; lia |].
        eapply Forall_impl; [exact Hfrom |]. intros p Hp. simpl in Hp. lia.
Qed.

(** On a cell whose rows are in ascending order of time, as [readFile]
    leaves them, [getTimeSegments] returns intervals that are well formed,
    sorted by start and free of overlaps: the list is what [merge] expects. *)
Theorem getTimeSegments_separated (c : Cell.t) (interval : Z) (segs : list TIMEPAIR) :
  sorted_by_time (Cell.rowList_ c) ->
  Cell.getTimeSegments c interval = Ret segs ->
  separated segs.
Proof.
  intros Hsorted Hsegs.
  pose proof (getTimeSegments_Ret c interval segs Hsegs) as (Hne & Hint & Hconv).
  rewrite (getTimeSegments_spec c interval Hne Hconv Hint) in Hsegs.
  injection Hsegs as <-. unfold sorted_by_time, all_convertible in *.
  destruct (Cell.rowList_ c) as [| r0 rest]; [congruence |]. simpl.
  apply Forall_cons in Hconv as [Hc0 Hcr].
  apply segment_from_separated; try assumption; try lia.
  unfold timestamps. rewrite Forall_map. exact Hcr.
Qed.

End SegmentsSeparated.

Lemma getTimeSegments_separated_witness : @separated epoch_clock cell_A_segments.
Proof.
  apply (getTimeSegments_separated cell_A 100); [| reflexivity].
  unfold sorted_by_time. simpl. repeat constructor; lia.
Defined.

(** ** Sorting with compareByTime *)

Section Sorting.
Context `{Clock}.

Lemma sorted_by_time_times (rows : list DataRow.t) :
  sorted_by_time rows <-> StronglySorted Z.le (map time_of rows).
Proof.
  unfold sorted_by_time, timestamps. rewrite map_map. split.
  - apply Sorted_StronglySorted. intros x y z. lia.
  - apply StronglySorted_Sorted.
Qed.

Lemma compareByTime_convertible (a b : DataRow.t) :
  convertible (DataRow.getDateTime a) -> convertible (DataRow.getDateTime b) ->
  DataRow.compareByTime a b = Ret (time_of a <? time_of b).
Proof.
  intros Ha Hb. unfold DataRow.compareByTime.
  rewrite (getTimeValue_convertible _ Ha), (getTimeValue_convertible _ Hb). cbn [bind].
  unfold time_of. f_equal.
  destruct (Z.ltb_spec (mktime (DataRow.getDateTime a) - mktime (DataRow.getDateTime b)) 0),
           (Z.ltb_spec (mktime (DataRow.getDateTime a)) (mktime (DataRow.getDateTime b)));
    (reflexivity || lia).
Qed.

Lemma compareByTime_Ret (a b : DataRow.t) (v : bool) :
  DataRow.compareByTime a b = Ret v ->
  convertible (DataRow.getDateTime a) /\ convertible (DataRow.getDateTime b) /\
  v = (time_of a <? time_of b).
Proof.
  intros Hv. pose proof Hv as Hv'. unfold DataRow.compareByTime in Hv'.
  apply bind_Ret in Hv' as (ta & Hta & Hv').
  apply bind_Ret in Hv' as (tb & Htb & _).
  apply getTimeValue_Ret in Hta as [Ha _]. apply getTimeValue_Ret in Htb as [Hb _].
  rewrite (compareByTime_convertible a b Ha Hb) in Hv. injection Hv as <-. auto.
Qed.

Lemma compareByTime_Fail (a b : DataRow.t) (f : failure) :
  DataRow.compareByTime a b = Fail f ->
  f = ExitCalled /\
  ~ (convertible (DataRow.getDateTime a) /\ convertible (DataRow.getDateTime b)).
Proof.
  unfold DataRow.compareByTime. intros Hf.
  destruct (getTimeValue (DataRow.getDateTime a)) as [ta | fa] eqn:Hta.
  - destruct (getTimeValue (DataRow.getDateTime b)) as [tb | fb] eqn:Htb;
      [discriminate |].
    simpl in Hf. injection Hf as <-.
    apply getTimeValue_Fail in Htb as [-> Hb]. split; [reflexivity | tauto].
  - simpl in Hf. injection Hf as <-.
    apply getTimeValue_Fail in Hta as [-> Ha]. split; [reflexivity | tauto].
Qed.

Lemma sort_insert_sorted (x : DataRow.t) (l : list DataRow.t) :
  forall r, StronglySorted Z.le (map time_of l) ->
            User.sort_insert x l = Ret r ->
            StronglySorted Z.le (map time_of r).
Proof.
  induction l as [| y l IH]; intros r Hl; simpl.
  - intros [= <-]. repeat constructor.
  - intros Hr. apply bind_Ret in Hr as (before & Hcmp & Hr).
    apply compareByTime_Ret in Hcmp as (_ & _ & ->).
    simpl in Hl. apply StronglySorted_inv in Hl as [Hl Hy].
    destruct (Z.ltb_spec (time_of x) (time_of y)) as [Hlt | Hge].
    + injection Hr as <-. simpl. constructor; [now constructor |].
      constructor; [lia |]. eapply Forall_impl; [exact Hy |]. simpl. intros z Hz. lia.
    + apply bind_Ret in Hr as (r' & Hr' & [= <-]). simpl.
      constructor; [now apply IH |].
      rewrite (sort_insert_Permutation _ _ _ Hr'). simpl. now constructor.
Qed.

Lemma sort_sorted (l : list DataRow.t) :
  forall r, User.sort l = Ret r -> sorted_by_time r.
Proof.
  intros r Hr. apply sorted_by_time_times. revert r Hr.
  induction l as [| x l IH]; intros r; simpl.
  - intros [= <-]. constructor.
  - intros Hr. apply bind_Ret in Hr as (s & Hs & Hr).
    exact (sort_insert_sorted x s r (IH s Hs) Hr).
Qed.

Lemma sort_insert_returns (x : DataRow.t) (l : list DataRow.t) :
  convertible (DataRow.getDateTime x) -> all_convertible l ->
  exists r, User.sort_insert x l = Ret r.
Proof.
  intros Hx. induction l as [| y l IH]; intros Hl; simpl; [eauto |].
  apply Forall_cons in Hl as [Hy Hl].
  rewrite (compareByTime_convertible x y Hx Hy). cbn [bind].
  destruct (time_of x <? time_of y); [eauto |].
  destruct (IH Hl) as [r ->]. cbn [bind]. eauto.
Qed.

Lemma sort_returns (l : list DataRow.t) :
  all_convertible l -> exists r, User.sort l = Ret r.
Proof.
  induction l as [| x l IH]; intros Hl; simpl; [eauto |].
  apply Forall_cons in Hl as [Hx Hl]. destruct (IH Hl) as [s Hs]. rewrite Hs. cbn [bind].
  apply sort_insert_returns; [exact Hx |].
  unfold all_convertible. now rewrite (sort_Permutation _ _ Hs).
Qed.

Lemma sort_compares (l : list DataRow.t) :
  forall r, User.sort l = Ret r -> (length l <= 1)%nat \/ all_convertible l.
Proof.
  induction l as [| x l IH]; intros r; simpl; [left; lia |].
  intros Hr. apply bind_Ret in Hr as (s & Hs & Hr).
  pose proof (sort_Permutation _ _ Hs) as Hperm.
  destruct s as [| y s].
  - apply Permutation_nil_l in Hperm as <-. left. simpl. lia.
  - right. simpl in Hr. apply bind_Ret in Hr as (before & Hcmp & _).
    apply compareByTime_Ret in Hcmp as (Hx & Hy & _).
    constructor; [exact Hx |].
    destruct (IH _ Hs) as [Hlen | Hall]; [| exact Hall].
    destruct l as [| z [| z' l]]; simpl in Hlen; try lia.
    + symmetry in Hperm. now apply Permutation_nil_cons in Hperm.
    + apply Permutation_singleton_r in Hperm. injection Hperm as -> ->.
      now repeat constructor.
Qed.

Lemma sort_insert_Fail (x : DataRow.t) (l : list DataRow.t) (f : failure) :
  User.sort_insert x l = Fail f -> f = ExitCalled.
Proof.
  induction l as [| y l IH]; simpl; [discriminate |].
  destruct (DataRow.compareByTime x y) as [[] |] eqn:Hcmp; cbn [bind].
  - discriminate.
  - destruct (User.sort_insert x l); [discriminate |]. intros [= <-]. now apply IH.
  - intros [= <-]. now apply compareByTime_Fail in Hcmp as [-> _].
Qed.

Lemma sort_Fail (l : list DataRow.t) (f : failure) :
  User.sort l = Fail f -> f = ExitCalled.
Proof.
  revert f. induction l as [| x l IH]; intros f; simpl; [discriminate |].
  destruct (User.sort l) as [s |]; cbn [bind].
  - apply sort_insert_Fail.
  - intros [= <-]. now apply IH.
Qed.

Lemma sort_total (l : list DataRow.t) :
  (length l <= 1)%nat \/ all_convertible l -> exists r, User.sort l = Ret r.
Proof.
  intros [Hlen | Hall]; [| now apply sort_returns].
  destruct l as [| x [| y l]]; simpl in Hlen; try lia; simpl; eauto.
Qed.

(** [std::sort] with [compareByTime]: what it returns is the same rows in
    ascending order of time; it returns when there is at most one row, which
    needs no comparison, or when every date can be converted; with two rows
    or more of which one has a date that cannot be converted, the comparison
    ends the process. *)
Theorem sort_outcome (l : list DataRow.t) :
  (forall r, User.sort l = Ret r -> sorted_by_time r /\ Permutation r l) /\
  ((length l <= 1)%nat \/ all_convertible l -> exists r, User.sort l = Ret r) /\
  ((2 <= length l)%nat -> ~ all_convertible l -> User.sort l = Fail ExitCalled).
Proof.
  split; [| split].
  - intros r Hr. split; [now apply (sort_sorted l) | now apply sort_Permutation].
  - apply sort_total.
  - intros Hlen Hnot. destruct (User.sort l) as [r | f] eqn:Hr.
    + apply sort_compares in Hr as [Hle | Hall]; [lia | contradiction].
    + now rewrite (sort_Fail l f Hr).
Qed.

End Sorting.

Lemma sort_outcome_witness :
  (forall r, @User.sort epoch_clock [row_at 7 "B"; row_at 0 "A"] = Ret r ->
             sorted_by_time r /\ Permutation r [row_at 7 "B"; row_at 0 "A"]) /\
  (exists r, @User.sort epoch_clock [row_at 7 "B"; row_at 0 "A"] = Ret r) /\
  @User.sort epoch_clock [row_at 7 "B"; row_at (-1) "A"] = Fail ExitCalled.
Proof.
  split; [apply (@sort_outcome epoch_clock) |].
  split.
  - apply (@sort_outcome epoch_clock). right.
    repeat constructor; unfold convertible; simpl; lia.
  - apply (@sort_outcome epoch_clock); [simpl; lia |].
    intros Hall. apply Forall_cons in Hall as [_ Hall].
    apply Forall_cons in Hall as [Hc _]. now apply Hc.
Defined.

(** ** What readFile builds *)

Section ReadFile.
Context `{Clock}.

Lemma with_tag_snoc (tag : string) (records : list DataRow.t) (d : DataRow.t) :
  with_tag tag (records ++ [d]) =
    with_tag tag records ++ (if decide (DataRow.getTag d = tag) then [d] else []).
Proof.
  unfold with_tag. rewrite filter_app. reflexivity.
Qed.

Lemma with_tag_none (tag : string) (records : list DataRow.t) :
  (forall r, r ∈ records -> DataRow.getTag r <> tag) -> with_tag tag records = [].
Proof.
  unfold with_tag. induction records as [| r records IH]; intros Hnone; [reflexivity |].
  rewrite filter_cons_False by (apply Hnone; left).
  apply IH. intros r' Hr'. apply Hnone. now right.
Qed.

Lemma addRow_indexed (records : list DataRow.t) (u u' : User.t) (d : DataRow.t) :
  indexed records u -> grouped records u -> User.rowList_ u = records ->
  User.addRow u d = Ret u' ->
  indexed (records ++ [d]) u' /\ grouped (records ++ [d]) u' /\
  User.rowList_ u' = records ++ [d].
Proof.
  intros (Hname & Hpos & Hall) Hgr Hrows. unfold User.addRow.
  destruct (User.cellMap_ u !! DataRow.getTag d) as [idx |] eqn:Hidx.
  - destruct (Hpos _ _ Hidx) as (Hidx0 & c0 & Hc0 & Htag0).
    rewrite (vec_at_lookup _ _ _ Hidx0 Hc0). cbn [bind]. intros [= <-].
    unfold indexed, grouped. cbn [User.cellList_ User.cellMap_ User.rowList_].
    assert (Hlt : (Z.to_nat idx < length (User.cellList_ u))%nat)
      by now apply lookup_lt_Some in Hc0.
    split; [split; [| split] | split].
    + intros i c Hc. destruct (decide (i = Z.to_nat idx)) as [-> | Hne].
      * rewrite list_lookup_insert_eq in Hc by exact Hlt. injection Hc as <-.
        unfold Cell.getName, Cell.addDataRow. cbn [Cell.tag_].
        unfold Cell.getName in Htag0. rewrite Htag0, Hidx. f_equal. lia.
      * rewrite list_lookup_insert_ne in Hc by congruence. now apply Hname.
    + intros tag idx' Hidx'. destruct (Hpos _ _ Hidx') as (H0 & c & Hc & Htag).
      split; [exact H0 |].
      destruct (decide (Z.to_nat idx' = Z.to_nat idx)) as [Heq | Hne].
      * rewrite Heq, list_lookup_insert_eq by exact Hlt. eexists; split; [reflexivity |].
        rewrite Heq, Hc0 in Hc. injection Hc as <-. exact Htag.
      * rewrite list_lookup_insert_ne by congruence. eauto.
    + intros r Hr. apply elem_of_app in Hr as [Hr | Hr]; [now apply Hall |].
      apply list_elem_of_singleton in Hr as ->. rewrite Hidx. eauto.
    + intros i c Hc. rewrite with_tag_snoc.
      destruct (decide (i = Z.to_nat idx)) as [-> | Hne].
      * rewrite list_lookup_insert_eq in Hc by exact Hlt. injection Hc as <-.
        unfold Cell.getName, Cell.addDataRow. cbn [Cell.tag_ Cell.rowList_].
        unfold Cell.getName in Htag0. rewrite Htag0.
        rewrite decide_True by reflexivity. f_equal.
        rewrite (Hgr _ _ Hc0). unfold Cell.getName. now rewrite Htag0.
      * rewrite list_lookup_insert_ne in Hc by congruence.
        rewrite decide_False, app_nil_r; [now apply (Hgr i) |].
        intros Heq. pose proof (Hname _ _ Hc) as Hi. rewrite <- Heq, Hidx in Hi.
        injection Hi as ->. apply Hne. now rewrite Nat2Z.id.
    + now rewrite Hrows.
  - intros [= <-]. unfold indexed, grouped.
    cbn [User.cellList_ User.cellMap_ User.rowList_].
    assert (Hsize : size (User.cellList_ u ++ [Cell.new d (DataRow.getTag d)]) - 1
                    = Z.of_nat (length (User.cellList_ u))).
    { unfold size. rewrite length_app. simpl. lia. }
    rewrite Hsize.
    assert (Hold : forall i c, User.cellList_ u !! i = Some c ->
                               Cell.getName c <> DataRow.getTag d).
    { intros i c Hc Heq. pose proof (Hname _ _ Hc) as Hi. rewrite Heq, Hidx in Hi.
      discriminate. }
    split; [split; [| split] | split].
    + intros i c Hc. apply lookup_app_Some in Hc as [Hc | [Hge Hc]].
      * rewrite lookup_insert_ne by (intros Heq; now apply (Hold i c Hc)).
        now apply Hname.
      * apply list_lookup_singleton_Some in Hc as [Hi <-].
        unfold Cell.getName, Cell.new. cbn [Cell.tag_]. rewrite lookup_insert_eq.
        f_equal. lia.
    + intros tag idx' Hidx'.
      destruct (decide (DataRow.getTag d = tag)) as [<- | Hne].
      * rewrite lookup_insert_eq in Hidx'. injection Hidx' as <-.
        split; [lia |]. rewrite Nat2Z.id, list_lookup_middle by reflexivity.
        eexists; split; reflexivity.
      * rewrite lookup_insert_ne in Hidx' by exact Hne.
        destruct (Hpos _ _ Hidx') as (H0 & c & Hc & Htag). split; [exact H0 |].
        exists c. split; [| exact Htag]. now apply lookup_app_l_Some.
    + intros r Hr. apply elem_of_app in Hr as [Hr | Hr].
      * destruct (decide (DataRow.getTag d = DataRow.getTag r)) as [<- | Hne];
          [rewrite lookup_insert_eq; eauto |].
        rewrite lookup_insert_ne by exact Hne. now apply Hall.
      * apply list_elem_of_singleton in Hr as ->. rewrite lookup_insert_eq. eauto.
    + intros i c Hc. rewrite with_tag_snoc.
      apply lookup_app_Some in Hc as [Hc | [Hge Hc]].
      * rewrite decide_False, app_nil_r; [now apply (Hgr i) |].
        intros Heq. now apply (Hold i c Hc).
      * apply list_lookup_singleton_Some in Hc as [Hi <-].
        unfold Cell.getName, Cell.new. cbn [Cell.tag_ Cell.rowList_].
        rewrite decide_True by reflexivity.
        replace (with_tag (DataRow.getTag d) records) with (@nil DataRow.t);
          [reflexivity |].
        symmetry. apply with_tag_none. intros r Hr Heq.
        destruct (Hall r Hr) as [j Hj]. rewrite Heq, Hidx in Hj. discriminate.
    + now rewrite Hrows.
Qed.

Lemma reading_indexed (rest : list DataRow.t) :
  forall (done : list DataRow.t) (u u' : User.t),
    indexed done u -> grouped done u -> User.rowList_ u = done ->
    foldM User.addRow rest u = Ret u' ->
    indexed (done ++ rest) u' /\ grouped (done ++ rest) u' /\
    User.rowList_ u' = done ++ rest.
Proof.
  induction rest as [| d rest IH]; intros done u u' Hi Hg Hr; cbn [foldM].
  - intros [= <-]. now rewrite app_nil_r.
  - intros Hu'. apply bind_Ret in Hu' as (u1 & Hu1 & Hu').
    destruct (addRow_indexed done u u1 d Hi Hg Hr Hu1) as (Hi1 & Hg1 & Hr1).
    replace (done ++ d :: rest) with ((done ++ [d]) ++ rest) by now rewrite <- app_assoc.
    now apply (IH (done ++ [d]) u1).
Qed.

Lemma ranking_sorts (cells : list Cell.t) :
  forall (acc r : list Cell.t * PriorityQueue.t),
    foldM User.rankAndSort cells acc = Ret r ->
    exists cells',
      r.1 = acc.1 ++ cells' /\
      Forall2 (fun c c' => Cell.tag_ c' = Cell.tag_ c /\
                           User.sort (Cell.rowList_ c) = Ret (Cell.rowList_ c'))
              cells cells'.
Proof.
  induction cells as [| c cells IH]; intros acc r; cbn [foldM].
  - intros [= <-]. exists []. rewrite app_nil_r. split; [reflexivity | constructor].
  - intros Hr. apply bind_Ret in Hr as (acc1 & Hacc1 & Hr).
    unfold User.rankAndSort in Hacc1.
    apply bind_Ret in Hacc1 as (sorted & Hsorted & [= <-]).
    destruct (IH _ _ Hr) as (cells' & H1 & H2). cbn [fst] in H1.
    exists (Cell.mk (Cell.tag_ c) sorted :: cells').
    split; [now rewrite H1, <- app_assoc |].
    constructor; [| exact H2]. split; [reflexivity | exact Hsorted].
Qed.

Lemma readFile_built (records : list DataRow.t) (u : User.t) :
  User.readFile records = Ret u ->
  sorted_by_time (User.rowList_ u) /\
  Permutation (User.rowList_ u) records /\
  indexed records u /\
  grouped_by_time records u.
Proof.
  unfold User.readFile. intros Hu.
  apply bind_Ret in Hu as (u0 & Hu0 & Hu).
  apply bind_Ret in Hu as (cq & Hcq & Hu).
  apply bind_Ret in Hu as (rows & Hrows & [= <-]).
  destruct (reading_indexed records [] (User.mk [] ∅ [] []) u0) as (Hi & Hg & Hr);
    try assumption; try reflexivity.
  { split; [| split].
    - intros i c Hc. cbn [User.cellList_] in Hc. now rewrite lookup_nil in Hc.
    - intros tag idx Hl. cbn in Hl. now rewrite lookup_empty in Hl.
    - intros r Hr. now apply elem_of_nil in Hr. }
  { intros i c Hc. cbn [User.cellList_] in Hc. now rewrite lookup_nil in Hc. }
  rewrite app_nil_l in Hi, Hg, Hr.
  destruct (ranking_sorts _ _ _ Hcq) as (cells' & H1 & H2). cbn [fst app] in H1.
  destruct Hi as (Hname & Hpos & Hall).
  split; [now apply (sort_sorted (User.rowList_ u0)) |].
  split; [rewrite <- Hr; now apply sort_Permutation |].
  unfold indexed, grouped_by_time. cbn [User.cellList_ User.cellMap_]. rewrite H1.
  split; [split; [| split] |].
  - intros i c' Hc'. destruct (Forall2_lookup_r _ _ _ _ _ H2 Hc') as (c & Hc & Htag & _).
    unfold Cell.getName. rewrite Htag. now apply Hname.
  - intros tag idx Hidx. destruct (Hpos _ _ Hidx) as (H0 & c & Hc & Htag).
    split; [exact H0 |].
    destruct (Forall2_lookup_l _ _ _ _ _ H2 Hc) as (c' & Hc' & Htag' & _).
    exists c'. split; [exact Hc' |]. unfold Cell.getName in *. now rewrite Htag'.
  - exact Hall.
  - intros i c' Hc'.
    destruct (Forall2_lookup_r _ _ _ _ _ H2 Hc') as (c & Hc & Htag & Hsort).
    split; [now apply (sort_sorted (Cell.rowList_ c)) |].
    rewrite (sort_Permutation _ _ Hsort), (Hg _ _ Hc).
    unfold Cell.getName. now rewrite Htag.
Qed.

(** What [readFile] leaves in a user: [rowList_] holds the records of the
    file in ascending order of time; [cellMap_] is the index of [cellList_],
    with one cell for every cell name in the file; and a cell holds the
    records of its name, in ascending order of time. *)
Theorem readFile_index (records : list DataRow.t) (u : User.t) :
  User.readFile records = Ret u ->
  sorted_by_time (User.rowList_ u) /\
  Permutation (User.rowList_ u) records /\
  indexed records u /\
  grouped_by_time records u.
Proof. apply readFile_built. Qed.

End ReadFile.

Lemma readFile_index_witness :
  sorted_by_time (User.rowList_ two_cells_user) /\
  Permutation (User.rowList_ two_cells_user) two_cells /\
  indexed two_cells two_cells_user /\
  grouped_by_time two_cells two_cells_user.
Proof. apply (@readFile_index epoch_clock). reflexivity. Defined.

Section ReadFileOutcome.
Context `{Clock}.

Lemma with_tag_sortable (tag : string) (records : list DataRow.t) :
  (length records <= 1)%nat \/ all_convertible records ->
  (length (with_tag tag records) <= 1)%nat \/ all_convertible (with_tag tag records).
Proof.
  intros [Hlen | Hall].
  - left. unfold with_tag. pose proof (length_filter (fun r => DataRow.getTag r = tag) records).
    lia.
  - right. unfold all_convertible, with_tag in *. rewrite Forall_forall in *.
    intros r Hr. apply list_elem_of_filter in Hr as [_ Hr]. now apply Hall.
Qed.

Lemma ranking_returns (cells : list Cell.t) :
  Forall (fun c => exists r, User.sort (Cell.rowList_ c) = Ret r) cells ->
  forall acc, exists r, foldM User.rankAndSort cells acc = Ret r.
Proof.
  induction cells as [| c cells IH]; intros Hall acc; cbn [foldM]; [eauto |].
  apply Forall_cons in Hall as [[r Hr] Hall].
  unfold User.rankAndSort at 1. unfold Cell.getRowList. rewrite Hr. cbn [bind].
  now apply IH.
Qed.

Lemma ranking_Fail (cells : list Cell.t) :
  forall acc f, foldM User.rankAndSort cells acc = Fail f -> f = ExitCalled.
Proof.
  induction cells as [| c cells IH]; intros acc f; cbn [foldM]; [discriminate |].
  unfold User.rankAndSort at 1.
  destruct (User.sort (Cell.getRowList c)) as [r | f'] eqn:Hr; cbn [bind].
  - apply IH.
  - intros [= <-]. now apply (sort_Fail _ _ Hr).
Qed.

Lemma readFile_decides (records : list DataRow.t) :
  ((length records <= 1)%nat \/ all_convertible records ->
   exists u, User.readFile records = Ret u) /\
  ((2 <= length records)%nat -> ~ all_convertible records ->
   User.readFile records = Fail ExitCalled).
Proof.
  unfold User.readFile.
  destruct (reading_ok records (User.mk [] ∅ [] [])) as (u0 & Hread & _).
  { split; [constructor |]. intros tag idx Hl. cbn in Hl.
    rewrite lookup_empty in Hl. discriminate. }
  destruct (reading_indexed records [] (User.mk [] ∅ [] []) u0) as (_ & Hg & Hr);
    try assumption; try reflexivity.
  { split; [| split].
    - intros i c Hc. cbn [User.cellList_] in Hc. now rewrite lookup_nil in Hc.
    - intros tag idx Hl. cbn in Hl. now rewrite lookup_empty in Hl.
    - intros r Hr. now apply elem_of_nil in Hr. }
  { intros i c Hc. cbn [User.cellList_] in Hc. now rewrite lookup_nil in Hc. }
  rewrite app_nil_l in Hg, Hr. rewrite Hread. cbn [bind]. split.
  - intros Hok.
    destruct (ranking_returns (User.cellList_ u0)) with (acc := (@nil Cell.t, User.cellQueue_ u0))
      as [cq ->].
    { apply Forall_lookup. intros i c Hc. rewrite (Hg _ _ Hc).
      apply sort_total. now apply with_tag_sortable. }
    cbn [bind]. rewrite Hr. destruct (sort_total records Hok) as [rows ->]. cbn [bind].
    eauto.
  - intros Hlen Hnot.
    destruct (foldM User.rankAndSort (User.cellList_ u0) ([], User.cellQueue_ u0))
      as [cq | f] eqn:Hcq; cbn [bind].
    + rewrite Hr. destruct (User.sort records) as [rows | f] eqn:Hrows; cbn [bind].
      * apply sort_compares in Hrows as [Hle | Hall]; [lia | contradiction].
      * now rewrite (sort_Fail _ _ Hrows).
    + now rewrite (ranking_Fail _ _ _ Hcq).
Qed.

(** [readFile] ends the process exactly when the file holds two records or
    more and the date of one of them cannot be converted: then sorting
    compares it; a file with one record or none is read without any date
    being converted. *)
Theorem readFile_outcome (records : list DataRow.t) :
  ((length records <= 1)%nat \/ all_convertible records ->
   exists u, User.readFile records = Ret u) /\
  ((2 <= length records)%nat -> ~ all_convertible records ->
   User.readFile records = Fail ExitCalled).
Proof. apply readFile_decides. Qed.

End ReadFileOutcome.

Lemma readFile_outcome_witness :
  (exists u, @User.readFile epoch_clock [row_at 7 "B"; row_at 0 "A"] = Ret u) /\
  (exists u, @User.readFile epoch_clock [row_at (-1) "B"] = Ret u) /\
  @User.readFile epoch_clock [row_at 7 "B"; row_at (-1) "A"] = Fail ExitCalled.
Proof.
  split; [| split].
  - apply (@readFile_outcome epoch_clock). right.
    repeat constructor; unfold convertible; simpl; lia.
  - apply (@readFile_outcome epoch_clock). left. simpl. lia.
  - apply (@readFile_outcome epoch_clock); [simpl; lia |].
    intros Hall. apply Forall_cons in Hall as [_ Hall].
    apply Forall_cons in Hall as [Hc _]. now apply Hc.
Defined.

(** ** findResidentialAreaByTopKCells: when it returns *)

Section TopKOutcome.
Context `{Clock}.

Lemma top_elem_of (q : PriorityQueue.t) (e : PAIR) :
  PriorityQueue.top q = Some e -> e ∈ q.
Proof.
  unfold PriorityQueue.top. destruct (PriorityQueue.select q) as [[m rest] |] eqn:Hsel;
    [| discriminate].
  intros [= <-]. apply select_Some in Hsel as [Hperm _]. rewrite Hperm. left.
Qed.

Lemma pop_elem_of (q : PriorityQueue.t) (e : PAIR) :
  e ∈ PriorityQueue.pop q -> e ∈ q.
Proof.
  unfold PriorityQueue.pop. destruct (PriorityQueue.select q) as [[m rest] |] eqn:Hsel;
    [| auto].
  intros He. apply select_Some in Hsel as [Hperm _]. rewrite Hperm. now right.
Qed.

Lemma top_nonempty (q : PriorityQueue.t) :
  q <> [] -> exists e, PriorityQueue.top q = Some e.
Proof.
  intros Hne. unfold PriorityQueue.top.
  destruct (PriorityQueue.select q) as [[m rest] |] eqn:Hsel; [simpl; eauto |].
  now apply select_None in Hsel.
Qed.

Lemma subscripted_known (u : User.t) (tag : string) (idx : Z) :
  User.cellMap_ u !! tag = Some idx -> User.subscripted u tag = u.
Proof.
  intros Hidx. unfold User.subscripted, User.cellIndex. rewrite Hidx. simpl.
  rewrite insert_id by exact Hidx. now destruct u.
Qed.

Lemma segment_from_dated (gap : Z) (rest : list tm) :
  forall start prev : tm,
    convertible start -> convertible prev -> Forall convertible rest ->
    Forall dated (segment_from gap start prev rest).
Proof.
  induction rest as [| t rest IH]; intros start prev Hs Hp Hr; simpl.
  - repeat constructor; assumption.
  - apply Forall_cons in Hr as [Ht Hr].
    destruct (mktime t - mktime start <=? gap); [now apply IH |].
    constructor; [split; assumption | now apply IH].
Qed.

Lemma getTimeSegments_dated (c : Cell.t) (interval : Z) :
  Cell.rowList_ c <> [] -> all_convertible (Cell.rowList_ c) -> 0 <= interval ->
  exists segs, Cell.getTimeSegments c interval = Ret segs /\
               segs <> [] /\ Forall dated segs.
Proof.
  intros Hne Hconv Hint. rewrite (getTimeSegments_spec c interval Hne Hconv Hint).
  eexists; split; [reflexivity |]. unfold all_convertible in Hconv.
  destruct (Cell.rowList_ c) as [| r0 rest]; [congruence |]. simpl.
  apply Forall_cons in Hconv as [H0 Hrest]. split.
  - destruct (segment_from_count interval (timestamps rest)
                (DataRow.getDateTime r0) (DataRow.getDateTime r0)) as (Hlen & _).
    intros Heq. rewrite Heq in Hlen. simpl in Hlen. lia.
  - apply segment_from_dated; try assumption.
    unfold timestamps. now rewrite Forall_map.
Qed.

Lemma tryAreas_returns (cur : list TIMEPAIR) (tag : string) (st : User.areas) :
  cur <> [] -> Forall dated cur -> areas_dated st ->
  forall n i0 : nat,
    (i0 + n <= length (User.areaList st))%nat ->
    exists b st', User.tryAreas n (Z.of_nat i0) cur tag st = Ret (b, st') /\
                  areas_dated st'.
Proof.
  intros Hne Hcur Hst. induction n as [| n IH]; intros i0 Hlen; cbn [User.tryAreas].
  - eauto.
  - destruct (lookup_lt_is_Some_2 (User.areaList st) i0 ltac:(lia)) as [a Ha].
    rewrite (vec_at_nat _ _ _ Ha). cbn [bind].
    unfold areas_dated in Hst. pose proof (Forall_lookup_1 _ _ _ _ Hst Ha) as [_ Hda].
    destruct (merge_dated cur a Hcur Hda (or_introl Hne)) as (m & -> & Hm & Hdm & _).
    cbn [bind].
    destruct (size m <? size cur + size a).
    + eexists _, _. split; [reflexivity |]. unfold areas_dated. cbn [User.areaList].
      apply Forall_insert; [exact Hst | split; assumption].
    + replace (Z.of_nat i0 + 1) with (Z.of_nat (S i0)) by lia. apply IH. lia.
Qed.

Lemma assignArea_returns (cur : list TIMEPAIR) (tag : string) (st : User.areas) :
  cur <> [] -> Forall dated cur -> areas_dated st ->
  exists st', User.assignArea cur tag st = Ret st' /\ areas_dated st'.
Proof.
  intros Hne Hcur Hst. unfold User.assignArea.
  destruct (tryAreas_returns cur tag st Hne Hcur Hst (length (User.areaList st)) 0
              ltac:(lia)) as (b & st' & Hr & Hst').
  change (Z.of_nat 0) with 0 in Hr. rewrite Hr. cbn [bind fst snd].
  destruct b; [eauto |].
  eexists; split; [reflexivity |]. unfold areas_dated in *. cbn [User.areaList].
  apply Forall_app. split; [exact Hst' |]. repeat constructor; assumption.
Qed.

Lemma popQueue_ready (u : User.t) : ready u -> ready (User.popQueue u).
Proof.
  intros Hu e He. cbn [User.popQueue User.cellQueue_] in He.
  apply pop_elem_of in He. exact (Hu e He).
Qed.

Lemma topKLoop_returns (interval : Z) (fuel : nat) :
  0 < interval ->
  forall (u : User.t) (st : User.areas),
    ready u -> areas_dated st ->
    (length (User.cellQueue_ u) <= fuel)%nat ->
    exists r, User.topKLoop fuel interval u st = Ret r.
Proof.
  intros Hint. induction fuel as [| fuel IH]; intros u st Hu Hst Hlen.
  - destruct (User.cellQueue_ u) as [| e q] eqn:Hq; [| simpl in Hlen; lia].
    cbn [User.topKLoop]. rewrite Hq. simpl. eauto.
  - destruct (PriorityQueue.top (User.cellQueue_ u)) as [[tag num] |] eqn:Htop.
    2:{ cbn [User.topKLoop]. rewrite Htop. eauto. }
    destruct (Hu _ (top_elem_of _ _ Htop)) as (i & c & Hidx & Hc & Hne & Hconv).
    cbn [fst] in Hidx.
    destruct (getTimeSegments_dated c interval Hne Hconv ltac:(lia))
      as (segs & Hsegs & Hsne & Hsd).
    rewrite (topKLoop_step fuel interval u st tag num c segs Htop); try assumption; try lia.
    2:{ unfold User.cellIndex. rewrite Hidx. simpl. now apply vec_at_nat. }
    destruct (num <? 3600 ÷ interval); [eauto |].
    rewrite (subscripted_known u tag _ Hidx).
    assert (Hnext : (length (User.cellQueue_ (User.popQueue u)) <= fuel)%nat).
    { cbn [User.popQueue User.cellQueue_]. apply pop_length in Htop. lia. }
    destruct (3600 <? User.stayTimeOf segs interval).
    + destruct (assignArea_returns segs tag st Hsne Hsd Hst) as (st' & -> & Hst').
      cbn [bind]. apply IH; [now apply popQueue_ready | exact Hst' | exact Hnext].
    + cbn [bind]. apply IH; [now apply popQueue_ready | exact Hst | exact Hnext].
Qed.

Lemma readFile_ready (records : list DataRow.t) (u : User.t) :
  User.readFile records = Ret u -> all_convertible records -> ready u.
Proof.
  intros Hu Hconv.
  destruct (readFile_built records u Hu) as (_ & _ & (Hname & _ & _) & Hgr).
  destruct (readFile_result records) as [_ Hres].
  destruct (Hres u Hu) as [[Hne _] Hq].
  intros e He. rewrite Hq in He. apply list_elem_of_fmap in He as (c & -> & Hc).
  apply list_elem_of_lookup in Hc as [i Hc]. exists i, c.
  split; [now apply Hname |]. split; [exact Hc |].
  split; [exact (Forall_lookup_1 _ _ _ _ Hne Hc) |].
  destruct (Hgr i c Hc) as [_ Hperm]. unfold all_convertible in *.
  rewrite Hperm. unfold with_tag. rewrite Forall_forall in *.
  intros r Hr. apply list_elem_of_filter in Hr as [_ Hr]. now apply Hconv.
Qed.

Lemma readFile_queue_nonempty (records : list DataRow.t) (u : User.t) :
  User.readFile records = Ret u -> records <> [] -> User.cellQueue_ u <> [].
Proof.
  intros Hu Hne.
  destruct (readFile_built records u Hu) as (_ & _ & (_ & Hpos & Hall) & _).
  destruct (readFile_result records) as [_ Hres].
  destruct (Hres u Hu) as [_ Hq]. rewrite Hq.
  destruct records as [| r records]; [congruence |].
  destruct (Hall r ltac:(left)) as [idx Hidx].
  destruct (Hpos _ _ Hidx) as (_ & c & Hc & _).
  destruct (User.cellList_ u); [now rewrite lookup_nil in Hc | discriminate].
Qed.

Lemma topK_returns (records : list DataRow.t) (u : User.t) (interval : Z) :
  User.readFile records = Ret u -> all_convertible records -> 0 < interval ->
  exists r, User.findResidentialAreaByTopKCells u interval = Ret r.
Proof.
  intros Hu Hconv Hint. pose proof (readFile_ready records u Hu Hconv) as Hready.
  unfold User.findResidentialAreaByTopKCells.
  destruct (topKLoop_returns interval (length (User.cellQueue_ u)) Hint u
              (User.Areas ∅ 1 [])) as [r ->]; try assumption; try lia.
  - constructor.
  - cbn [bind]. eauto.
Qed.

(** [findResidentialAreaByTopKCells] on a user that [readFile] built from
    records whose dates can all be converted: with a positive interval it
    returns; with interval 0 and a record in the file it divides by zero;
    with a negative interval and a record in the file it ends the process. *)
Theorem findResidentialAreaByTopKCells_outcome (records : list DataRow.t) (u : User.t)
    (interval : Z) :
  User.readFile records = Ret u -> all_convertible records ->
  (0 < interval -> exists r, User.findResidentialAreaByTopKCells u interval = Ret r) /\
  (interval = 0 -> records <> [] ->
   User.findResidentialAreaByTopKCells u interval = Fail DivideByZero) /\
  (interval < 0 -> records <> [] ->
   User.findResidentialAreaByTopKCells u interval = Fail ExitCalled).
Proof.
  intros Hu Hconv. pose proof (readFile_ready records u Hu Hconv) as Hready.
  unfold User.findResidentialAreaByTopKCells. split; [| split].
  - fold (User.findResidentialAreaByTopKCells u interval). now apply (topK_returns records).
  - intros -> Hne. pose proof (readFile_queue_nonempty records u Hu Hne) as Hq.
    destruct (top_nonempty _ Hq) as [[tag num] Htop].
    destruct (Hready _ (top_elem_of _ _ Htop)) as (i & c & Hidx & Hc & Hcne & Hcconv).
    cbn [fst] in Hidx.
    destruct (getTimeSegments_dated c 0 Hcne Hcconv ltac:(lia)) as (segs & Hsegs & _).
    destruct (User.cellQueue_ u) as [| e q] eqn:Hqueue; [congruence |].
    cbn [length User.topKLoop]. rewrite Hqueue, Htop.
    unfold User.cellIndex. rewrite Hidx.
    change (default 0 (Some (Z.of_nat i))) with (Z.of_nat i).
    cbn [User.subscripted User.cellList_].
    rewrite (vec_at_nat _ _ _ Hc). cbn [bind]. rewrite Hsegs. reflexivity.
  - intros Hint Hne. pose proof (readFile_queue_nonempty records u Hu Hne) as Hq.
    destruct (top_nonempty _ Hq) as [[tag num] Htop].
    destruct (Hready _ (top_elem_of _ _ Htop)) as (i & c & Hidx & Hc & Hcne & Hcconv).
    cbn [fst] in Hidx.
    destruct (User.cellQueue_ u) as [| e q] eqn:Hqueue; [congruence |].
    cbn [length User.topKLoop]. rewrite Hqueue, Htop.
    unfold User.cellIndex. rewrite Hidx.
    change (default 0 (Some (Z.of_nat i))) with (Z.of_nat i).
    cbn [User.subscripted User.cellList_].
    rewrite (vec_at_nat _ _ _ Hc). cbn [bind].
    rewrite (getTimeSegments_exits c interval Hcne); [reflexivity | lia].
Qed.

End TopKOutcome.

Lemma findResidentialAreaByTopKCells_outcome_witness :
  (exists r, @User.findResidentialAreaByTopKCells epoch_clock three_cells_user 1800 = Ret r) /\
  @User.findResidentialAreaByTopKCells epoch_clock three_cells_user 0 = Fail DivideByZero /\
  @User.findResidentialAreaByTopKCells epoch_clock three_cells_user (-5) = Fail ExitCalled.
Proof.
  split; [| split].
  - apply (@findResidentialAreaByTopKCells_outcome epoch_clock three_cells three_cells_user
             1800 eq_refl ltac:(repeat constructor; discriminate)). lia.
  - apply (@findResidentialAreaByTopKCells_outcome epoch_clock three_cells three_cells_user
             0 eq_refl ltac:(repeat constructor; discriminate)); [reflexivity | discriminate].
  - apply (@findResidentialAreaByTopKCells_outcome epoch_clock three_cells three_cells_user
             (-5) eq_refl ltac:(repeat constructor; discriminate)); [lia | discriminate].
Defined.

(** ** The areas written onto the rows *)

Section Labels.
Context `{Clock}.

Lemma assignArea_shape (cur : list TIMEPAIR) (tag : string) (st st' : User.areas) :
  ids_sequential st -> User.assignArea cur tag st = Ret st' ->
  exists id,
    User.areaMap st' = <[tag := id]> (User.areaMap st) /\
    ((id = User.areaID st /\ User.areaID st' = User.areaID st + 1) \/
     (1 <= id < User.areaID st /\ User.areaID st' = User.areaID st)).
Proof.
  intros [Hid _] Hr. unfold User.assignArea in Hr.
  apply bind_Ret in Hr as ([b st1] & Htry & Hr). cbn [fst snd] in Hr.
  apply (tryAreas_result cur tag st _ 0%nat) in Htry; [| simpl; lia].
  destruct Htry as [[-> ->] | [-> (i & m & Hi & ->)]]; injection Hr as <-;
    cbn [User.areaID User.areaList User.areaMap].
  - exists (User.areaID st). split; [reflexivity |]. left. split; reflexivity.
  - exists (Z.of_nat i + 1). split; [reflexivity |]. right. unfold size in Hid.
    split; [lia | reflexivity].
Qed.

Lemma pop_names (q : PriorityQueue.t) (tag : string) (num : Z) :
  PriorityQueue.top q = Some (tag, num) ->
  NoDup (map fst q) ->
  NoDup (map fst (PriorityQueue.pop q)) /\ tag ∉ map fst (PriorityQueue.pop q) /\
  tag ∈ map fst q.
Proof.
  unfold PriorityQueue.top, PriorityQueue.pop.
  destruct (PriorityQueue.select q) as [[m rest] |] eqn:Hsel; [| discriminate].
  intros [= ->]. apply select_Some in Hsel as [Hperm _]. rewrite Hperm. simpl.
  intros Hnd. apply NoDup_cons in Hnd as [Hnot Hnd].
  split; [exact Hnd |]. split; [exact Hnot | left].
Qed.

Lemma named_step (u : User.t) (st st' : User.areas) (tag : string) (num id : Z) :
  PriorityQueue.top (User.cellQueue_ u) = Some (tag, num) ->
  every_area_named u st ->
  User.areaMap st' = <[tag := id]> (User.areaMap st) ->
  (id = User.areaID st /\ User.areaID st' = User.areaID st + 1) \/
  (1 <= id < User.areaID st /\ User.areaID st' = User.areaID st) ->
  every_area_named (User.popQueue (User.subscripted u tag)) st'.
Proof.
  intros Htop (Hnd & Hbound & Hids & Hrows) Hmap Hid.
  destruct (pop_names _ _ _ Htop Hnd) as (Hnd' & Hnot & Hin).
  unfold every_area_named.
  cbn [User.popQueue User.subscripted User.cellQueue_ User.rowList_].
  split; [exact Hnd' |]. split; [| split].
  - intros tag' id'. rewrite Hmap.
    destruct (decide (tag = tag')) as [<- | Hne].
    + intros _. split; [exact Hnot |].
      apply (Hrows (tag, num)). now apply top_elem_of.
    + rewrite lookup_insert_ne by exact Hne. intros Hl.
      destruct (Hbound _ _ Hl) as [Hout Hrow]. split; [| exact Hrow].
      intros Hin'. apply Hout. apply list_elem_of_fmap in Hin' as (e & -> & He).
      apply list_elem_of_fmap. exists e. split; [reflexivity |]. now apply pop_elem_of.
  - intros id' Hid'. rewrite Hmap.
    destruct (decide (id' = id)) as [-> | Hne].
    + exists tag. now rewrite lookup_insert_eq.
    + destruct (Hids id') as [tag' Hl]; [lia |].
      exists tag'. rewrite lookup_insert_ne; [exact Hl |].
      intros <-. now destruct (Hbound _ _ Hl) as [Hout _].
  - intros e He. apply Hrows. now apply pop_elem_of.
Qed.

Lemma named_pop (u : User.t) (st : User.areas) (tag : string) :
  every_area_named u st ->
  every_area_named (User.popQueue (User.subscripted u tag)) st.
Proof.
  intros (Hnd & Hbound & Hids & Hrows). unfold every_area_named.
  cbn [User.popQueue User.subscripted User.cellQueue_ User.rowList_].
  assert (Hsub : forall x, x ∈ map fst (PriorityQueue.pop (User.cellQueue_ u)) ->
                           x ∈ map fst (User.cellQueue_ u)).
  { intros x Hx. apply list_elem_of_fmap in Hx as (e & -> & He).
    apply list_elem_of_fmap. exists e. split; [reflexivity |]. now apply pop_elem_of. }
  split; [| split; [| split]].
  - unfold PriorityQueue.pop.
    destruct (PriorityQueue.select (User.cellQueue_ u)) as [[m rest] |] eqn:Hsel;
      [| exact Hnd].
    apply select_Some in Hsel as [Hperm _]. rewrite Hperm in Hnd. simpl in Hnd.
    now apply NoDup_cons in Hnd as [_ Hnd].
  - intros tag' id' Hl. destruct (Hbound _ _ Hl) as [Hout Hrow]. split; [| exact Hrow].
    intros Hin. now apply Hout, Hsub.
  - exact Hids.
  - intros e He. apply Hrows. now apply pop_elem_of.
Qed.

Lemma topKLoop_named (interval : Z) (fuel : nat) :
  forall (u : User.t) (st : User.areas) (r : User.t * User.areas),
    ids_sequential st -> every_area_named u st ->
    User.topKLoop fuel interval u st = Ret r ->
    every_area_named r.1 r.2 /\ User.rowList_ r.1 = User.rowList_ u.
Proof.
  induction fuel as [| fuel IH]; intros u st r Hseq Hnamed; cbn [User.topKLoop];
    destruct (PriorityQueue.top (User.cellQueue_ u)) as [[tag num] |] eqn:Htop;
    try (intros [= <-]; split; [exact Hnamed | reflexivity]); try discriminate.
  intros Hr. apply bind_Ret in Hr as (c & _ & Hr).
  apply bind_Ret in Hr as (segs & _ & Hr).
  destruct (interval =? 0); [discriminate |].
  destruct (num <? 3600 ÷ interval).
  - injection Hr as <-. split; [| reflexivity].
    destruct Hnamed as (Hnd & Hbound & Hids & Hrows).
    exact (conj Hnd (conj Hbound (conj Hids Hrows))).
  - apply bind_Ret in Hr as (st' & Hst' & Hr).
    destruct (3600 <? User.stayTimeOf segs interval).
    + destruct (assignArea_shape _ _ _ _ Hseq Hst') as (id & Hmap & Hid).
      pose proof (assignArea_sequential _ _ _ _ Hseq Hst') as Hseq'.
      destruct (IH _ _ _ Hseq' (named_step u st st' tag num id Htop Hnamed Hmap Hid) Hr)
        as [Hn Hrows].
      split; [exact Hn | exact Hrows].
    + injection Hst' as <-.
      destruct (IH _ _ _ Hseq (named_pop u st tag Hnamed) Hr) as [Hn Hrows].
      split; [exact Hn | exact Hrows].
Qed.

Lemma readFile_named (records : list DataRow.t) (u : User.t) :
  User.readFile records = Ret u -> every_area_named u (User.Areas ∅ 1 []).
Proof.
  intros Hu.
  destruct (readFile_built records u Hu) as (_ & Hperm & (Hname & _ & _) & Hgr).
  destruct (readFile_result records) as [_ Hres].
  destruct (Hres u Hu) as [[Hne _] Hq].
  unfold every_area_named. cbn [User.areaMap User.areaID]. rewrite Hq.
  split; [| split; [| split]].
  - rewrite <- list_fmap_compose. apply NoDup_alt. intros i j tag Hi Hj.
    rewrite list_lookup_fmap in Hi, Hj.
    destruct (User.cellList_ u !! i) as [ci |] eqn:Hci; [| discriminate].
    destruct (User.cellList_ u !! j) as [cj |] eqn:Hcj; [| discriminate].
    simpl in Hi, Hj. injection Hi as Hi. injection Hj as Hj.
    pose proof (Hname _ _ Hci) as H1. pose proof (Hname _ _ Hcj) as H2.
    unfold ranking_entry in Hi, Hj. simpl in Hi, Hj.
    rewrite Hi in H1. rewrite Hj in H2. rewrite H1 in H2. injection H2 as H2. lia.
  - intros tag id Hl. now rewrite lookup_empty in Hl.
  - intros id Hid. lia.
  - intros e He. apply list_elem_of_fmap in He as (c & -> & Hc).
    apply list_elem_of_lookup in Hc as [i Hc].
    pose proof (Forall_lookup_1 _ _ _ _ Hne Hc) as Hrows.
    destruct (Hgr i c Hc) as [_ Hp].
    destruct (Cell.rowList_ c) as [| r0 rows] eqn:Hc0; [congruence |].
    assert (Hr0 : r0 ∈ with_tag (Cell.getName c) records) by (rewrite <- Hp; left).
    apply list_elem_of_filter in Hr0 as [Htag Hin].
    exists r0. split; [now rewrite Hperm | exact Htag].
Qed.

Lemma labelRows_same (m : gmap string Z) (rows : list DataRow.t) :
  Forall2 same_record rows (User.labelRows m rows).
Proof.
  unfold User.labelRows. induction rows as [| r rows IH]; simpl; constructor;
    [| exact IH].
  destruct (m !! DataRow.getTag r); repeat split.
Qed.

(** The rows after [findResidentialAreaByTopKCells], for a user built by
    [readFile]: they are the rows of before, in the same order, changed at
    most in their area; the area written onto a row is 0, as the constructor
    left it, or one of 1 .. areaID - 1; and each of 1 .. areaID - 1, the
    areas the midpoint analysis is then run for, is written onto a row. *)
Theorem found_areas_label_rows (records : list DataRow.t) (u : User.t) (interval : Z)
    (r : User.t * User.areas) :
  User.readFile records = Ret u ->
  User.findResidentialAreaByTopKCells u interval = Ret r ->
  Forall2 same_record (User.rowList_ u) (User.rowList_ r.1) /\
  (Forall (fun d => DataRow.getAreaID d = 0) records ->
   Forall (fun d => 0 <= DataRow.getAreaID d <= User.areaID r.2 - 1) (User.rowList_ r.1)) /\
  (forall id : Z, 1 <= id <= User.areaID r.2 - 1 ->
                  exists d, d ∈ User.rowList_ r.1 /\ DataRow.getAreaID d = id).
Proof.
  intros Hu Hr. unfold User.findResidentialAreaByTopKCells in Hr.
  apply bind_Ret in Hr as (r0 & Hloop & [= <-]). cbn [fst snd User.rowList_].
  assert (Hseq0 : ids_sequential (User.Areas ∅ 1 [])).
  { split; [reflexivity |]. apply map_Forall_empty. }
  pose proof (topKLoop_sequential _ _ _ _ _ Hseq0 Hloop) as [Hid Hmap].
  destruct (topKLoop_named _ _ _ _ _ Hseq0 (readFile_named records u Hu) Hloop)
    as [(_ & Hbound & Hids & _) Hrows].
  rewrite Hrows. split; [apply labelRows_same |]. split.
  - intros Hzero.
    destruct (readFile_built records u Hu) as (_ & Hperm & _).
    rewrite <- Hperm in Hzero. unfold User.labelRows. rewrite Forall_fmap.
    eapply Forall_impl; [exact Hzero |]. cbn beta. intros d Hd. simpl.
    destruct (User.areaMap r0.2 !! DataRow.getTag d) as [id |] eqn:Hl.
    + specialize (Hmap _ _ Hl). cbn beta in Hmap. simpl. lia.
    + rewrite Hd. unfold size in Hid. lia.
  - intros id Hrange. destruct (Hids id ltac:(lia)) as [tag Hl].
    destruct (Hbound _ _ Hl) as [_ (d & Hd & Htag)].
    exists (DataRow.setAreaID d id). split; [| reflexivity].
    unfold User.labelRows. apply list_elem_of_fmap. exists d.
    split; [now rewrite Htag, Hl | now rewrite <- Hrows].
Qed.

End Labels.

Lemma found_areas_label_rows_witness :
  exists r : @User.t epoch_clock * User.areas,
    @User.findResidentialAreaByTopKCells epoch_clock three_cells_user 1800 = Ret r /\
    Forall2 same_record (User.rowList_ three_cells_user) (User.rowList_ r.1) /\
    (Forall (fun d => DataRow.getAreaID d = 0) three_cells ->
     Forall (fun d => 0 <= DataRow.getAreaID d <= User.areaID r.2 - 1)
            (User.rowList_ r.1)) /\
    (forall id : Z, 1 <= id <= User.areaID r.2 - 1 ->
                    exists d, d ∈ User.rowList_ r.1 /\ DataRow.getAreaID d = id).
Proof.
  eexists. split; [vm_compute; reflexivity |].
  apply (@found_areas_label_rows epoch_clock three_cells three_cells_user 1800);
    vm_compute; reflexivity.
Defined.

(** ** createJsonFile *)

Section JsonFile.
Context `{Clock}.

Lemma json_loop (rows : list DataRow.t) (n : nat) :
  forall (i : Z) (coords : list (float * float)),
    0 <= i -> i + Z.of_nat n <= size rows ->
    for_loop (fun i coords =>
                d <- vec_at rows i ;;
                Ret (coords ++ [(DataRow.getLon d, DataRow.getLat d)]))
             i n coords
    = Ret (coords ++ map coordinates (take n (drop (Z.to_nat i) rows))).
Proof.
  induction n as [| n IH]; intros i coords Hi Hn; cbn [for_loop].
  - now rewrite take_0, app_nil_r.
  - destruct (vec_at_in_range rows i) as [d Hd]; [lia |]. rewrite Hd. cbn [bind].
    apply vec_at_Ret in Hd as [_ Hd].
    rewrite IH by lia. f_equal.
    rewrite (drop_S _ _ _ Hd). cbn [take map]. rewrite <- app_assoc.
    replace (Z.to_nat (i + 1)) with (S (Z.to_nat i)) by lia. reflexivity.
Qed.

Lemma json_loop_past (rows : list DataRow.t) (n : nat) :
  forall (i : Z) (coords : list (float * float)),
    (0 < n)%nat -> i < 0 \/ size rows < i + Z.of_nat n ->
    for_loop (fun i coords =>
                d <- vec_at rows i ;;
                Ret (coords ++ [(DataRow.getLon d, DataRow.getLat d)]))
             i n coords
    = Fail OutOfRange.
Proof.
  induction n as [| n IH]; intros i coords Hn Hout; [lia |]. cbn [for_loop].
  destruct (vec_at rows i) as [d | f] eqn:Hd; cbn [bind].
  - apply vec_at_Ret in Hd as [Hi _]. destruct n as [| n]; [lia | apply IH; lia].
  - unfold vec_at in Hd. destruct (i <? 0); [congruence |].
    destruct (rows !! Z.to_nat i); [discriminate | congruence].
Qed.

(** [createJsonFile] writes the coordinates of the rows at the positions
    [low], ..., [high - 1], in this order; it writes none and reads no row
    when [high <= low]; and it reads outside the list when some of these
    positions is not one of the list. *)
Theorem createJsonFile_coordinates (rows : list DataRow.t) (low high : Z) :
  (high <= low -> createJsonFile rows low high = Ret []) /\
  (0 <= low <= high -> high <= size rows ->
   createJsonFile rows low high =
     Ret (map coordinates (take (Z.to_nat (high - low)) (drop (Z.to_nat low) rows)))) /\
  (low < high -> low < 0 \/ size rows < high ->
   createJsonFile rows low high = Fail OutOfRange).
Proof.
  unfold createJsonFile. split; [| split].
  - intros Hle. replace (Z.to_nat (high - low)) with 0%nat by lia. reflexivity.
  - intros Hlow Hhigh. rewrite json_loop by lia. reflexivity.
  - intros Hlt Hout. apply json_loop_past; lia.
Qed.

End JsonFile.

Lemma createJsonFile_coordinates_witness :
  createJsonFile two_cells 4 2 = Ret [] /\
  createJsonFile two_cells 1 3 =
    Ret (map coordinates (take 2 (drop 1 two_cells))) /\
  createJsonFile two_cells 5 7 = Fail OutOfRange.
Proof.
  split; [| split].
  - apply (proj1 (createJsonFile_coordinates two_cells 4 2)). lia.
  - apply (proj1 (proj2 (createJsonFile_coordinates two_cells 1 3)));
      [lia | vm_compute; discriminate].
  - apply (proj2 (proj2 (createJsonFile_coordinates two_cells 5 7)));
      [lia | right; vm_compute; reflexivity].
Defined.

(** ** findResidentialAreaBySpeed: when it returns, and what it writes *)

Section SpeedOutcome.
Context `{Clock}.
Variable distanceEarth : float -> float -> float -> float -> float.

Lemma sorted_lookup_le (rows : list DataRow.t) :
  sorted_by_time rows ->
  forall (j k : nat) (rj rk : DataRow.t),
    (j <= k)%nat -> rows !! j = Some rj -> rows !! k = Some rk ->
    time_of rj <= time_of rk.
Proof.
  intros Hs. apply sorted_by_time_times in Hs.
  induction rows as [| r rows IH]; intros j k rj rk Hjk Hj Hk; [discriminate |].
  simpl in Hs. apply StronglySorted_inv in Hs as [Hs Hr].
  destruct j as [| j], k as [| k]; simpl in Hj, Hk; try lia.
  - injection Hj as <-. injection Hk as <-. lia.
  - injection Hj as <-. rewrite Forall_forall in Hr. apply Hr.
    apply list_elem_of_fmap. exists rk. split; [reflexivity |].
    apply list_elem_of_lookup. eauto.
  - apply (IH Hs j k); [lia | assumption | assumption].
Qed.

Lemma adjacent_sorted (rows : list DataRow.t) :
  (forall (k : nat) (a b : DataRow.t),
      rows !! k = Some a -> rows !! S k = Some b -> time_of a <= time_of b) ->
  sorted_by_time rows.
Proof.
  unfold sorted_by_time, timestamps. rewrite map_map.
  induction rows as [| r rows IH]; intros Hadj; [constructor |].
  simpl. constructor.
  - apply IH. intros k a b Ha Hb. exact (Hadj (S k) a b Ha Hb).
  - destruct rows as [| r' rows]; constructor.
    exact (Hadj 0%nat r r' eq_refl eq_refl).
Qed.

Lemma emitSegment_known (rows : list DataRow.t) (s : User.speed_vars)
    (rl rh : DataRow.t) :
  0 <= User.low s < User.high s -> User.high s <= size rows ->
  rows !! Z.to_nat (User.low s) = Some rl ->
  rows !! Z.to_nat (User.high s - 1) = Some rh ->
  convertible (DataRow.getDateTime rl) -> convertible (DataRow.getDateTime rh) ->
  User.emitSegment rows s =
    Ret (if minInterval <? time_of rh - time_of rl
         then User.SpeedVars (User.mapID s + 1) (User.low s) (User.high s)
                (User.files s ++
                   [(User.mapID s, DataRow.getDateTime rl, DataRow.getDateTime rh,
                     map coordinates
                       (take (Z.to_nat (User.high s - User.low s))
                             (drop (Z.to_nat (User.low s)) rows)))])
         else s).
Proof.
  intros Hlow Hhigh Hrl Hrh Hcl Hch. unfold User.emitSegment.
  rewrite (vec_at_lookup rows (User.high s - 1) rh) by (lia || assumption).
  cbn [bind]. rewrite (getTimeValue_convertible _ Hch). cbn [bind].
  rewrite (vec_at_lookup rows (User.low s) rl) by (lia || assumption).
  cbn [bind]. rewrite (getTimeValue_convertible _ Hcl). cbn [bind].
  fold (time_of rh). fold (time_of rl).
  destruct (minInterval <? time_of rh - time_of rl); [| reflexivity].
  unfold createJsonFile. rewrite json_loop by lia. reflexivity.
Qed.

Lemma emitSegment_Ret (rows : list DataRow.t) (s s' : User.speed_vars) :
  User.emitSegment rows s = Ret s' ->
  exists rl rh,
    rows !! Z.to_nat (User.low s) = Some rl /\
    rows !! Z.to_nat (User.high s - 1) = Some rh /\
    convertible (DataRow.getDateTime rl) /\ convertible (DataRow.getDateTime rh).
Proof.
  unfold User.emitSegment. intros Hr.
  apply bind_Ret in Hr as (rh & Hrh & Hr). apply bind_Ret in Hr as (th & Hth & Hr).
  apply bind_Ret in Hr as (rl & Hrl & Hr). apply bind_Ret in Hr as (tl & Htl & _).
  apply vec_at_Ret in Hrh as [_ Hrh]. apply vec_at_Ret in Hrl as [_ Hrl].
  apply getTimeValue_Ret in Hth as [Hch _]. apply getTimeValue_Ret in Htl as [Hcl _].
  eauto 10.
Qed.

Lemma speedStep_Ret (rows : list DataRow.t) (i : Z) (s s' : User.speed_vars) :
  User.speedStep distanceEarth rows i s = Ret s' ->
  1 <= i /\
  exists rp ri,
    rows !! Z.to_nat (i - 1) = Some rp /\ rows !! Z.to_nat i = Some ri /\
    convertible (DataRow.getDateTime rp) /\ convertible (DataRow.getDateTime ri) /\
    time_of rp <= time_of ri.
Proof.
  unfold User.speedStep. intros Hr.
  apply bind_Ret in Hr as (rp & Hrp & Hr). apply bind_Ret in Hr as (ri & Hri & Hr).
  apply bind_Ret in Hr as (ti & Hti & Hr). apply bind_Ret in Hr as (tp & Htp & Hr).
  apply vec_at_Ret in Hrp as [Hi Hrp]. apply vec_at_Ret in Hri as [_ Hri].
  apply getTimeValue_Ret in Hti as [Hci ->]. apply getTimeValue_Ret in Htp as [Hcp ->].
  split; [lia |]. exists rp, ri. repeat split; try assumption.
  unfold time_of.
  destruct (Z.ltb_spec (mktime (DataRow.getDateTime ri) - mktime (DataRow.getDateTime rp)) 0);
    [discriminate | lia].
Qed.

Lemma speed_loop_Ret (rows : list DataRow.t) (n : nat) :
  forall (i : Z) (s s' : User.speed_vars),
    1 <= i ->
    for_loop (User.speedStep distanceEarth rows) i n s = Ret s' ->
    forall k : nat,
      (Z.to_nat i <= k < Z.to_nat i + n)%nat ->
      exists rp rk,
        rows !! (k - 1)%nat = Some rp /\ rows !! k = Some rk /\
        convertible (DataRow.getDateTime rp) /\ convertible (DataRow.getDateTime rk) /\
        time_of rp <= time_of rk.
Proof.
  induction n as [| n IH]; intros i s s' Hi Hr k Hk; [lia |].
  cbn [for_loop] in Hr. apply bind_Ret in Hr as (s1 & Hs1 & Hr).
  destruct (decide (k = Z.to_nat i)) as [-> | Hne].
  - apply speedStep_Ret in Hs1 as (_ & rp & ri & Hrp & Hri & Hfacts).
    exists rp, ri. replace (Z.to_nat i - 1)%nat with (Z.to_nat (i - 1)) by lia. auto.
  - apply (IH (i + 1) s1 s'); [lia | exact Hr | lia].
Qed.

Lemma speed_scan_Ret (rows : list DataRow.t) (s : User.speed_vars) :
  for_loop (User.speedStep distanceEarth rows) 1 (length rows - 1)
           (User.SpeedVars 1 0 0 []) = Ret s ->
  (2 <= length rows)%nat ->
  all_convertible rows /\ sorted_by_time rows.
Proof.
  intros Hr Hlen. pose proof (speed_loop_Ret rows _ 1 _ s ltac:(lia) Hr) as Hall.
  split.
  - apply Forall_lookup. intros k r Hk. pose proof (lookup_lt_Some _ _ _ Hk) as Hlt.
    destruct k as [| k].
    + destruct (Hall 1%nat ltac:(lia)) as (rp & _ & Hrp & _ & Hcp & _).
      simpl in Hrp. rewrite Hk in Hrp. injection Hrp as <-. exact Hcp.
    + destruct (Hall (S k) ltac:(lia)) as (_ & rk & _ & Hrk & _ & Hck & _).
      rewrite Hk in Hrk. injection Hrk as <-. exact Hck.
  - apply adjacent_sorted. intros k a b Ha Hb.
    pose proof (lookup_lt_Some _ _ _ Hb) as Hlt.
    destruct (Hall (S k) ltac:(lia)) as (rp & rk & Hrp & Hrk & _ & _ & Hle).
    replace (S k - 1)%nat with k in Hrp by lia.
    rewrite Ha in Hrp. rewrite Hb in Hrk. injection Hrp as <-. injection Hrk as <-.
    exact Hle.
Qed.

Lemma speedStep_known (rows : list DataRow.t) (i : Z) (s : User.speed_vars)
    (rp ri : DataRow.t) :
  1 <= i ->
  rows !! Z.to_nat (i - 1) = Some rp -> rows !! Z.to_nat i = Some ri ->
  convertible (DataRow.getDateTime rp) -> convertible (DataRow.getDateTime ri) ->
  time_of rp <= time_of ri ->
  User.speedStep distanceEarth rows i s = Ret (User.SpeedVars (User.mapID s) (User.low s) i (User.files s)) \/
  User.speedStep distanceEarth rows i s =
    (s' <- User.emitSegment rows (User.SpeedVars (User.mapID s) (User.low s) i (User.files s)) ;;
     Ret (User.SpeedVars (User.mapID s') i (User.high s') (User.files s'))).
Proof.
  intros Hi Hrp Hri Hcp Hci Hle. unfold User.speedStep.
  rewrite (vec_at_lookup rows (i - 1) rp) by (lia || assumption).
  rewrite (vec_at_lookup rows i ri) by (lia || assumption). cbn [bind].
  rewrite (getTimeValue_convertible _ Hci), (getTimeValue_convertible _ Hcp). cbn [bind].
  unfold time_of in Hle.
  destruct (Z.ltb_spec (mktime (DataRow.getDateTime ri) - mktime (DataRow.getDateTime rp)) 0);
    [lia |].
  destruct (_ || _); [now left |].
  destruct (PrimFloat.ltb _ _); [now right | now left].
Qed.

Section Scan.
Variable rows : list DataRow.t.
Hypothesis Hconv : all_convertible rows.
Hypothesis Hsorted : sorted_by_time rows.

Lemma row_at_position (i : Z) :
  0 <= i < size rows ->
  exists r, rows !! Z.to_nat i = Some r /\ convertible (DataRow.getDateTime r).
Proof.
  intros Hi. destruct (lookup_lt_is_Some_2 rows (Z.to_nat i)) as [r Hr];
    [unfold size in Hi; lia |].
  exists r. split; [exact Hr |]. exact (Forall_lookup_1 _ _ _ _ Hconv Hr).
Qed.

Lemma speed_inv_fields (b : Z) (s t : User.speed_vars) :
  User.mapID t = User.mapID s -> User.files t = User.files s ->
  speed_inv rows b s -> speed_inv rows b t.
Proof. unfold speed_inv. intros -> ->. auto. Qed.

Lemma speed_inv_later (b b' : Z) (s : User.speed_vars) :
  0 <= b <= b' -> b' < size rows ->
  speed_inv rows b s -> speed_inv rows b' s.
Proof.
  intros Hb Hb' (Hid & Hfiles & Hlast). split; [exact Hid |]. split; [exact Hfiles |].
  intros f r Hf Hr. destruct (row_at_position b ltac:(lia)) as (rb & Hrb & _).
  specialize (Hlast f rb Hf Hrb).
  pose proof (sorted_lookup_le rows Hsorted (Z.to_nat b) (Z.to_nat b') rb r
                ltac:(lia) Hrb Hr). lia.
Qed.

Lemma emitSegment_inv (s : User.speed_vars) :
  0 <= User.low s < User.high s -> User.high s <= size rows ->
  speed_inv rows (User.low s) s ->
  exists s', User.emitSegment rows s = Ret s' /\
             speed_inv rows (User.high s - 1) s' /\
             User.low s' = User.low s /\ User.high s' = User.high s.
Proof.
  intros Hlow Hhigh Hinv.
  destruct (row_at_position (User.low s) ltac:(lia)) as (rl & Hrl & Hcl).
  destruct (row_at_position (User.high s - 1) ltac:(lia)) as (rh & Hrh & Hch).
  rewrite (emitSegment_known rows s rl rh Hlow Hhigh Hrl Hrh Hcl Hch).
  eexists; split; [reflexivity |].
  destruct (Z.ltb_spec minInterval (time_of rh - time_of rl)) as [Hlong | Hshort].
  2:{ split; [| split; reflexivity]. apply (speed_inv_later (User.low s)); [lia | lia |].
      exact Hinv. }
  cbn [User.low User.high]. split; [| split; reflexivity].
  destruct Hinv as (Hid & (Heach & Hnext) & Hlast).
  unfold speed_inv. cbn [User.mapID User.files].
  set (f := (User.mapID s, DataRow.getDateTime rl, DataRow.getDateTime rh,
             map coordinates (take (Z.to_nat (User.high s - User.low s))
                                   (drop (Z.to_nat (User.low s)) rows))) : speed_file).
  split; [| split; [split |]].
  - unfold size in *. rewrite length_app. simpl. lia.
  - intros k g Hg. apply lookup_app_Some in Hg as [Hg | [Hge Hg]]; [now apply Heach |].
    apply list_lookup_singleton_Some in Hg as [Hk <-].
    unfold file_number, file_from, file_to, file_coordinates, f. cbn [fst snd].
    split; [unfold size, speed_file in *; lia |]. split; [exact Hlong |].
    rewrite (drop_S _ _ _ Hrl).
    replace (Z.to_nat (User.high s - User.low s))
      with (S (Z.to_nat (User.high s - User.low s - 1))) by lia.
    discriminate.
  - intros k g g' Hg Hg'. apply lookup_app_Some in Hg' as [Hg' | [Hge Hg']].
    + apply (Hnext k); [| exact Hg'].
      apply lookup_app_Some in Hg as [Hg | [Hge _]]; [exact Hg |].
      apply lookup_lt_Some in Hg'. unfold speed_file in *. lia.
    + apply list_lookup_singleton_Some in Hg' as [Hk <-].
      apply lookup_app_Some in Hg as [Hg | [Hge' _]]; [| unfold speed_file in *; lia].
      unfold f, file_from. cbn [fst snd].
      apply (Hlast g rl); [| exact Hrl].
      rewrite last_lookup. unfold speed_file in *.
      replace (pred (length (User.files s))) with k by lia.
      exact Hg.
  - intros g r. rewrite last_snoc. intros [= <-] Hr.
    rewrite Hrh in Hr. injection Hr as <-. unfold f, file_to, time_of. cbn [fst snd]. lia.
Qed.

Lemma speedStep_inv (i : Z) (s : User.speed_vars) :
  1 <= i < size rows -> 0 <= User.low s <= i - 1 ->
  speed_inv rows (User.low s) s ->
  exists s', User.speedStep distanceEarth rows i s = Ret s' /\
             speed_inv rows (User.low s') s' /\
             0 <= User.low s' <= i /\ User.high s' = i.
Proof.
  intros Hi Hlow Hinv.
  destruct (row_at_position (i - 1) ltac:(lia)) as (rp & Hrp & Hcp).
  destruct (row_at_position i ltac:(lia)) as (ri & Hri & Hci).
  pose proof (sorted_lookup_le rows Hsorted (Z.to_nat (i - 1)) (Z.to_nat i) rp ri
                ltac:(lia) Hrp Hri) as Hle.
  destruct (speedStep_known rows i s rp ri ltac:(lia) Hrp Hri Hcp Hci Hle) as [-> | ->].
  - eexists; split; [reflexivity |]. cbn [User.low User.high].
    split; [| lia]. now apply (speed_inv_fields (User.low s) s).
  - destruct (emitSegment_inv (User.SpeedVars (User.mapID s) (User.low s) i (User.files s)))
      as (s1 & -> & Hinv1 & Hl1 & Hh1); cbn [User.low User.high]; try lia.
    { now apply (speed_inv_fields (User.low s) s). }
    cbn [bind]. eexists; split; [reflexivity |]. cbn [User.low User.high] in *.
    split; [| lia].
    apply (speed_inv_fields i s1); [reflexivity | reflexivity |].
    apply (speed_inv_later (i - 1)); [lia | lia | exact Hinv1].
Qed.

Lemma speed_loop_inv (n : nat) :
  forall (i : Z) (s : User.speed_vars),
    1 <= i -> i + Z.of_nat n <= size rows ->
    0 <= User.low s <= i - 1 -> User.high s = i - 1 ->
    speed_inv rows (User.low s) s ->
    exists s', for_loop (User.speedStep distanceEarth rows) i n s = Ret s' /\
               speed_inv rows (User.low s') s' /\
               0 <= User.low s' <= i + Z.of_nat n - 1 /\
               User.high s' = i + Z.of_nat n - 1.
Proof.
  induction n as [| n IH]; intros i s Hi Hn Hlow Hhigh Hinv; cbn [for_loop].
  - exists s. split; [reflexivity |]. split; [exact Hinv | lia].
  - destruct (speedStep_inv i s ltac:(lia) Hlow Hinv) as (s1 & -> & Hinv1 & Hl1 & Hh1).
    cbn [bind].
    destruct (IH (i + 1) s1 ltac:(lia) ltac:(lia) ltac:(lia) ltac:(lia) Hinv1)
      as (s' & Hs' & Hinv' & Hl' & Hh').
    exists s'. split; [exact Hs' |]. split; [exact Hinv' | lia].
Qed.

Lemma speed_scan_inv (u : User.t) :
  User.rowList_ u = rows -> rows <> [] ->
  exists s, User.findResidentialAreaBySpeed distanceEarth u = Ret s /\
            User.mapID s = size (User.files s) + 1 /\
            files_in_order (User.files s).
Proof.
  intros Hu Hne. unfold User.findResidentialAreaBySpeed. rewrite Hu.
  assert (Hlen : (1 <= length rows)%nat) by (destruct rows; [congruence | simpl; lia]).
  destruct (speed_loop_inv (length rows - 1) 1 (User.SpeedVars 1 0 0 []))
    as (s & -> & Hinv & Hl & Hh); cbn [User.low User.high]; unfold size; try lia.
  { split; [reflexivity |]. split; [split |].
    - intros k f Hf. cbn [User.files] in Hf. now rewrite lookup_nil in Hf.
    - intros k f g Hf. cbn [User.files] in Hf. now rewrite lookup_nil in Hf.
    - intros f r Hf. discriminate. }
  cbn [bind].
  destruct (emitSegment_inv
              (User.SpeedVars (User.mapID s) (User.low s) (User.high s + 1) (User.files s)))
    as (s' & Hs' & (Hid & Hfiles & _) & _); cbn [User.low User.high]; unfold size; try lia.
  { now apply (speed_inv_fields (User.low s) s). }
  eauto.
Qed.

End Scan.

Lemma emitSegment_avoids (e : failure) (rows : list DataRow.t) (s : User.speed_vars) :
  e = DivideByZero \/ e = OutOfFuel -> User.emitSegment rows s <> Fail e.
Proof.
  intros He. unfold User.emitSegment, createJsonFile, vec_at, getTimeValue.
  assert (Hjson : forall n i c,
             for_loop (fun i coords =>
                         d <- (if i <? 0 then Fail OutOfRange
                               else match rows !! Z.to_nat i with
                                    | Some x => Ret x
                                    | None => Fail OutOfRange
                                    end) ;;
                         Ret (coords ++ [(DataRow.getLon d, DataRow.getLat d)]))
                      i n c <> Fail e).
  { intros n i c. apply for_loop_avoids. intros j c'.
    destruct He as [-> | ->]; avoid. }
  destruct He as [-> | ->]; avoid; apply Hjson.
Qed.

Lemma speed_scan_avoids (e : failure) (u : User.t) :
  e = DivideByZero \/ e = OutOfFuel ->
  User.findResidentialAreaBySpeed distanceEarth u <> Fail e.
Proof.
  intros He. unfold User.findResidentialAreaBySpeed.
  apply bind_avoids; [| intros s _; now apply emitSegment_avoids].
  apply for_loop_avoids. intros i s. unfold User.speedStep.
  apply bind_avoids; [unfold vec_at; destruct He as [-> | ->]; avoid | intros rp _].
  apply bind_avoids; [unfold vec_at; destruct He as [-> | ->]; avoid | intros ri _].
  apply bind_avoids; [unfold getTimeValue; destruct He as [-> | ->]; avoid | intros ti _].
  apply bind_avoids; [unfold getTimeValue; destruct He as [-> | ->]; avoid | intros tp _].
  destruct (_ <? 0); [destruct He as [-> | ->]; discriminate |].
  destruct (_ || _); [discriminate |].
  destruct (PrimFloat.ltb _ _); [| discriminate].
  apply bind_avoids; [now apply emitSegment_avoids | discriminate].
Qed.

Lemma speed_scan_in_range (u : User.t) :
  User.rowList_ u <> [] ->
  User.findResidentialAreaBySpeed distanceEarth u <> Fail OutOfRange.
Proof.
  intros Hne. unfold User.findResidentialAreaBySpeed.
  assert (Hsize : 1 <= size (User.rowList_ u)).
  { unfold size. destruct (User.rowList_ u); [congruence | simpl; lia]. }
  destruct (speed_loop_in_range distanceEarth (User.rowList_ u)
              (length (User.rowList_ u) - 1) 1 (User.SpeedVars 1 0 0 []))
    as [Hsafe Hpost]; cbn [User.low User.high]; try lia.
  { unfold size in *. lia. }
  apply bind_in_range; [exact Hsafe | intros s Hs].
  destruct (Hpost s Hs) as [Hlow Hhigh].
  apply (emitSegment_in_range (User.rowList_ u)); cbn [User.low User.high];
    unfold size in *; lia.
Qed.

Lemma speed_scan_checks (u : User.t) (s : User.speed_vars) :
  User.findResidentialAreaBySpeed distanceEarth u = Ret s ->
  User.rowList_ u <> [] /\
  all_convertible (User.rowList_ u) /\ sorted_by_time (User.rowList_ u).
Proof.
  unfold User.findResidentialAreaBySpeed. intros Hr.
  apply bind_Ret in Hr as (s0 & Hloop & Hemit).
  destruct (User.rowList_ u) as [| r0 [| r1 rows]] eqn:Hrows.
  - simpl in Hloop. injection Hloop as <-. discriminate.
  - split; [discriminate |]. simpl in Hloop. injection Hloop as <-.
    apply emitSegment_Ret in Hemit as (rl & _ & Hrl & _ & Hcl & _).
    cbn in Hrl. injection Hrl as <-.
    split; [repeat constructor; exact Hcl |].
    unfold sorted_by_time. simpl. repeat constructor.
  - split; [discriminate |]. apply (speed_scan_Ret _ s0 Hloop). simpl. lia.
Qed.

(** [findResidentialAreaBySpeed] on a user with rows: it returns exactly
    when the date of every row can be converted and the rows are in
    ascending order of time, whatever distances [distanceEarth] reports; if
    not, it ends the process. *)
Theorem findResidentialAreaBySpeed_outcome (u : User.t) :
  User.rowList_ u <> [] ->
  ((exists s, User.findResidentialAreaBySpeed distanceEarth u = Ret s) <->
   all_convertible (User.rowList_ u) /\ sorted_by_time (User.rowList_ u)) /\
  (~ (all_convertible (User.rowList_ u) /\ sorted_by_time (User.rowList_ u)) ->
   User.findResidentialAreaBySpeed distanceEarth u = Fail ExitCalled).
Proof.
  intros Hne.
  assert (Hiff : (exists s, User.findResidentialAreaBySpeed distanceEarth u = Ret s) <->
                 all_convertible (User.rowList_ u) /\ sorted_by_time (User.rowList_ u)).
  { split.
    - intros [s Hs]. now apply speed_scan_checks in Hs as (_ & Hc & Hs).
    - intros [Hc Hs].
      destruct (speed_scan_inv (User.rowList_ u) Hc Hs u eq_refl Hne) as (s & Hs' & _).
      eauto. }
  split; [exact Hiff |]. intros Hbad.
  pose proof (speed_scan_in_range u Hne) as Hrange.
  pose proof (speed_scan_avoids DivideByZero u (or_introl eq_refl)) as Hdiv.
  pose proof (speed_scan_avoids OutOfFuel u (or_intror eq_refl)) as Hfuel.
  destruct (User.findResidentialAreaBySpeed distanceEarth u) as [s | []] eqn:Hres;
    try reflexivity; try congruence.
  exfalso. apply Hbad. apply Hiff. eauto.
Qed.

(** The files [findResidentialAreaBySpeed] has written when it returns: they
    are numbered 1, 2, ... in the order they are written, and [mapID] is one
    more than their count; each spans more than [minInterval] seconds from
    the first date-time in its name to the second, and holds at least one
    position; and a file ends no later than the next one starts. *)
Theorem speed_files_in_order (u : User.t) (s : User.speed_vars) :
  User.findResidentialAreaBySpeed distanceEarth u = Ret s ->
  User.mapID s = size (User.files s) + 1 /\ files_in_order (User.files s).
Proof.
  intros Hs. destruct (speed_scan_checks u s Hs) as (Hne & Hc & Hsorted).
  destruct (speed_scan_inv (User.rowList_ u) Hc Hsorted u eq_refl Hne)
    as (s' & Hs' & Hfacts).
  rewrite Hs in Hs'. injection Hs' as <-. exact Hfacts.
Qed.

End SpeedOutcome.

Lemma findResidentialAreaBySpeed_outcome_witness :
  (exists s, @User.findResidentialAreaBySpeed epoch_clock far two_stays_user = Ret s) /\
  @User.findResidentialAreaBySpeed epoch_clock far
     (User.mk [row_at 5 "A"; row_at 3 "A"] ∅ [] []) = Fail ExitCalled.
Proof.
  split.
  - apply (proj1 (@findResidentialAreaBySpeed_outcome epoch_clock far two_stays_user
                    ltac:(vm_compute; discriminate))).
    split.
    + vm_compute. repeat constructor; discriminate.
    + unfold sorted_by_time. vm_compute. repeat constructor; discriminate.
  - apply (proj2 (@findResidentialAreaBySpeed_outcome epoch_clock far
                    (User.mk [row_at 5 "A"; row_at 3 "A"] ∅ [] [])
                    ltac:(discriminate))).
    intros [_ Hs]. unfold sorted_by_time in Hs. simpl in Hs.
    apply Sorted_inv in Hs as [_ Hs]. apply HdRel_inv in Hs. lia.
Defined.

Lemma speed_files_in_order_witness :
  exists s, @User.findResidentialAreaBySpeed epoch_clock far two_stays_user = Ret s /\
            length (User.files s) = 2%nat /\
            User.mapID s = size (User.files s) + 1 /\
            files_in_order (User.files s).
Proof.
  eexists. split; [vm_compute; reflexivity |]. split; [reflexivity |].
  apply (@speed_files_in_order epoch_clock far two_stays_user). vm_compute. reflexivity.
Defined.

(** ** CSVRow: the fields of a line *)

Section Fields.

Lemma getline_field (f rest : string) :
  tab_free f -> CSVRow.getline (f +:+ String CSVRow.tab rest) = (f, rest).
Proof.
  induction f as [| ch f IH]; simpl; intros Hf.
  - try rewrite Ascii.eqb_refl. reflexivity.
  - destruct Hf as [Hch Hf]. apply Ascii.eqb_neq in Hch. rewrite Hch.
    now rewrite (IH Hf).
Qed.

Lemma getline_last (f : string) :
  tab_free f -> CSVRow.getline f = (f, EmptyString).
Proof.
  induction f as [| ch f IH]; simpl; intros Hf; [reflexivity |].
  destruct Hf as [Hch Hf]. apply Ascii.eqb_neq in Hch. rewrite Hch.
  now rewrite (IH Hf).
Qed.

Lemma getline_parts (s : string) :
  tab_free (CSVRow.getline s).1 /\
  (String.length (CSVRow.getline s).2 <= String.length s)%nat /\
  ((s = (CSVRow.getline s).1 /\ (CSVRow.getline s).2 = EmptyString) \/
   s = (CSVRow.getline s).1 +:+ String CSVRow.tab (CSVRow.getline s).2).
Proof.
  induction s as [| ch s IH]; cbn [CSVRow.getline].
  - split; [exact I |]. split; [simpl; lia |]. now left.
  - destruct (Ascii.eqb_spec ch CSVRow.tab) as [-> | Hne]; cbn [fst snd].
    + split; [exact I |]. split; [simpl; lia |]. now right.
    + destruct IH as (Hfree & Hlen & Hparts).
      split; [split; assumption |]. split; [simpl; lia |].
      destruct Hparts as [[Hs Hr] | Hs].
      * left. split; [f_equal; exact Hs | exact Hr].
      * right.
        change (String ch s =
                String ch ((CSVRow.getline s).1 +:+
                           String CSVRow.tab (CSVRow.getline s).2)).
        f_equal. exact Hs.
Qed.

Lemma length_joined (a b : string) :
  String.length (a +:+ b) = (String.length a + String.length b)%nat.
Proof. induction a as [| ch a IH]; simpl; [reflexivity | now rewrite IH]. Qed.

Lemma kept_cons (f g : string) (rest : list string) :
  kept (f :: g :: rest) = f :: kept (g :: rest).
Proof.
  unfold kept. rewrite last_cons_cons.
  destruct (last (g :: rest)) as [[| ch s] |]; reflexivity.
Qed.

Lemma join_length_cons (f g : string) (rest : list string) :
  String.length (join (f :: g :: rest)) =
    S (String.length f + String.length (join (g :: rest))).
Proof.
  change (join (f :: g :: rest)) with (f +:+ String CSVRow.tab (join (g :: rest))).
  induction f as [| ch f IH]; simpl; [reflexivity |]. simpl in IH. rewrite IH. lia.
Qed.

Lemma readCells_empty (fuel : nat) (m_data : list string) :
  CSVRow.readCells fuel EmptyString m_data = Ret m_data.
Proof. now destruct fuel. Qed.

Lemma readCells_step (fuel : nat) (s : string) (m_data : list string) :
  s <> EmptyString ->
  CSVRow.readCells (S fuel) s m_data =
    CSVRow.readCells fuel (CSVRow.getline s).2 (m_data ++ [(CSVRow.getline s).1]).
Proof. destruct s; [congruence | reflexivity]. Qed.

Lemma readCells_join (fields : list string) :
  Forall tab_free fields ->
  forall (fuel : nat) (m_data : list string),
    (String.length (join fields) <= fuel)%nat ->
    CSVRow.readCells fuel (join fields) m_data = Ret (m_data ++ kept fields).
Proof.
  induction fields as [| f [| g rest] IH]; intros Hfree fuel m_data Hfuel.
  - simpl. now rewrite readCells_empty, app_nil_r.
  - apply Forall_cons in Hfree as [Hf _]. simpl in *.
    destruct f as [| ch f]; [now rewrite readCells_empty, app_nil_r |].
    destruct fuel as [| fuel]; [simpl in Hfuel; lia |].
    rewrite readCells_step by discriminate. rewrite (getline_last _ Hf). cbn [fst snd].
    now rewrite readCells_empty.
  - apply Forall_cons in Hfree as [Hf Hrest].
    rewrite join_length_cons in Hfuel.
    destruct fuel as [| fuel]; [lia |].
    rewrite kept_cons.
    change (join (f :: g :: rest)) with (f +:+ String CSVRow.tab (join (g :: rest))).
    rewrite readCells_step by (destruct f; discriminate).
    rewrite (getline_field f _ Hf). cbn [fst snd]. rewrite (IH Hrest) by lia.
    now rewrite <- app_assoc.
Qed.

Lemma readCells_any (fuel : nat) :
  forall (s : string) (m_data : list string),
    (String.length s <= fuel)%nat ->
    exists fields,
      CSVRow.readCells fuel s m_data = Ret (m_data ++ fields) /\
      Forall tab_free fields /\
      (join fields = s \/ join (fields ++ [EmptyString]) = s).
Proof.
  induction fuel as [| fuel IH]; intros s m_data Hfuel.
  - destruct s; [| simpl in Hfuel; lia]. exists []. simpl.
    rewrite app_nil_r. auto.
  - destruct s as [| ch s'] eqn:Hs.
    + exists []. rewrite readCells_empty, app_nil_r. simpl. auto.
    + rewrite <- Hs in *.
      rewrite readCells_step by (rewrite Hs; discriminate).
      destruct (getline_parts s) as (Hfree & Hlen & Hparts).
      destruct Hparts as [[Hc Hr] | Hparts].
      * rewrite Hr. exists [(CSVRow.getline s).1].
        split; [now rewrite readCells_empty |]. split; [now repeat constructor |].
        left. simpl. now rewrite <- Hc.
      * assert (Hshorter : (String.length (CSVRow.getline s).2 <= fuel)%nat).
        { assert (Hl : String.length s =
                       (String.length (CSVRow.getline s).1 +
                        S (String.length (CSVRow.getline s).2))%nat).
          { rewrite Hparts at 1. rewrite length_joined. reflexivity. }
          lia. }
        destruct (IH _ (m_data ++ [(CSVRow.getline s).1]) Hshorter)
          as (F & HF & HFfree & HFjoin).
        exists ((CSVRow.getline s).1 :: F).
        split; [rewrite HF; now rewrite <- app_assoc |].
        split; [now constructor |].
        destruct F as [| g F].
        -- right. simpl in HFjoin. simpl. rewrite Hparts at 2.
           destruct HFjoin as [<- | <-]; reflexivity.
        -- destruct HFjoin as [HFjoin | HFjoin]; [left | right];
             rewrite Hparts at 2;
             [change (join ((CSVRow.getline s).1 :: g :: F))
                with ((CSVRow.getline s).1 +:+ String CSVRow.tab (join (g :: F)))
             |change (join (((CSVRow.getline s).1 :: g :: F) ++ [EmptyString]))
                with ((CSVRow.getline s).1 +:+
                      String CSVRow.tab (join ((g :: F) ++ [EmptyString])))];
             now rewrite HFjoin.
Qed.

(** [readNextRow] gives back the fields a line was made of: for fields
    without tabulators, reading the line in which they are joined by
    tabulators returns them, except that a last field that is empty is
    lost. *)
Theorem readNextRow_round_trip (fields : list string) :
  Forall tab_free fields ->
  CSVRow.readNextRow (join fields) = Ret (kept fields).
Proof.
  intros Hfree. unfold CSVRow.readNextRow.
  now rewrite (readCells_join fields Hfree _ []) by lia.
Qed.

(** [readNextRow] on any line returns fields without tabulators which,
    joined by tabulators, give the line again: as they are, or with one
    empty field more when the line ends with a tabulator. *)
Theorem readNextRow_fields (line : string) :
  exists fields,
    CSVRow.readNextRow line = Ret fields /\
    Forall tab_free fields /\
    (join fields = line \/ join (fields ++ [EmptyString]) = line).
Proof.
  unfold CSVRow.readNextRow.
  destruct (readCells_any (String.length line) line [] ltac:(lia)) as (F & HF & Hrest).
  exists F. split; [exact HF | exact Hrest].
Qed.

(** A line whose fourth field, the cell name, is empty: [readNextRow]
    delivers three fields, and [row[3]], which [readFile] reads unchecked,
    lies outside of them. *)
Theorem missing_cell_name_out_of_range (a b c : string) :
  tab_free a -> tab_free b -> tab_free c ->
  exists row,
    CSVRow.readNextRow (join [a; b; c; EmptyString]) = Ret row /\
    CSVRow.size row = 3 /\
    CSVRow.at_index row 3 = Fail OutOfRange.
Proof.
  intros Ha Hb Hc. exists [a; b; c]. split; [| split; reflexivity].
  unfold CSVRow.readNextRow.
  rewrite (readCells_join [a; b; c; EmptyString]) by (repeat constructor; assumption || lia).
  reflexivity.
Qed.

End Fields.

Lemma readNextRow_round_trip_witness :
  CSVRow.readNextRow
    (join ["2016-01-01 08:00:00"; "121.5"; "25.04"; "CELL_133"]%string) =
    Ret ["2016-01-01 08:00:00"; "121.5"; "25.04"; "CELL_133"]%string /\
  CSVRow.readNextRow (join ["2016-01-01 08:00:00"; "121.5"; "25.04"; ""]%string) =
    Ret ["2016-01-01 08:00:00"; "121.5"; "25.04"]%string.
Proof.
  split.
  - apply (readNextRow_round_trip ["2016-01-01 08:00:00"; "121.5"; "25.04"; "CELL_133"]%string).
    repeat constructor; discriminate.
  - apply (readNextRow_round_trip ["2016-01-01 08:00:00"; "121.5"; "25.04"; ""]%string).
    repeat constructor; discriminate.
Defined.

Lemma missing_cell_name_out_of_range_witness :
  exists row,
    CSVRow.readNextRow (join ["2016-01-01 08:00:00"; "121.5"; "25.04"; ""]%string) = Ret row /\
    CSVRow.size row = 3 /\
    CSVRow.at_index row 3 = Fail OutOfRange.
Proof.
  apply (missing_cell_name_out_of_range "2016-01-01 08:00:00" "121.5" "25.04");
    repeat constructor; discriminate.
Defined.

(** ** User::numConnections and User::getTimeSegments *)

Section Queries.
Context `{Clock}.

Lemma readFile_keys (records : list DataRow.t) (u : User.t) (cell : string) :
  User.readFile records = Ret u ->
  is_Some (User.cellMap_ u !! cell) <-> cell ∈ map DataRow.getTag records.
Proof.
  intros Hu.
  destruct (readFile_built records u Hu) as (_ & _ & (_ & Hpos & Hall) & Hgr).
  destruct (readFile_result records) as [_ Hres].
  destruct (Hres u Hu) as [[Hne _] _].
  split.
  - intros [idx Hidx]. destruct (Hpos _ _ Hidx) as (_ & c & Hc & Hname).
    pose proof (Forall_lookup_1 _ _ _ _ Hne Hc) as Hrows. cbn beta in Hrows.
    destruct (Hgr _ _ Hc) as [_ Hperm].
    destruct (Cell.rowList_ c) as [| r0 rows]; [congruence |].
    assert (Hr0 : r0 ∈ with_tag (Cell.getName c) records) by (rewrite <- Hperm; left).
    apply list_elem_of_filter in Hr0 as [Htag Hin].
    apply list_elem_of_fmap. exists r0. split; [now rewrite Htag | exact Hin].
  - intros Hin. apply list_elem_of_fmap in Hin as (r & -> & Hr). now apply Hall.
Qed.

(** The two queries on a user built by [readFile]: for a cell name that is
    in no record, both end the process; for a cell name of the file,
    [numConnections] returns the number of records with that name, and
    [getTimeSegments] returns what [Cell::getTimeSegments] returns for a
    cell holding exactly these records in ascending order of time. *)
Theorem user_queries (records : list DataRow.t) (u : User.t) (cell : string)
    (interval : Z) :
  User.readFile records = Ret u ->
  (cell ∉ map DataRow.getTag records ->
   UserMethods.numConnections u cell = Fail ExitCalled /\
   UserMethods.getTimeSegments u cell interval = Fail ExitCalled) /\
  (cell ∈ map DataRow.getTag records ->
   UserMethods.numConnections u cell = Ret (size (with_tag cell records)) /\
   exists c : Cell.t,
     UserMethods.getTimeSegments u cell interval = Cell.getTimeSegments c interval /\
     Cell.getName c = cell /\
     sorted_by_time (Cell.rowList_ c) /\
     Permutation (Cell.rowList_ c) (with_tag cell records)).
Proof.
  intros Hu. pose proof (readFile_keys records u cell Hu) as Hkeys.
  destruct (readFile_built records u Hu) as (_ & _ & (_ & Hpos & _) & Hgr).
  unfold UserMethods.numConnections, UserMethods.getTimeSegments, UserMethods.isValid,
    User.cellIndex.
  split.
  - intros Hnot. destruct (User.cellMap_ u !! cell) as [idx |] eqn:Hidx.
    + exfalso. apply Hnot, Hkeys. eauto.
    + split; reflexivity.
  - intros Hin. apply Hkeys in Hin as [idx Hidx]. rewrite Hidx. cbn [bind].
    destruct (Hpos _ _ Hidx) as (H0 & c & Hc & Hname).
    change (default 0 (Some idx)) with idx.
    rewrite (vec_at_lookup _ _ _ H0 Hc). cbn [bind].
    destruct (Hgr _ _ Hc) as [Hsorted Hperm]. rewrite Hname in Hperm.
    split.
    + unfold Cell.numConnections, size. now rewrite (Permutation_length Hperm).
    + exists c. auto.
Qed.

End Queries.

Lemma user_queries_witness :
  @UserMethods.numConnections epoch_clock two_cells_user "C" = Fail ExitCalled /\
  @UserMethods.getTimeSegments epoch_clock two_cells_user "C" 180 = Fail ExitCalled /\
  @UserMethods.numConnections epoch_clock two_cells_user "A" = Ret 5.
Proof.
  split; [| split].
  - apply (proj1 (@user_queries epoch_clock two_cells two_cells_user "C" 180 eq_refl)).
    vm_compute. intros Hin. repeat (apply elem_of_cons in Hin as [Hin | Hin];
      [discriminate |]). now apply elem_of_nil in Hin.
  - apply (proj1 (@user_queries epoch_clock two_cells two_cells_user "C" 180 eq_refl)).
    vm_compute. intros Hin. repeat (apply elem_of_cons in Hin as [Hin | Hin];
      [discriminate |]). now apply elem_of_nil in Hin.
  - apply (proj2 (@user_queries epoch_clock two_cells two_cells_user "A" 180 eq_refl)).
    left.
Defined.

(** ** calculateSpeedOfEachTime *)

Section SpeedOfEachTime.
Context `{Clock}.
Variable distanceEarth : float -> float -> float -> float -> float.

Lemma speedLine_known (rows : list DataRow.t) (i : Z) (lines : list (tm * float))
    (rp ri : DataRow.t) :
  1 <= i ->
  rows !! Z.to_nat (i - 1) = Some rp -> rows !! Z.to_nat i = Some ri ->
  convertible (DataRow.getDateTime rp) -> convertible (DataRow.getDateTime ri) ->
  time_of rp <= time_of ri ->
  UserMethods.speedLine distanceEarth rows i lines =
    Ret (lines ++ line_of distanceEarth rp ri).
Proof.
  intros Hi Hrp Hri Hcp Hci Hle. unfold UserMethods.speedLine, line_of.
  rewrite (vec_at_lookup rows (i - 1) rp) by (lia || assumption).
  rewrite (vec_at_lookup rows i ri) by (lia || assumption). cbn [bind].
  rewrite (getTimeValue_convertible _ Hci), (getTimeValue_convertible _ Hcp). cbn [bind].
  fold (time_of ri). fold (time_of rp).
  destruct (Z.ltb_spec (time_of ri - time_of rp) 0); [lia |].
  destruct (Z.eqb_spec (time_of ri - time_of rp) 0) as [Hz | Hnz],
           (Z.eqb_spec (time_of ri) (time_of rp)) as [He | Hne]; try lia.
  - now rewrite app_nil_r.
  - reflexivity.
Qed.

Lemma speedLine_Ret (rows : list DataRow.t) (i : Z) (lines lines' : list (tm * float)) :
  UserMethods.speedLine distanceEarth rows i lines = Ret lines' ->
  1 <= i /\
  exists rp ri,
    rows !! Z.to_nat (i - 1) = Some rp /\ rows !! Z.to_nat i = Some ri /\
    convertible (DataRow.getDateTime rp) /\ convertible (DataRow.getDateTime ri) /\
    time_of rp <= time_of ri.
Proof.
  unfold UserMethods.speedLine. intros Hr.
  apply bind_Ret in Hr as (rp & Hrp & Hr). apply bind_Ret in Hr as (ri & Hri & Hr).
  apply bind_Ret in Hr as (ti & Hti & Hr). apply bind_Ret in Hr as (tp & Htp & Hr).
  apply vec_at_Ret in Hrp as [Hi Hrp]. apply vec_at_Ret in Hri as [_ Hri].
  apply getTimeValue_Ret in Hti as [Hci ->]. apply getTimeValue_Ret in Htp as [Hcp ->].
  split; [lia |]. exists rp, ri. repeat split; try assumption.
  unfold time_of.
  destruct (Z.ltb_spec (mktime (DataRow.getDateTime ri) - mktime (DataRow.getDateTime rp)) 0);
    [discriminate | lia].
Qed.

Lemma speedLine_Fail (rows : list DataRow.t) (i : Z) (lines : list (tm * float))
    (f : failure) :
  1 <= i < size rows ->
  UserMethods.speedLine distanceEarth rows i lines = Fail f -> f = ExitCalled.
Proof.
  intros Hi. unfold UserMethods.speedLine.
  destruct (vec_at_in_range rows (i - 1)) as [rp ->]; [lia |].
  destruct (vec_at_in_range rows i) as [ri ->]; [lia |]. cbn [bind].
  destruct (getTimeValue (DataRow.getDateTime ri)) as [ti | fi] eqn:Hti; cbn [bind].
  2:{ intros [= <-]. now apply getTimeValue_Fail in Hti as [-> _]. }
  destruct (getTimeValue (DataRow.getDateTime rp)) as [tp | fp] eqn:Htp; cbn [bind].
  2:{ intros [= <-]. now apply getTimeValue_Fail in Htp as [-> _]. }
  destruct (ti - tp <? 0); [now intros [= <-] |].
  destruct (ti - tp =? 0); discriminate.
Qed.

Lemma speed_lines_loop (rows : list DataRow.t) (n : nat) :
  all_convertible rows -> sorted_by_time rows ->
  forall (i : Z) (lines : list (tm * float)) (rp : DataRow.t),
    1 <= i -> i + Z.of_nat n <= size rows ->
    rows !! Z.to_nat (i - 1) = Some rp ->
    for_loop (UserMethods.speedLine distanceEarth rows) i n lines =
      Ret (lines ++ speed_lines distanceEarth rp (take n (drop (Z.to_nat i) rows))).
Proof.
  intros Hconv Hsorted. induction n as [| n IH]; intros i lines rp Hi Hn Hrp;
    cbn [for_loop].
  - now rewrite take_0, app_nil_r.
  - destruct (lookup_lt_is_Some_2 rows (Z.to_nat i)) as [ri Hri];
      [unfold size in Hn; lia |].
    rewrite (speedLine_known rows i lines rp ri); try assumption.
    + cbn [bind]. rewrite (IH (i + 1) _ ri) by (lia || (now replace (i + 1 - 1) with i by lia)).
      rewrite (drop_S _ _ _ Hri). cbn [take speed_lines]. rewrite <- app_assoc.
      replace (Z.to_nat (i + 1)) with (S (Z.to_nat i)) by lia. reflexivity.
    + exact (Forall_lookup_1 _ _ _ _ Hconv Hrp).
    + exact (Forall_lookup_1 _ _ _ _ Hconv Hri).
    + apply (sorted_lookup_le rows Hsorted (Z.to_nat (i - 1)) (Z.to_nat i));
        [lia | assumption | assumption].
Qed.

Lemma speed_lines_loop_Ret (rows : list DataRow.t) (n : nat) :
  forall (i : Z) (lines lines' : list (tm * float)),
    1 <= i ->
    for_loop (UserMethods.speedLine distanceEarth rows) i n lines = Ret lines' ->
    forall k : nat,
      (Z.to_nat i <= k < Z.to_nat i + n)%nat ->
      exists rp rk,
        rows !! (k - 1)%nat = Some rp /\ rows !! k = Some rk /\
        convertible (DataRow.getDateTime rp) /\ convertible (DataRow.getDateTime rk) /\
        time_of rp <= time_of rk.
Proof.
  induction n as [| n IH]; intros i lines lines' Hi Hr k Hk; [lia |].
  cbn [for_loop] in Hr. apply bind_Ret in Hr as (l1 & Hl1 & Hr).
  destruct (decide (k = Z.to_nat i)) as [-> | Hne].
  - apply speedLine_Ret in Hl1 as (_ & rp & ri & Hrp & Hri & Hfacts).
    exists rp, ri. replace (Z.to_nat i - 1)%nat with (Z.to_nat (i - 1)) by lia. auto.
  - apply (IH (i + 1) l1 lines'); [lia | exact Hr | lia].
Qed.

Lemma speed_lines_loop_Fail (rows : list DataRow.t) (n : nat) :
  forall (i : Z) (lines : list (tm * float)) (f : failure),
    1 <= i -> i + Z.of_nat n <= size rows ->
    for_loop (UserMethods.speedLine distanceEarth rows) i n lines = Fail f ->
    f = ExitCalled.
Proof.
  induction n as [| n IH]; intros i lines f Hi Hn; cbn [for_loop]; [discriminate |].
  destruct (UserMethods.speedLine distanceEarth rows i lines) as [l1 | f1] eqn:Hl1;
    cbn [bind].
  - apply IH; lia.
  - intros [= <-]. apply (speedLine_Fail rows i lines f1); [lia | exact Hl1].
Qed.

Lemma speed_lines_checks (rows : list DataRow.t) (lines : list (tm * float)) :
  for_loop (UserMethods.speedLine distanceEarth rows) 1 (length rows - 1) [] = Ret lines ->
  (2 <= length rows)%nat ->
  all_convertible rows /\ sorted_by_time rows.
Proof.
  intros Hr Hlen. pose proof (speed_lines_loop_Ret rows _ 1 _ lines ltac:(lia) Hr) as Hall.
  split.
  - apply Forall_lookup. intros k r Hk. pose proof (lookup_lt_Some _ _ _ Hk) as Hlt.
    destruct k as [| k].
    + destruct (Hall 1%nat ltac:(lia)) as (rp & _ & Hrp & _ & Hcp & _).
      simpl in Hrp. rewrite Hk in Hrp. injection Hrp as <-. exact Hcp.
    + destruct (Hall (S k) ltac:(lia)) as (_ & rk & _ & Hrk & _ & Hck & _).
      rewrite Hk in Hrk. injection Hrk as <-. exact Hck.
  - apply adjacent_sorted. intros k a b Ha Hb.
    pose proof (lookup_lt_Some _ _ _ Hb) as Hlt.
    destruct (Hall (S k) ltac:(lia)) as (rp & rk & Hrp & Hrk & _ & _ & Hle).
    replace (S k - 1)%nat with k in Hrp by lia.
    rewrite Ha in Hrp. rewrite Hb in Hrk. injection Hrp as <-. injection Hrk as <-.
    exact Hle.
Qed.

Lemma calculateSpeed_sorted (u : User.t) (r0 : DataRow.t) (rest : list DataRow.t) :
  User.rowList_ u = r0 :: rest ->
  all_convertible (User.rowList_ u) -> sorted_by_time (User.rowList_ u) ->
  UserMethods.calculateSpeedOfEachTime distanceEarth u =
    Ret (speed_lines distanceEarth r0 rest).
Proof.
  intros Hrows Hconv Hsorted. unfold UserMethods.calculateSpeedOfEachTime.
  cbn zeta. rewrite (speed_lines_loop _ _ Hconv Hsorted 1 [] r0).
  - rewrite Hrows. simpl. replace (length rest - 0)%nat with (length rest) by lia.
    now rewrite firstn_all.
  - lia.
  - rewrite Hrows. unfold size. simpl. lia.
  - rewrite Hrows. reflexivity.
Qed.

(** For rows in ascending order of time whose dates can be converted,
    [calculateSpeedOfEachTime] writes, row after row from the second on, one
    line for each row whose time differs from the time of the row before
    it: that row's time and 3600 times the distance divided by the
    difference of the times. *)
Theorem calculateSpeedOfEachTime_lines (u : User.t) (r0 : DataRow.t)
    (rest : list DataRow.t) :
  User.rowList_ u = r0 :: rest ->
  all_convertible (User.rowList_ u) -> sorted_by_time (User.rowList_ u) ->
  UserMethods.calculateSpeedOfEachTime distanceEarth u =
    Ret (speed_lines distanceEarth r0 rest).
Proof. apply calculateSpeed_sorted. Qed.

Lemma calculateSpeed_short (u : User.t) :
  (length (User.rowList_ u) <= 1)%nat ->
  UserMethods.calculateSpeedOfEachTime distanceEarth u = Ret [].
Proof.
  intros Hlen. unfold UserMethods.calculateSpeedOfEachTime.
  now replace (length (User.rowList_ u) - 1)%nat with 0%nat by lia.
Qed.

(** [calculateSpeedOfEachTime] returns exactly when there is at most one
    row, in which case no date is converted, or every date can be converted
    and the rows are in ascending order of time; if not, it ends the
    process.  It reads no row outside of [rowList_]. *)
Theorem calculateSpeedOfEachTime_outcome (u : User.t) :
  ((exists lines, UserMethods.calculateSpeedOfEachTime distanceEarth u = Ret lines) <->
   (length (User.rowList_ u) <= 1)%nat \/
   (all_convertible (User.rowList_ u) /\ sorted_by_time (User.rowList_ u))) /\
  ((2 <= length (User.rowList_ u))%nat ->
   ~ (all_convertible (User.rowList_ u) /\ sorted_by_time (User.rowList_ u)) ->
   UserMethods.calculateSpeedOfEachTime distanceEarth u = Fail ExitCalled).
Proof.
  assert (Hret : forall lines,
             UserMethods.calculateSpeedOfEachTime distanceEarth u = Ret lines ->
             (2 <= length (User.rowList_ u))%nat ->
             all_convertible (User.rowList_ u) /\ sorted_by_time (User.rowList_ u)).
  { intros lines Hl. now apply speed_lines_checks with (lines := lines). }
  split.
  - split.
    + intros [lines Hl].
      destruct (le_lt_dec (length (User.rowList_ u)) 1) as [Hle | Hgt]; [now left |].
      right. apply (Hret lines Hl). lia.
    + intros [Hlen | [Hconv Hsorted]]; [rewrite calculateSpeed_short; eauto |].
      destruct (User.rowList_ u) as [| r0 rest] eqn:Hrows.
      * rewrite calculateSpeed_short; [eauto | rewrite Hrows; simpl; lia].
      * rewrite (calculateSpeed_sorted u r0 rest Hrows); rewrite ?Hrows; eauto.
  - intros Hlen Hbad.
    destruct (UserMethods.calculateSpeedOfEachTime distanceEarth u) as [lines | f] eqn:Hres.
    + exfalso. apply Hbad. now apply (Hret lines).
    + unfold UserMethods.calculateSpeedOfEachTime in Hres.
      apply speed_lines_loop_Fail in Hres as ->; [reflexivity | lia | unfold size; lia].
Qed.

End SpeedOfEachTime.

Lemma calculateSpeedOfEachTime_lines_witness :
  exists lines,
    @UserMethods.calculateSpeedOfEachTime epoch_clock far two_stays_user = Ret lines /\
    map fst lines = [10000; 10001; 20001].
Proof.
  eexists. split.
  - apply (@calculateSpeedOfEachTime_lines epoch_clock far two_stays_user
             (row_at 0 "A") [row_at 10000 "A"; row_at 10001 "B"; row_at 20001 "B"]).
    + reflexivity.
    + vm_compute. repeat constructor; discriminate.
    + unfold sorted_by_time. vm_compute. repeat constructor; discriminate.
  - reflexivity.
Defined.

Lemma calculateSpeedOfEachTime_outcome_witness :
  (exists lines,
      @UserMethods.calculateSpeedOfEachTime epoch_clock far
         (User.mk [row_at (-1) "A"] ∅ [] []) = Ret lines) /\
  @UserMethods.calculateSpeedOfEachTime epoch_clock far
     (User.mk [row_at 5 "A"; row_at 3 "A"] ∅ [] []) = Fail ExitCalled.
Proof.
  split.
  - apply (proj1 (@calculateSpeedOfEachTime_outcome epoch_clock far
                    (User.mk [row_at (-1) "A"] ∅ [] []))).
    left. simpl. lia.
  - apply (proj2 (@calculateSpeedOfEachTime_outcome epoch_clock far
                    (User.mk [row_at 5 "A"; row_at 3 "A"] ∅ [] []))); [simpl; lia |].
    intros [_ Hs]. unfold sorted_by_time in Hs. simpl in Hs.
    apply Sorted_inv in Hs as [_ Hs]. apply HdRel_inv in Hs. lia.
Defined.

(** ** main *)

Section Main.
Context `{Clock}.
Variable distanceEarth : float -> float -> float -> float -> float.

Lemma topKLoop_rows (interval : Z) (fuel : nat) :
  forall (u : User.t) (st : User.areas) (r : User.t * User.areas),
    User.topKLoop fuel interval u st = Ret r ->
    User.rowList_ r.1 = User.rowList_ u.
Proof.
  induction fuel as [| fuel IH]; intros u st r; cbn [User.topKLoop];
    destruct (PriorityQueue.top (User.cellQueue_ u)) as [[tag num] |];
    try (intros [= <-]; reflexivity); try discriminate.
  intros Hr. apply bind_Ret in Hr as (c & _ & Hr).
  apply bind_Ret in Hr as (segs & _ & Hr).
  destruct (interval =? 0); [discriminate |].
  destruct (num <? 3600 ÷ interval); [now injection Hr as <- |].
  apply bind_Ret in Hr as (st' & _ & Hr).
  now rewrite (IH _ _ _ Hr).
Qed.

Lemma labelRows_times (m : gmap string Z) (rows : list DataRow.t) :
  timestamps (User.labelRows m rows) = timestamps rows.
Proof.
  unfold timestamps, User.labelRows. rewrite map_map. apply map_ext.
  intros r. now destruct (m !! DataRow.getTag r).
Qed.

Lemma found_rows_times (u : User.t) (interval : Z) (r : User.t * User.areas) :
  User.findResidentialAreaByTopKCells u interval = Ret r ->
  timestamps (User.rowList_ r.1) = timestamps (User.rowList_ u).
Proof.
  unfold User.findResidentialAreaByTopKCells. intros Hr.
  apply bind_Ret in Hr as (r0 & Hloop & [= <-]). cbn [fst User.rowList_].
  now rewrite labelRows_times, (topKLoop_rows _ _ _ _ _ Hloop).
Qed.

Lemma all_convertible_times (rows rows' : list DataRow.t) :
  timestamps rows' = timestamps rows -> all_convertible rows -> all_convertible rows'.
Proof.
  unfold all_convertible, timestamps. intros Heq Hconv.
  apply (Forall_map DataRow.getDateTime convertible). rewrite Heq.
  now apply (Forall_map DataRow.getDateTime convertible).
Qed.

Lemma single_record_index (d : DataRow.t) :
  User.readFile [d] =
    Ret (User.mk [d] {[DataRow.getTag d := 0]} [Cell.mk (DataRow.getTag d) [d]]
                 [(DataRow.getTag d, 1)]).
Proof.
  unfold User.readFile. cbn [foldM]. unfold User.addRow. cbn [User.cellMap_].
  rewrite lookup_empty. cbn [bind User.cellList_ User.cellQueue_ User.rowList_ app].
  cbn [foldM]. unfold User.rankAndSort at 1. reflexivity.
Qed.

(** The program as a whole, from the records of the file: when every date
    can be converted it runs through [readFile],
    [findResidentialAreaByTopKCells] with the interval 180 and
    [calculateSpeedOfEachTime], and returns 0; when some date cannot be
    converted it ends through [exit] before that. *)
Theorem main_outcome (records : list DataRow.t) :
  (all_convertible records -> UserMethods.main distanceEarth records = Ret 0) /\
  (~ all_convertible records ->
   UserMethods.main distanceEarth records = Fail ExitCalled).
Proof.
  unfold UserMethods.main. split.
  - intros Hconv.
    destruct (proj1 (readFile_decides records) (or_intror Hconv)) as [u Hu].
    rewrite Hu. cbn [bind].
    destruct (topK_returns records u 180 Hu Hconv ltac:(lia)) as [r Hr].
    rewrite Hr. cbn [bind].
    destruct (readFile_built records u Hu) as (Hsorted & Hperm & _).
    pose proof (found_rows_times u 180 r Hr) as Htimes.
    assert (Hconv' : all_convertible (User.rowList_ r.1)).
    { apply (all_convertible_times (User.rowList_ u)); [exact Htimes |].
      unfold all_convertible. now rewrite Hperm. }
    assert (Hsorted' : sorted_by_time (User.rowList_ r.1)).
    { unfold sorted_by_time. now rewrite Htimes. }
    destruct (User.rowList_ r.1) as [| r0 rest] eqn:Hrows.
    + rewrite calculateSpeed_short by (rewrite Hrows; simpl; lia). reflexivity.
    + rewrite (calculateSpeed_sorted distanceEarth r.1 r0 rest Hrows);
        rewrite ?Hrows; [reflexivity | assumption | assumption].
  - intros Hbad. destruct records as [| d [| d' records]].
    + exfalso. apply Hbad. constructor.
    + rewrite single_record_index. cbn [bind].
      assert (Hd : ~ convertible (DataRow.getDateTime d)).
      { intros Hd. apply Hbad. now repeat constructor. }
      unfold User.findResidentialAreaByTopKCells.
      cbn [User.cellQueue_ length User.topKLoop PriorityQueue.top PriorityQueue.select
             fmap option_fmap option_map fst].
      unfold User.cellIndex. cbn [User.cellMap_]. rewrite lookup_singleton_eq.
      change (default 0 (Some 0)) with 0.
      cbn [User.subscripted User.cellList_]. unfold vec_at. cbn [Z.ltb Z.compare].
      change (Z.to_nat 0) with 0%nat. cbn [lookup list_lookup bind].
      rewrite (getTimeSegments_exits (Cell.mk (DataRow.getTag d) [d]) 180);
        [reflexivity | discriminate |].
      intros [_ Hall]. apply Forall_cons in Hall as [Hc _]. now apply Hd.
    + rewrite (proj2 (readFile_decides (d :: d' :: records)) ltac:(simpl; lia) Hbad).
      reflexivity.
Qed.

End Main.

Lemma main_outcome_witness :
  @UserMethods.main epoch_clock far three_cells = Ret 0 /\
  @UserMethods.main epoch_clock far [row_at (-1) "A"] = Fail ExitCalled.
Proof.
  split.
  - apply (proj1 (@main_outcome epoch_clock far three_cells)).
    repeat constructor; discriminate.
  - apply (proj2 (@main_outcome epoch_clock far [row_at (-1) "A"])).
    intros Hall. apply Forall_cons in Hall as [Hc _]. now apply Hc.
Defined.

(** ** averageLatLon *)

Section Average.
Context `{Clock}.

Lemma average_fold (areaID : Z) (rows : list DataRow.t) :
  forall s : average_vars,
    fold_left (average_step areaID) rows s =
      fold_left (average_step areaID) (of_area areaID rows) s /\
    count (fold_left (average_step areaID) rows s) =
      count s + size (of_area areaID rows).
Proof.
  unfold of_area, size. induction rows as [| d rows IH]; intros s.
  - simpl. split; [reflexivity | lia].
  - cbn [fold_left].
    destruct (Z.eqb_spec (DataRow.getAreaID d) areaID) as [Heq | Hne].
    + rewrite filter_cons_True by exact Heq. cbn [fold_left length].
      destruct (IH (average_step areaID s d)) as [Hfold Hcount].
      split; [exact Hfold |]. rewrite Hcount. unfold average_step.
      rewrite (proj2 (Z.eqb_eq _ _) Heq). cbn [count]. lia.
    + rewrite filter_cons_False by exact Hne.
      replace (average_step areaID s d) with s; [apply IH |].
      unfold average_step. now rewrite (proj2 (Z.eqb_neq _ _) Hne).
Qed.

(** [averageLatLon] for an area: [count] ends as the number of rows that
    carry the area; rows of other areas make no difference to the result;
    and for an area that no row carries both results are 0 / 0, not a
    number. *)
Theorem averageLatLon_of_area (rows : list DataRow.t) (areaID : Z) :
  count (fold_left (average_step areaID) rows (AverageVars 0%float 0%float 0)) =
    size (of_area areaID rows) /\
  averageLatLon rows areaID = averageLatLon (of_area areaID rows) areaID /\
  (of_area areaID rows = [] -> averageLatLon rows areaID = (nan, nan)).
Proof.
  destruct (average_fold areaID rows (AverageVars 0%float 0%float 0)) as [Hfold Hcount].
  assert (Hsame : averageLatLon rows areaID = averageLatLon (of_area areaID rows) areaID).
  { unfold averageLatLon. cbn zeta. now rewrite Hfold. }
  split; [rewrite Hcount; cbn [count]; lia |]. split; [exact Hsame |].
  intros Hnone. rewrite Hsame, Hnone. vm_compute. reflexivity.
Qed.

End Average.

Lemma averageLatLon_of_area_witness :
  @averageLatLon epoch_clock two_cells 1 = (nan, nan).
Proof.
  apply (@averageLatLon_of_area epoch_clock two_cells 1). reflexivity.
Defined.

(** ** merge keeps the times covered *)

Section Union.
Context `{Clock}.

Lemma covers_nil (z : Z) : covers [] z <-> False.
Proof. split; [intros (p & Hp & _); now apply elem_of_nil in Hp | tauto]. Qed.

Lemma covers_cons (x : TIMEPAIR) (l : list TIMEPAIR) (z : Z) :
  covers (x :: l) z <-> holds z x = true \/ covers l z.
Proof.
  unfold covers. split.
  - intros (p & Hp & Hz). apply elem_of_cons in Hp as [-> | Hp]; eauto.
  - intros [Hz | (p & Hp & Hz)]; [exists x | exists p];
      (split; [rewrite elem_of_cons; auto | exact Hz]).
Qed.

Lemma covers_app (l1 l2 : list TIMEPAIR) (z : Z) :
  covers (l1 ++ l2) z <-> covers l1 z \/ covers l2 z.
Proof.
  unfold covers. split.
  - intros (p & Hp & Hz). apply elem_of_app in Hp as [Hp | Hp]; eauto.
  - intros [(p & Hp & Hz) | (p & Hp & Hz)]; exists p;
      (split; [rewrite elem_of_app; auto | exact Hz]).
Qed.

Lemma holds_iff (z : Z) (p : TIMEPAIR) :
  holds z p = true <-> mktime p.1 <= z <= mktime p.2.
Proof. unfold holds. rewrite andb_true_iff, !Z.leb_le. tauto. Qed.

Lemma place_covers (merged : list TIMEPAIR) (x : TIMEPAIR) (z : Z) :
  (forall back, last merged = Some back -> mktime back.1 <= mktime x.1) ->
  covers (place merged x) z <-> covers merged z \/ holds z x = true.
Proof.
  intros Hback. unfold place. destruct (last merged) as [back |] eqn:Hlast.
  2:{ rewrite covers_app, covers_cons, covers_nil. tauto. }
  specialize (Hback back eq_refl).
  destruct (Z.ltb_spec (mktime back.2) (mktime x.1)) as [Hlt | Hge].
  { rewrite covers_app, covers_cons, covers_nil. tauto. }
  apply last_Some in Hlast as [l ->]. rewrite removelast_last.
  rewrite !covers_app, !covers_cons, !covers_nil, !holds_iff. cbn [fst snd].
  assert (Hcore : mktime back.1 <= z <=
                  mktime (if mktime back.2 <? mktime x.2 then x.2 else back.2) <->
                  mktime back.1 <= z <= mktime back.2 \/ mktime x.1 <= z <= mktime x.2).
  { destruct (Z.ltb_spec (mktime back.2) (mktime x.2)); split; lia. }
  rewrite Hcore. tauto.
Qed.

Lemma ascending_snoc (l : list TIMEPAIR) (x : TIMEPAIR) :
  ascending (l ++ [x]) <->
  ascending l /\ Forall (fun y => mktime y.1 <= mktime x.1) l.
Proof.
  unfold ascending. rewrite StronglySorted_app. split.
  - intros (Hcross & Hl & _). split; [exact Hl |]. apply Forall_forall.
    intros y Hy. apply Hcross; [exact Hy | left].
  - intros [Hl Hall]. split; [| split; [exact Hl | repeat constructor]].
    intros y1 y2 Hy1 Hy2. apply list_elem_of_singleton in Hy2 as ->.
    rewrite Forall_forall in Hall. now apply Hall.
Qed.

Lemma place_orderly (merged : list TIMEPAIR) (x : TIMEPAIR) :
  orderly merged -> well_formed x ->
  (forall back, last merged = Some back -> mktime back.1 <= mktime x.1) ->
  orderly (place merged x) /\
  Forall (fun y => mktime y.1 <= mktime x.1) (place merged x).
Proof.
  intros [Hwf Hasc] Hx Hback. unfold place.
  destruct (last merged) as [back |] eqn:Hlast.
  2:{ apply last_None in Hlast as ->. simpl. split; [split |].
      - constructor; [exact Hx | constructor].
      - constructor; constructor.
      - constructor; [lia | constructor]. }
  specialize (Hback back eq_refl).
  apply last_Some in Hlast as [l ->].
  apply Forall_app in Hwf as [Hwfl Hwfb]. apply Forall_cons in Hwfb as [Hwfb _].
  apply ascending_snoc in Hasc as [Hascl Hle].
  assert (Hall : Forall (fun y => mktime y.1 <= mktime x.1) l).
  { eapply Forall_impl; [exact Hle |]. cbn beta. intros y Hy. lia. }
  destruct (Z.ltb_spec (mktime back.2) (mktime x.1)) as [Hlt | Hge].
  - split; [split |].
    + apply Forall_app. split; [| constructor; [exact Hx | constructor]].
      apply Forall_app. split; [exact Hwfl | constructor; [exact Hwfb | constructor]].
    + apply ascending_snoc. split.
      * apply ascending_snoc. split; assumption.
      * apply Forall_app. split; [exact Hall | repeat constructor; exact Hback].
    + apply Forall_app. split; [| repeat constructor; lia].
      apply Forall_app. split; [exact Hall | repeat constructor; exact Hback].
  - rewrite removelast_last.
    destruct Hwfb as (Hb1 & Hb2 & Hble). destruct Hx as (Hx1 & Hx2 & Hxle).
    split; [split |].
    + apply Forall_app. split; [exact Hwfl |]. constructor; [| constructor].
      split; [exact Hb1 |]. cbn [fst snd].
      destruct (Z.ltb_spec (mktime back.2) (mktime x.2)); split; (assumption || lia).
    + apply ascending_snoc. split; [exact Hascl | exact Hle].
    + apply Forall_app. split; [exact Hall | repeat constructor; exact Hback].
Qed.

Lemma place_start_bound (merged rest : list TIMEPAIR) (x : TIMEPAIR) :
  orderly merged -> well_formed x ->
  (forall back, last merged = Some back -> mktime back.1 <= mktime x.1) ->
  Forall (fun y => mktime x.1 <= mktime y.1) rest ->
  start_bound (place merged x) rest.
Proof.
  intros Hm Hx Hback Hrest y Hy.
  destruct (place_orderly merged x Hm Hx Hback) as [_ Hle].
  assert (Hyx : mktime y.1 <= mktime x.1).
  { rewrite Forall_forall in Hle. apply Hle.
    apply last_Some in Hy as [l ->]. apply elem_of_app. right. left. }
  eapply Forall_impl; [exact Hrest |]. cbn beta. intros w Hw. lia.
Qed.

Lemma ascending_cons (x : TIMEPAIR) (l : list TIMEPAIR) :
  ascending (x :: l) -> Forall (fun y => mktime x.1 <= mktime y.1) l /\ ascending l.
Proof. unfold ascending. now rewrite StronglySorted_cons. Qed.

Lemma weave_same_times (n : nat) :
  forall v1 v2 merged : list TIMEPAIR,
    (length v1 + length v2 = n)%nat ->
    orderly merged -> orderly v1 -> orderly v2 ->
    start_bound merged (v1 ++ v2) ->
    orderly (weave merged v1 v2) /\
    forall z, covers (weave merged v1 v2) z <->
              covers merged z \/ covers v1 z \/ covers v2 z.
Proof.
  assert (Htail : forall (merged s : list TIMEPAIR) (x : TIMEPAIR),
             orderly merged -> orderly (x :: s) ->
             (forall back, last merged = Some back -> mktime back.1 <= mktime x.1) ->
             orderly (place merged x ++ s) /\
             forall z, covers (place merged x ++ s) z <->
                       covers merged z \/ covers (x :: s) z).
  { intros merged s x Hm [Hwf Hasc] Hback.
    apply Forall_cons in Hwf as [Hx Hwf]. apply ascending_cons in Hasc as [Hxs Hasc].
    destruct (place_orderly merged x Hm Hx Hback) as [[Hpwf Hpasc] Hple].
    split; [split |].
    - apply Forall_app. split; assumption.
    - unfold ascending in *. apply StronglySorted_app. split; [| split; assumption].
      intros y1 y2 Hy1 Hy2. rewrite Forall_forall in Hple, Hxs.
      specialize (Hple y1 Hy1). specialize (Hxs y2 Hy2). cbn beta in *. lia.
    - intros z. rewrite covers_app, (place_covers merged x z Hback), covers_cons. tauto. }
  induction n as [| n IH]; intros v1 v2 merged Hn Hm H1 H2 Hbound;
    rewrite weave_unfold; destruct v1 as [| a s1], v2 as [| b s2];
    simpl in Hn; try lia.
  - split; [exact Hm |]. intros z. rewrite covers_nil. tauto.
  - destruct (Htail merged s2 b Hm H2) as [Ho Hc].
    { intros back Hl. specialize (Hbound back Hl). simpl in Hbound.
      now apply Forall_cons in Hbound as [Hb _]. }
    split; [exact Ho |]. intros z. rewrite Hc, covers_nil. tauto.
  - destruct (Htail merged s1 a Hm H1) as [Ho Hc].
    { intros back Hl. specialize (Hbound back Hl). simpl in Hbound.
      now apply Forall_cons in Hbound as [Ha _]. }
    split; [exact Ho |]. intros z. rewrite Hc, covers_nil. tauto.
  - assert (Ha : forall back, last merged = Some back -> mktime back.1 <= mktime a.1).
    { intros back Hl. specialize (Hbound back Hl). simpl in Hbound.
      now apply Forall_cons in Hbound as [Ha _]. }
    assert (Hb : forall back, last merged = Some back -> mktime back.1 <= mktime b.1).
    { intros back Hl. specialize (Hbound back Hl).
      apply Forall_app in Hbound as [_ Hbound].
      now apply Forall_cons in Hbound as [Hb _]. }
    pose proof H1 as [Hwf1 Hasc1]. pose proof H2 as [Hwf2 Hasc2].
    apply Forall_cons in Hwf1 as [Hwa Hwf1]. apply Forall_cons in Hwf2 as [Hwb Hwf2].
    apply ascending_cons in Hasc1 as [Has1 Hasc1].
    apply ascending_cons in Hasc2 as [Hbs2 Hasc2].
    destruct (Z.ltb_spec (mktime a.1) (mktime b.1)) as [Hab | Hba].
    + destruct (place_orderly merged a Hm Hwa Ha) as [Hpo _].
      destruct (IH s1 (b :: s2) (place merged a) ltac:(simpl; lia) Hpo
                  (conj Hwf1 Hasc1) H2) as [Ho Hc].
      { apply place_start_bound; try assumption.
        apply Forall_app. split; [exact Has1 |]. constructor; [lia |].
        eapply Forall_impl; [exact Hbs2 |]. cbn beta. intros w Hw. lia. }
      split; [exact Ho |]. intros z.
      rewrite Hc, (place_covers merged a z Ha), (covers_cons a s1). tauto.
    + destruct (place_orderly merged b Hm Hwb Hb) as [Hpo _].
      destruct (IH (a :: s1) s2 (place merged b) ltac:(simpl; lia) Hpo
                  H1 (conj Hwf2 Hasc2)) as [Ho Hc].
      { apply place_start_bound; try assumption.
        apply Forall_app. split; [| exact Hbs2]. constructor; [lia |].
        eapply Forall_impl; [exact Has1 |]. cbn beta. intros w Hw. lia. }
      split; [exact Ho |]. intros z.
      rewrite Hc, (place_covers merged b z Hb), (covers_cons b s2). tauto.
Qed.

Lemma orderly_dated (l : list TIMEPAIR) : orderly l -> Forall dated l.
Proof.
  intros [Hwf _]. eapply Forall_impl; [exact Hwf |].
  intros p (H1 & H2 & _). split; assumption.
Qed.

Lemma merge_union (v1 v2 : list TIMEPAIR) :
  orderly v1 -> orderly v2 -> v1 <> [] \/ v2 <> [] ->
  exists m, merge v1 v2 = Ret m /\ orderly m /\
            forall z, covers m z <-> covers v1 z \/ covers v2 z.
Proof.
  intros H1 H2 Hne. exists (weave [] v1 v2).
  split; [apply merge_weave; auto using orderly_dated |].
  destruct (weave_same_times _ v1 v2 [] eq_refl) as [Ho Hc]; try assumption.
  - split; constructor.
  - intros back Hl. discriminate.
  - split; [exact Ho |]. intros z. rewrite Hc, covers_nil. tauto.
Qed.

(** For two lists of well-formed intervals in ascending order of start,
    not both empty, [merge] returns a list of well-formed intervals in
    ascending order of start that covers exactly the times the two lists
    cover: no time is lost and none is added, also where the remaining
    intervals of one list are inserted as they are. *)
Theorem merge_same_times (v1 v2 : list TIMEPAIR) :
  orderly v1 -> orderly v2 -> v1 <> [] \/ v2 <> [] ->
  exists m, merge v1 v2 = Ret m /\ orderly m /\
            forall z, covers m z <-> covers v1 z \/ covers v2 z.
Proof. apply merge_union. Qed.

End Union.

Lemma merge_same_times_witness :
  exists m, @merge epoch_clock [(0, 100)] [(1, 2); (3, 4)] = Ret m /\
            orderly m /\
            forall z, covers m z <->
                      @covers epoch_clock [(0, 100)] z \/
                      @covers epoch_clock [(1, 2); (3, 4)] z.
Proof.
  apply (@merge_same_times epoch_clock [(0, 100)] [(1, 2); (3, 4)]).
  - split; repeat constructor; simpl; (discriminate || lia).
  - split; repeat constructor; simpl; (discriminate || lia).
  - left. discriminate.
Defined.

(** ** The times an area covers *)

Section AreaTimes.
Context `{Clock}.

Lemma tryAreas_merged (cur : list TIMEPAIR) (tag : string) (st : User.areas) :
  forall (n i0 : nat) (b : bool) (st' : User.areas),
    User.tryAreas n (Z.of_nat i0) cur tag st = Ret (b, st') ->
    (b = false /\ st' = st) \/
    (b = true /\
     exists (i : nat) (a m : list TIMEPAIR),
       User.areaList st !! i = Some a /\ merge cur a = Ret m /\
       st' = User.Areas (<[tag := Z.of_nat i + 1]> (User.areaMap st))
                        (User.areaID st)
                        (<[i := m]> (User.areaList st))).
Proof.
  induction n as [| n IH]; intros i0 b st'; cbn [User.tryAreas].
  - intros [= <- <-]. now left.
  - intros Hr. apply bind_Ret in Hr as (a & Ha & Hr).
    apply bind_Ret in Hr as (m & Hm & Hr).
    apply vec_at_Ret in Ha as [_ Ha]. rewrite Nat2Z.id in Ha.
    destruct (size m <? size cur + size a).
    + injection Hr as <- <-. right. split; [reflexivity |]. exists i0, a, m.
      rewrite Nat2Z.id. auto.
    + replace (Z.of_nat i0 + 1) with (Z.of_nat (S i0)) in Hr by lia.
      now apply (IH (S i0)).
Qed.

Lemma assignArea_merged (cur : list TIMEPAIR) (tag : string) (st st' : User.areas) :
  User.assignArea cur tag st = Ret st' ->
  st' = User.Areas (<[tag := User.areaID st]> (User.areaMap st))
                   (User.areaID st + 1) (User.areaList st ++ [cur]) \/
  exists (i : nat) (a m : list TIMEPAIR),
    User.areaList st !! i = Some a /\ merge cur a = Ret m /\
    st' = User.Areas (<[tag := Z.of_nat i + 1]> (User.areaMap st))
                     (User.areaID st)
                     (<[i := m]> (User.areaList st)).
Proof.
  unfold User.assignArea. intros Hr.
  apply bind_Ret in Hr as ([b st1] & Htry & Hr). cbn [fst snd] in Hr.
  apply (tryAreas_merged cur tag st _ 0%nat) in Htry.
  destruct Htry as [[-> ->] | [-> Hshape]]; injection Hr as <-; [now left | now right].
Qed.

Lemma segments_of_unique (U : User.t) (interval : Z) (tag : string)
    (segs segs' : list TIMEPAIR) :
  named_once U ->
  segments_of U interval tag segs -> segments_of U interval tag segs' -> segs = segs'.
Proof.
  intros Honce (c & Hc & Hn & Hs) (c' & Hc' & Hn' & Hs').
  rewrite (Honce c c' Hc Hc') in Hs by congruence. congruence.
Qed.

Lemma area_times_bind (U : User.t) (interval : Z) (st : User.areas) (tag : string)
    (id : Z) (segs : list TIMEPAIR) (i : nat) (a a' : list TIMEPAIR) :
  named_once U ->
  User.areaMap st !! tag = None ->
  segments_of U interval tag segs ->
  (forall z, covers a z <->
             exists tag' segs',
               User.areaMap st !! tag' = Some (Z.of_nat i + 1) /\
               segments_of U interval tag' segs' /\ covers segs' z) ->
  (forall z, covers a' z <->
             (id = Z.of_nat i + 1 /\ covers segs z) \/ covers a z) ->
  forall z, covers a' z <->
            exists tag' segs',
              <[tag := id]> (User.areaMap st) !! tag' = Some (Z.of_nat i + 1) /\
              segments_of U interval tag' segs' /\ covers segs' z.
Proof.
  intros Honce Hfree Hsegs Ha Ha' z. rewrite Ha', Ha. split.
  - intros [[-> Hz] | (tag' & segs' & Hl & Hs & Hz)].
    + exists tag, segs. rewrite lookup_insert_eq. auto.
    + exists tag', segs'. rewrite lookup_insert_ne by congruence. auto.
  - intros (tag' & segs' & Hl & Hs & Hz).
    destruct (decide (tag = tag')) as [<- | Hne].
    + rewrite lookup_insert_eq in Hl. injection Hl as ->. left.
      split; [reflexivity |]. now rewrite (segments_of_unique U interval tag segs segs').
    + rewrite lookup_insert_ne in Hl by exact Hne. right. eauto.
Qed.

Lemma assignArea_times (U : User.t) (interval : Z) (st st' : User.areas) (tag : string)
    (segs : list TIMEPAIR) :
  named_once U -> ids_sequential st ->
  User.areaMap st !! tag = None ->
  segments_of U interval tag segs -> orderly segs -> segs <> [] ->
  area_times U interval st ->
  User.assignArea segs tag st = Ret st' ->
  area_times U interval st'.
Proof.
  intros Honce [Hid Hvals] Hfree Hsegs Hord Hne Hst Hr.
  apply assignArea_merged in Hr as [-> | (i0 & a0 & m & Ha0 & Hm & ->)];
    intros i a; cbn [User.areaList User.areaMap].
  - (* a new area *)
    intros Ha. apply lookup_app_Some in Ha as [Ha | [Hge Ha]].
    + destruct (Hst i a Ha) as (Ho & Hn & Hc). split; [exact Ho |]. split; [exact Hn |].
      apply (area_times_bind U interval st tag _ segs i a a Honce Hfree Hsegs Hc).
      intros z. apply lookup_lt_Some in Ha. unfold size in Hid. split; [auto |].
      intros [[Heq _] | Hz]; [lia | exact Hz].
    + apply list_lookup_singleton_Some in Ha as [Hi <-].
      split; [exact Hord |]. split; [exact Hne |]. intros z. split.
      * intros Hz. exists tag, segs. rewrite lookup_insert_eq.
        split; [f_equal; unfold size in Hid; lia | auto].
      * intros (tag' & segs' & Hl & Hs & Hz).
        destruct (decide (tag = tag')) as [<- | Hneq].
        -- now rewrite (segments_of_unique U interval tag segs segs').
        -- rewrite lookup_insert_ne in Hl by exact Hneq.
           specialize (Hvals _ _ Hl). cbn beta in Hvals. unfold size in Hvals. lia.
  - (* an area that shares time with the cell *)
    destruct (Hst i0 a0 Ha0) as (Ho0 & Hn0 & Hc0).
    destruct (merge_union segs a0 Hord Ho0 (or_introl Hne)) as (m' & Hm' & Hom & Hcm).
    rewrite Hm in Hm'. injection Hm' as <-.
    intros Ha. destruct (decide (i = i0)) as [-> | Hneq].
    + rewrite list_lookup_insert_eq in Ha by (now apply lookup_lt_Some in Ha0).
      injection Ha as <-. split; [exact Hom |]. split.
      * destruct (merge_dated segs a0 (orderly_dated _ Hord) (orderly_dated _ Ho0)
                    (or_introl Hne)) as (m' & Hm' & Hmne & _).
        rewrite Hm in Hm'. now injection Hm' as <-.
      * apply (area_times_bind U interval st tag _ segs i0 a0 m Honce Hfree Hsegs Hc0).
        intros z. rewrite Hcm. tauto.
    + rewrite list_lookup_insert_ne in Ha by congruence.
      destruct (Hst i a Ha) as (Ho & Hn & Hc). split; [exact Ho |]. split; [exact Hn |].
      apply (area_times_bind U interval st tag _ segs i a a Honce Hfree Hsegs Hc).
      intros z. split; [auto |]. intros [[Heq _] | Hz]; [lia | exact Hz].
Qed.

Lemma separated_orderly (l : list TIMEPAIR) : separated l -> orderly l.
Proof.
  intros (Hwf & Hsorted & _). split; [exact Hwf |].
  apply Sorted_StronglySorted in Hsorted; [| intros x y z; unfold starts_before; lia].
  unfold ascending. induction Hsorted as [| x l Hl IH Hx]; constructor.
  - apply IH. now apply Forall_cons in Hwf as [_ Hwf].
  - eapply Forall_impl; [exact Hx |]. cbn beta. unfold starts_before. intros y Hy. lia.
Qed.

Lemma topKLoop_times (U : User.t) (interval : Z) (fuel : nat) :
  named_once U ->
  forall (u : User.t) (st : User.areas) (r : User.t * User.areas),
    settled U u -> ids_sequential st -> every_area_named u st ->
    area_times U interval st ->
    User.topKLoop fuel interval u st = Ret r ->
    area_times U interval r.2.
Proof.
  intros Honce. induction fuel as [| fuel IH]; intros u st r Hset Hseq Hnamed Htimes;
    cbn [User.topKLoop];
    destruct (PriorityQueue.top (User.cellQueue_ u)) as [[tag num] |] eqn:Htop;
    try (intros [= <-]; exact Htimes); try discriminate.
  destruct Hset as [Hcells Hqueue].
  destruct (Hqueue _ (top_elem_of _ _ Htop)) as (i & c & Hidx & Hc & Hname & Hsorted).
  cbn [fst] in Hidx, Hname.
  unfold User.cellIndex. rewrite Hidx. change (default 0 (Some (Z.of_nat i))) with (Z.of_nat i).
  cbn [User.subscripted User.cellList_]. rewrite Hcells, (vec_at_nat _ _ _ Hc). cbn [bind].
  intros Hr. apply bind_Ret in Hr as (segs & Hsegs & Hr).
  destruct (interval =? 0); [discriminate |].
  destruct (num <? 3600 ÷ interval); [injection Hr as <-; exact Htimes |].
  apply bind_Ret in Hr as (st' & Hst' & Hr).
  pose proof (subscripted_known u tag _ Hidx) as Hu. rewrite Hu in Hr.
  assert (Hset' : settled U (User.popQueue u)).
  { split; [exact Hcells |]. intros e He. apply Hqueue.
    cbn [User.popQueue User.cellQueue_] in He. now apply pop_elem_of. }
  pose proof (named_pop u st tag Hnamed) as Hnamed0. rewrite Hu in Hnamed0.
  destruct (3600 <? User.stayTimeOf segs interval).
  - assert (Hfree : User.areaMap st !! tag = None).
    { destruct (User.areaMap st !! tag) as [id |] eqn:Hl; [| reflexivity].
      destruct Hnamed as (Hnd & Hbound & _). destruct (Hbound _ _ Hl) as [Hout _].
      exfalso. apply Hout. apply list_elem_of_fmap. exists (tag, num).
      split; [reflexivity | now apply top_elem_of]. }
    assert (Hof : segments_of U interval tag segs).
    { exists c. split; [apply list_elem_of_lookup; eauto | auto]. }
    pose proof (getTimeSegments_Ret c interval segs Hsegs) as (Hne & Hint & Hconv).
    assert (Hsep : separated segs).
    { rewrite (getTimeSegments_spec c interval Hne Hconv Hint) in Hsegs.
      injection Hsegs as <-. unfold sorted_by_time, all_convertible in *.
      destruct (Cell.rowList_ c) as [| r0 rest]; [congruence |]. simpl.
      apply Forall_cons in Hconv as [Hc0 Hcr].
      apply segment_from_separated; try assumption; try lia.
      unfold timestamps. rewrite Forall_map. exact Hcr. }
    assert (Hsne : segs <> []).
    { pose proof (getTimeSegments_length c interval segs Hsegs) as Hlen.
      intros ->. simpl in Hlen. lia. }
    pose proof (assignArea_times U interval st st' tag segs Honce Hseq Hfree Hof
                  (separated_orderly _ Hsep) Hsne Htimes Hst') as Htimes'.
    destruct (assignArea_shape _ _ _ _ Hseq Hst') as (id & Hmap & Hid).
    pose proof (named_step u st st' tag num id Htop Hnamed Hmap Hid) as Hnamed'.
    rewrite Hu in Hnamed'.
    exact (IH _ _ _ Hset' (assignArea_sequential _ _ _ _ Hseq Hst') Hnamed' Htimes' Hr).
  - injection Hst' as <-. exact (IH _ _ _ Hset' Hseq Hnamed0 Htimes Hr).
Qed.

Lemma readFile_settled (records : list DataRow.t) (u : User.t) :
  User.readFile records = Ret u -> settled u u /\ named_once u.
Proof.
  intros Hu.
  destruct (readFile_built records u Hu) as (_ & _ & (Hname & _ & _) & Hgr).
  destruct (readFile_result records) as [_ Hres].
  destruct (Hres u Hu) as [_ Hq].
  split; [split; [reflexivity |] |].
  - intros e He. rewrite Hq in He. apply list_elem_of_fmap in He as (c & -> & Hc).
    apply list_elem_of_lookup in Hc as [i Hc]. exists i, c.
    split; [now apply Hname |]. split; [exact Hc |]. split; [reflexivity |].
    now destruct (Hgr i c Hc).
  - intros c c' Hc Hc' Heq.
    apply list_elem_of_lookup in Hc as [i Hc]. apply list_elem_of_lookup in Hc' as [j Hc'].
    pose proof (Hname _ _ Hc) as Hi. pose proof (Hname _ _ Hc') as Hj.
    rewrite Heq, Hj in Hi. injection Hi as Hij. apply Nat2Z.inj in Hij. subst j.
    congruence.
Qed.

(** What the areas found by [findResidentialAreaByTopKCells] are, for a
    user built by [readFile]: area number [i + 1] is a list of well-formed
    intervals in ascending order of start, and the times it covers are
    exactly the times covered by the segments of the cells bound to that
    number in [areaMap]. *)
Theorem areas_cover_their_cells (records : list DataRow.t) (u : User.t) (interval : Z)
    (r : User.t * User.areas) :
  User.readFile records = Ret u ->
  User.findResidentialAreaByTopKCells u interval = Ret r ->
  forall (i : nat) (a : list TIMEPAIR),
    User.areaList r.2 !! i = Some a ->
    orderly a /\
    forall z, covers a z <->
              exists tag segs,
                User.areaMap r.2 !! tag = Some (Z.of_nat i + 1) /\
                segments_of u interval tag segs /\ covers segs z.
Proof.
  intros Hu Hr i a Ha. unfold User.findResidentialAreaByTopKCells in Hr.
  apply bind_Ret in Hr as (r0 & Hloop & [= <-]). cbn [snd] in Ha |- *.
  destruct (readFile_settled records u Hu) as [Hset Honce].
  assert (Hseq0 : ids_sequential (User.Areas ∅ 1 [])).
  { split; [reflexivity |]. apply map_Forall_empty. }
  assert (Htimes0 : area_times u interval (User.Areas ∅ 1 [])).
  { intros j b Hb. cbn [User.areaList] in Hb. now rewrite lookup_nil in Hb. }
  pose proof (topKLoop_times u interval _ Honce u _ r0 Hset Hseq0
                (readFile_named records u Hu) Htimes0 Hloop) as Htimes.
  destruct (Htimes i a Ha) as (Ho & _ & Hc). split; [exact Ho | exact Hc].
Qed.

End AreaTimes.

Lemma areas_cover_their_cells_witness :
  exists r : @User.t epoch_clock * User.areas,
    @User.findResidentialAreaByTopKCells epoch_clock three_cells_user 1800 = Ret r /\
    forall (i : nat) (a : list TIMEPAIR),
      User.areaList r.2 !! i = Some a ->
      orderly a /\
      forall z, covers a z <->
                exists tag segs,
                  User.areaMap r.2 !! tag = Some (Z.of_nat i + 1) /\
                  segments_of three_cells_user 1800 tag segs /\ covers segs z.
Proof.
  eexists. split; [vm_compute; reflexivity |].
  apply (@areas_cover_their_cells epoch_clock three_cells three_cells_user 1800);
    vm_compute; reflexivity.
Defined.

(** ** Which cells are bound to an area *)

Section Bound.
Context `{Clock}.

Lemma queue_names (q : PriorityQueue.t) (tag : string) (num : Z) (x : string) :
  PriorityQueue.top q = Some (tag, num) ->
  x ∈ map fst q -> x = tag \/ x ∈ map fst (PriorityQueue.pop q).
Proof.
  unfold PriorityQueue.top, PriorityQueue.pop.
  destruct (PriorityQueue.select q) as [[m rest] |] eqn:Hsel; [| discriminate].
  intros [= ->]. apply select_Some in Hsel as [Hperm _]. rewrite Hperm. simpl.
  rewrite elem_of_cons. tauto.
Qed.

Lemma ranked_entry (U u : User.t) (c : Cell.t) :
  named_once U -> ranked U u ->
  c ∈ User.cellList_ U -> Cell.getName c ∈ map fst (User.cellQueue_ u) ->
  ranking_entry c ∈ User.cellQueue_ u.
Proof.
  intros Honce Hranked Hc Hin. apply list_elem_of_fmap in Hin as (e & Hname & He).
  destruct (Hranked e He) as (c' & Hc' & ->). cbn in Hname.
  now rewrite (Honce c c' Hc Hc' Hname).
Qed.

Lemma topKLoop_bound (U : User.t) (interval : Z) (fuel : nat) :
  named_once U -> 0 < interval ->
  forall (u : User.t) (st : User.areas) (r : User.t * User.areas),
    settled U u -> ranked U u -> ids_sequential st -> every_area_named u st ->
    bound_if_long U interval u st ->
    User.topKLoop fuel interval u st = Ret r ->
    forall (c : Cell.t) (segs : list TIMEPAIR),
      c ∈ User.cellList_ U ->
      Cell.getTimeSegments c interval = Ret segs ->
      (is_Some (User.areaMap r.2 !! Cell.getName c) <->
       3600 < User.stayTimeOf segs interval).
Proof.
  intros Honce Hint.
  induction fuel as [| fuel IH]; intros u st r Hset Hranked Hseq Hnamed Hbound;
    cbn [User.topKLoop];
    destruct (PriorityQueue.top (User.cellQueue_ u)) as [[tag num] |] eqn:Htop;
    try discriminate.
  1,3: intros [= <-] c segs Hc Hsegs; apply (Hbound c segs Hc); [| exact Hsegs];
       destruct (User.cellQueue_ u) as [| e q] eqn:Hq;
       [intros Hin; now apply elem_of_nil in Hin |];
       destruct (top_nonempty (e :: q) ltac:(discriminate)) as [x Hx]; congruence.
  destruct Hset as [Hcells Hqueue].
  destruct (Hqueue _ (top_elem_of _ _ Htop)) as (i & c0 & Hidx & Hc0 & Hname0 & Hsorted).
  cbn [fst] in Hidx, Hname0.
  unfold User.cellIndex. rewrite Hidx. change (default 0 (Some (Z.of_nat i))) with (Z.of_nat i).
  cbn [User.subscripted User.cellList_]. rewrite Hcells, (vec_at_nat _ _ _ Hc0). cbn [bind].
  intros Hr. apply bind_Ret in Hr as (segs0 & Hsegs0 & Hr).
  destruct (interval =? 0); [discriminate |].
  assert (Hfree : User.areaMap st !! tag = None).
  { destruct (User.areaMap st !! tag) as [id |] eqn:Hl; [| reflexivity].
    destruct Hnamed as (Hnd & Hb & _). destruct (Hb _ _ Hl) as [Hout _].
    exfalso. apply Hout. apply list_elem_of_fmap. exists (tag, num).
    split; [reflexivity | now apply top_elem_of]. }
  destruct (Z.ltb_spec num (3600 ÷ interval)) as [Hbreak | Hgo].
  - (* the break *)
    injection Hr as <-. cbn [snd]. intros c segs Hc Hsegs.
    destruct (decide (Cell.getName c ∈ map fst (User.cellQueue_ u))) as [Hin | Hout];
      [| now apply (Hbound c segs)].
    pose proof (ranked_entry U u c Honce Hranked Hc Hin) as Hentry.
    pose proof (early_break _ interval tag num Htop Hint Hbreak c segs Hentry Hsegs) as Hshort.
    split; [| lia]. intros [id Hl]. exfalso.
    destruct Hnamed as (_ & Hb & _). destruct (Hb _ _ Hl) as [Hnot _]. now apply Hnot.
  - apply bind_Ret in Hr as (st' & Hst' & Hr).
    pose proof (subscripted_known u tag _ Hidx) as Hu. rewrite Hu in Hr.
    assert (Hset' : settled U (User.popQueue u)).
    { split; [exact Hcells |]. intros e He. apply Hqueue.
      cbn [User.popQueue User.cellQueue_] in He. now apply pop_elem_of. }
    assert (Hranked' : ranked U (User.popQueue u)).
    { intros e He. apply Hranked.
      cbn [User.popQueue User.cellQueue_] in He. now apply pop_elem_of. }
    assert (Hc0in : c0 ∈ User.cellList_ U) by (apply list_elem_of_lookup; eauto).
    destruct Hnamed as (Hnd & Hnamed2) eqn:Hnamed_eq. clear Hnamed_eq.
    destruct (pop_names _ _ _ Htop Hnd) as (_ & Hgone & _).
    assert (Hstep : forall st1,
               (forall x, x <> tag -> User.areaMap st1 !! x = User.areaMap st !! x) ->
               (is_Some (User.areaMap st1 !! tag) <->
                3600 < User.stayTimeOf segs0 interval) ->
               bound_if_long U interval (User.popQueue u) st1).
    { intros st1 Hsame Htag c segs Hc Hout Hsegs.
      cbn [User.popQueue User.cellQueue_] in Hout.
      destruct (decide (Cell.getName c = tag)) as [Heq | Hneq].
      - assert (c = c0) as -> by (apply (Honce c c0 Hc Hc0in); congruence).
        rewrite Hsegs0 in Hsegs. injection Hsegs as <-. now rewrite Hname0.
      - rewrite (Hsame _ Hneq). apply (Hbound c segs Hc); [| exact Hsegs].
        intros Hin. destruct (queue_names _ _ _ _ Htop Hin) as [Heq | Hrest];
          [contradiction | now apply Hout]. }
    destruct (Z.ltb_spec 3600 (User.stayTimeOf segs0 interval)) as [Hlong | Hshort].
    + destruct (assignArea_shape _ _ _ _ Hseq Hst') as (id & Hmap & Hid).
      pose proof (named_step u st st' tag num id Htop (conj Hnd Hnamed2) Hmap Hid)
        as Hnamed'.
      rewrite Hu in Hnamed'.
      apply (IH _ _ _ Hset' Hranked' (assignArea_sequential _ _ _ _ Hseq Hst') Hnamed');
        [| exact Hr].
      apply Hstep.
      * intros x Hx. rewrite Hmap. now rewrite lookup_insert_ne by congruence.
      * rewrite Hmap, lookup_insert_eq. split; [intros _; exact Hlong | eauto].
    + injection Hst' as <-.
      pose proof (named_pop u st tag (conj Hnd Hnamed2)) as Hnamed0.
      rewrite Hu in Hnamed0.
      apply (IH _ _ _ Hset' Hranked' Hseq Hnamed0); [| exact Hr].
      apply Hstep; [reflexivity |].
      rewrite Hfree. split; [intros [x Hx]; discriminate | lia].
Qed.

(** The cells [findResidentialAreaByTopKCells] binds to an area, for a
    user built by [readFile] and a positive interval: a cell is bound to an
    area exactly when its stay time, the number of its segments times the
    interval, is above 3600: also for the cells the search never looks at
    because it has left its loop early. *)
Theorem bound_iff_long_stay (records : list DataRow.t) (u : User.t) (interval : Z)
    (r : User.t * User.areas) :
  User.readFile records = Ret u -> 0 < interval ->
  User.findResidentialAreaByTopKCells u interval = Ret r ->
  forall (c : Cell.t) (segs : list TIMEPAIR),
    c ∈ User.cellList_ u ->
    Cell.getTimeSegments c interval = Ret segs ->
    (is_Some (User.areaMap r.2 !! Cell.getName c) <->
     3600 < User.stayTimeOf segs interval).
Proof.
  intros Hu Hint Hr. unfold User.findResidentialAreaByTopKCells in Hr.
  apply bind_Ret in Hr as (r0 & Hloop & [= <-]). cbn [snd].
  destruct (readFile_settled records u Hu) as [Hset Honce].
  destruct (readFile_result records) as [_ Hres].
  destruct (Hres u Hu) as [_ Hq].
  assert (Hseq0 : ids_sequential (User.Areas ∅ 1 [])).
  { split; [reflexivity |]. apply map_Forall_empty. }
  apply (topKLoop_bound u interval (length (User.cellQueue_ u)) Honce Hint u
           (User.Areas ∅ 1 []) r0 Hset); try assumption.
  - intros e He. rewrite Hq in He. apply list_elem_of_fmap in He as (c & -> & Hc). eauto.
  - now apply (readFile_named records).
  - intros c segs Hc Hout _. exfalso. apply Hout. rewrite Hq.
    rewrite <- list_fmap_compose. apply list_elem_of_fmap. exists c. auto.
Qed.

End Bound.

Lemma bound_iff_long_stay_witness :
  exists r : @User.t epoch_clock * User.areas,
    @User.findResidentialAreaByTopKCells epoch_clock three_cells_user 1800 = Ret r /\
    forall (c : Cell.t) (segs : list TIMEPAIR),
      c ∈ User.cellList_ three_cells_user ->
      Cell.getTimeSegments c 1800 = Ret segs ->
      (is_Some (User.areaMap r.2 !! Cell.getName c) <->
       3600 < User.stayTimeOf segs 1800).
Proof.
  eexists. split; [vm_compute; reflexivity |].
  apply (@bound_iff_long_stay epoch_clock three_cells three_cells_user 1800);
    [vm_compute; reflexivity | lia | vm_compute; reflexivity].
Defined.

(** ** The laws of merge, up to the times covered *)

Section LawsUpToTimes.
Context `{Clock}.

(** For lists of well-formed intervals in ascending order of start, the
    laws that fail for the lists [merge] returns hold for the times these
    lists cover: merging in either order, and merging three lists in either
    grouping, covers the same times, and merging a list with itself covers
    the times of the list. *)
Theorem merge_laws_up_to_times (a b c : list TIMEPAIR) :
  orderly a -> orderly b -> orderly c -> b <> [] ->
  (exists ab ba,
      merge a b = Ret ab /\ merge b a = Ret ba /\
      forall z, covers ab z <-> covers ba z) /\
  (exists ab bc ab_c a_bc,
      merge a b = Ret ab /\ merge b c = Ret bc /\
      merge ab c = Ret ab_c /\ merge a bc = Ret a_bc /\
      forall z, covers ab_c z <-> covers a_bc z) /\
  (exists bb, merge b b = Ret bb /\ forall z, covers bb z <-> covers b z).
Proof.
  intros Ha Hb Hc Hne.
  destruct (merge_union a b Ha Hb (or_intror Hne)) as (ab & Hab & Hoab & Hcab).
  destruct (merge_union b a Hb Ha (or_introl Hne)) as (ba & Hba & _ & Hcba).
  destruct (merge_union b c Hb Hc (or_introl Hne)) as (bc & Hbc & Hobc & Hcbc).
  destruct (merge_union b b Hb Hb (or_introl Hne)) as (bb & Hbb & _ & Hcbb).
  assert (Habne : ab <> []).
  { destruct (merge_dated a b (orderly_dated _ Ha) (orderly_dated _ Hb) (or_intror Hne))
      as (m & Hm & Hmne & _).
    rewrite Hab in Hm. now injection Hm as <-. }
  destruct (merge_union ab c Hoab Hc (or_introl Habne)) as (ab_c & Habc & _ & Hcabc).
  destruct (merge_union a bc Ha Hobc) as (a_bc & Ha_bc & _ & Hca_bc).
  { right. destruct (merge_dated b c (orderly_dated _ Hb) (orderly_dated _ Hc)
                       (or_introl Hne)) as (m & Hm & Hmne & _).
    rewrite Hbc in Hm. now injection Hm as <-. }
  split; [| split].
  - exists ab, ba. split; [exact Hab |]. split; [exact Hba |].
    intros z. rewrite Hcab, Hcba. tauto.
  - exists ab, bc, ab_c, a_bc. repeat (split; [assumption |]).
    intros z. rewrite Hcabc, Hca_bc, Hcab, Hcbc. tauto.
  - exists bb. split; [exact Hbb |]. intros z. rewrite Hcbb. tauto.
Qed.

End LawsUpToTimes.

Lemma merge_laws_up_to_times_witness :
  exists ab ba,
    @merge epoch_clock [(5, 100)] [(5, 6); (7, 8)] = Ret ab /\
    @merge epoch_clock [(5, 6); (7, 8)] [(5, 100)] = Ret ba /\
    ab <> ba /\
    forall z, covers ab z <-> covers ba z.
Proof.
  destruct (@merge_laws_up_to_times epoch_clock [(5, 100)] [(5, 6); (7, 8)] [(9, 10)])
    as [(ab & ba & Hab & Hba & Hsame) _].
  - split; repeat constructor; simpl; (discriminate || lia).
  - split; repeat constructor; simpl; (discriminate || lia).
  - split; repeat constructor; simpl; (discriminate || lia).
  - discriminate.
  - exists ab, ba. split; [exact Hab |]. split; [exact Hba |]. split; [| exact Hsame].
    vm_compute in Hab, Hba. injection Hab as <-. injection Hba as <-. discriminate.
Defined.
